(** * vir_elbot: the serial link of the Elbot arm controller

    A shallow embedding of [SerialConnection.tsx] (the React component
    that owns the Web Serial connection) together with the part of
    [page.tsx] that stores the joint state, and the properties of the
    line protocol, the motion timing and the connection bookkeeping that
    the design document states about them.

    Conventions of the embedding.

    - A JavaScript string is a [string]; every character the protocol
      inspects is ASCII.
    - A JavaScript number is a [number]: an exact rational, or one of
      [Infinity], [-Infinity], [NaN].  Finite arithmetic is exact (no
      rounding to binary64) and the sign of zero is not tracked; this
      is the arithmetic of the component and of the manual controls.
      Where rounding decides the outcome, in the text written for an
      angle and the angle read back from it, the codec is embedded
      over binary64 values in [Binary64].
    - A [JointState] object is a finite map from joint names to numbers.
    - [useState] cells live in a record; the names a function body reads
      ([writer], [isConnected], [isMoving], [jointStates], ...) are the
      [const] bindings of the render in which the function was created,
      so every function takes the [Scope] of its render as an argument
      and reaches the cells themselves only through the setters. *)

From Stdlib Require Import Ascii QArith Qround Qabs Qminmax Lia Lqa.
From Stdlib Require String.
From Stdlib Require Import SpecFloat.
From stdpp Require Import gmap strings list fin_maps.

(** ** JavaScript strings *)

Module JsString.

Definition newline : ascii := "010"%char.

(** [s.indexOf(c)] for a one-character needle; [None] stands for -1. *)
Fixpoint indexOf (c : ascii) (s : string) : option nat :=
  match s with
  | EmptyString => None
  | String a s' =>
      if Ascii.eqb a c then Some 0%nat
      else match indexOf c s' with
           | Some i => Some (S i)
           | None => None
           end
  end.

(** [s.substring(0, i)] *)
Definition substring_to (i : nat) (s : string) : string :=
  String.substring 0 i s.

(** [s.substring(i)] *)
Definition substring_from (i : nat) (s : string) : string :=
  String.substring i (String.length s - i) s.

(** Membership of a character, as a proposition. *)
Fixpoint occurs (c : ascii) (s : string) : Prop :=
  match s with
  | EmptyString => False
  | String a s' => a = c \/ occurs c s'
  end.

Definition concat (l : list string) : string :=
  foldr String.append EmptyString l.

End JsString.

(** ** The read loop of [readSerialData]

    [buffer] is the local of [readSerialData]; each [read()] appends the
    chunk and the inner [while] hands every complete line to
    [processCommand].  The inner loop is modelled with fuel; one unit
    more than the length of the buffer always suffices
    ([drain_enough_fuel]). *)

Module LineReader.
Import JsString.

(** The inner [while ((newlineIndex = buffer.indexOf('\n')) !== -1)].
    Returns the commands handed to [processCommand], oldest first, and
    the buffer left when the loop exits. *)
Fixpoint drain_loop (fuel : nat) (buffer : string) : list string * string :=
  match fuel with
  | O => ([], buffer)
  | S fuel' =>
      match indexOf newline buffer with
      | Some newlineIndex =>
          let command := substring_to newlineIndex buffer in
          let buffer' := substring_from (newlineIndex + 1) buffer in
          let '(commands, rest) := drain_loop fuel' buffer' in
          (command :: commands, rest)
      | None => ([], buffer)
      end
  end.

Definition drain (buffer : string) : list string * string :=
  drain_loop (S (String.length buffer)) buffer.

(** One turn of the outer [while (true)]: [buffer += value] and the
    inner loop. *)
Definition on_chunk (buffer value : string) : list string * string :=
  drain (buffer +:+ value).

(** The outer loop over the chunks the reader delivers, starting from
    [let buffer = '']. *)
Fixpoint read_chunks (buffer : string) (chunks : list string)
  : list string * string :=
  match chunks with
  | [] => ([], buffer)
  | value :: chunks' =>
      let '(commands, buffer') := on_chunk buffer value in
      let '(later, final) := read_chunks buffer' chunks' in
      (commands ++ later, final)
  end.

Definition readSerialData (chunks : list string) : list string * string :=
  read_chunks "" chunks.

(** What the text [s] contains: its newline-terminated lines and the
    text after the last terminator.  Used only to state and prove the
    properties of the loop. *)
Fixpoint split_lines (s : string) : list string * string :=
  match s with
  | EmptyString => ([], "")
  | String a s' =>
      let '(ls, tl) := split_lines s' in
      if Ascii.eqb a newline then ("" :: ls, tl)
      else match ls with
           | [] => ([], String a tl)
           | l :: ls' => (String a l :: ls', tl)
           end
  end.

Definition terminate (l : string) : string := l +:+ String newline "".

End LineReader.

(** ** JavaScript numbers *)

Module JsNumber.

Inductive number : Type :=
| Fin (q : Q)
| PosInf
| NegInf
| NaN.

Definition zero : number := Fin 0%Q.
Definition of_Z (z : Z) : number := Fin (inject_Z z).

(** [Math.PI], the binary64 value 0x1.921fb54442d18p+1 as a fraction. *)
Definition PI : Q := (884279719003555 # 281474976710656)%Q.
Definition Math_PI : number := Fin PI.

Definition opp (a : number) : number :=
  match a with
  | Fin x => Fin (- x)%Q
  | PosInf => NegInf
  | NegInf => PosInf
  | NaN => NaN
  end.

Definition add (a b : number) : number :=
  match a, b with
  | NaN, _ | _, NaN => NaN
  | Fin x, Fin y => Fin (x + y)%Q
  | PosInf, NegInf | NegInf, PosInf => NaN
  | PosInf, _ | _, PosInf => PosInf
  | NegInf, _ | _, NegInf => NegInf
  end.

Definition sub (a b : number) : number := add a (opp b).

(** The sign of an infinite product or quotient. *)
Definition signed_inf (negative : bool) : number :=
  if negative then NegInf else PosInf.

Definition is_neg (x : Q) : bool :=
  match Qcompare x 0%Q with Lt => true | _ => false end.
Definition is_zero (x : Q) : bool :=
  match Qcompare x 0%Q with Eq => true | _ => false end.

Definition mul (a b : number) : number :=
  match a, b with
  | NaN, _ | _, NaN => NaN
  | Fin x, Fin y => Fin (x * y)%Q
  | Fin x, PosInf | PosInf, Fin x =>
      if is_zero x then NaN else signed_inf (is_neg x)
  | Fin x, NegInf | NegInf, Fin x =>
      if is_zero x then NaN else signed_inf (negb (is_neg x))
  | PosInf, PosInf | NegInf, NegInf => PosInf
  | PosInf, NegInf | NegInf, PosInf => NegInf
  end.

(** Division; a zero divisor is taken to be +0. *)
Definition div (a b : number) : number :=
  match a, b with
  | NaN, _ | _, NaN => NaN
  | Fin x, Fin y =>
      if is_zero y
      then (if is_zero x then NaN else signed_inf (is_neg x))
      else Fin (x / y)%Q
  | Fin _, (PosInf | NegInf) => Fin 0%Q
  | PosInf, Fin y => signed_inf (is_neg y)
  | NegInf, Fin y => signed_inf (negb (is_neg y))
  | (PosInf | NegInf), (PosInf | NegInf) => NaN
  end.

(** [Math.abs] *)
Definition Math_abs (a : number) : number :=
  match a with
  | Fin x => Fin (Qabs x)
  | PosInf | NegInf => PosInf
  | NaN => NaN
  end.

(** [a < b]; every comparison with [NaN] is false. *)
Definition ltb (a b : number) : bool :=
  match a, b with
  | NaN, _ | _, NaN => false
  | Fin x, Fin y => match Qcompare x y with Lt => true | _ => false end
  | NegInf, NegInf => false
  | NegInf, _ => true
  | _, NegInf => false
  | PosInf, _ => false
  | Fin _, PosInf => true
  end.

(** [Math.max] and [Math.min] of two arguments. *)
Definition max2 (a b : number) : number :=
  match a, b with
  | NaN, _ | _, NaN => NaN
  | _, _ => if ltb a b then b else a
  end.

Definition min2 (a b : number) : number :=
  match a, b with
  | NaN, _ | _, NaN => NaN
  | _, _ => if ltb b a then b else a
  end.

(** [Math.max(...xs)]: -Infinity for no argument. *)
Definition Math_max (xs : list number) : number := foldr max2 NegInf xs.

(** [ToBoolean] of a number: 0 and [NaN] are falsy. *)
Definition truthy (a : number) : bool :=
  match a with
  | Fin x => negb (is_zero x)
  | PosInf | NegInf => true
  | NaN => false
  end.

(** [v || 0] where [v] is a property read ([None] is [undefined]). *)
Definition or_zero (v : option number) : number :=
  match v with
  | Some a => if truthy a then a else Fin 0%Q
  | None => Fin 0%Q
  end.

Definition is_finite (a : number) : bool :=
  match a with Fin _ => true | _ => false end.

(** Equality of numbers as values (fractions up to [Qeq]); [NaN] is
    related to itself here, this is not JavaScript's [===]. *)
Definition same (a b : number) : Prop :=
  match a, b with
  | Fin x, Fin y => (x == y)%Q
  | PosInf, PosInf | NegInf, NegInf | NaN, NaN => True
  | _, _ => False
  end.

End JsNumber.

(** ** Decimal text of numbers: [toFixed(1)] and [parseFloat] *)

Module Decimal10.
Import JsNumber.

Definition is_digit (c : ascii) : bool :=
  ((48 <=? nat_of_ascii c) && (nat_of_ascii c <=? 57))%nat.

Definition digit_value (c : ascii) : Z := (Z.of_nat (nat_of_ascii c) - 48)%Z.

Definition digit_char (d : Z) : ascii := ascii_of_nat (48 + Z.to_nat d).

Arguments digit_char : simpl never.
Arguments digit_value : simpl never.

(** The decimal digits of [n >= 0], most significant first, pushed in
    front of [acc]. *)
Fixpoint to_digits_loop (fuel : nat) (n : Z) (acc : string) : string :=
  match fuel with
  | O => acc
  | S fuel' =>
      let acc' := String (digit_char (n mod 10)%Z) acc in
      if (n <? 10)%Z then acc' else to_digits_loop fuel' (n / 10)%Z acc'
  end.

Definition to_digits (n : Z) : string :=
  to_digits_loop (S (Z.to_nat (Z.log2 n))) n "".

(** Reads the longest run of digits at the head of [s]: its value on
    top of [acc], the number of digits read, and the rest. *)
Fixpoint read_digits (acc : Z) (count : nat) (s : string)
  : Z * nat * string :=
  match s with
  | String c s' =>
      if is_digit c
      then read_digits (acc * 10 + digit_value c)%Z (S count) s'
      else (acc, count, s)
  | EmptyString => (acc, count, s)
  end.

Definition ten_to_21 : Q := inject_Z (10 ^ 21)%Z.

(** [x.toFixed(1)].  For a finite [x] below 10^21 in magnitude this is
    the sign, the integer [n] nearest to 10|x| (the larger one on a
    tie) written with a point before its last digit.  From 10^21 on
    the engine switches to its exponent notation, which is produced
    from the binary64 digits of the value; that text is the parameter
    [exponential]. *)
Definition toFixed1 (exponential : Q -> string) (a : number) : string :=
  match a with
  | NaN => "NaN"
  | PosInf => "Infinity"
  | NegInf => "-Infinity"
  | Fin x =>
      let s := if is_neg x then "-" else "" in
      let x := Qabs x in
      if Qle_bool ten_to_21 x then s +:+ exponential x
      else
        let n := Qfloor (x * inject_Z 10 + (1 # 2))%Q in
        s +:+ to_digits (n / 10)%Z +:+ "."
          +:+ String (digit_char (n mod 10)%Z) ""
  end.

(** The integer that [toFixed(1)] prints, in tenths. *)
Definition tenths (x : Q) : Z := Qfloor (Qabs x * inject_Z 10 + (1 # 2))%Q.

Arguments tenths : simpl never.

(** White space and line terminators below U+0100. *)
Definition is_space (c : ascii) : bool :=
  let n := nat_of_ascii c in
  ((9 <=? n) && (n <=? 13) || (n =? 32) || (n =? 160))%nat.

Fixpoint trimStart (s : string) : string :=
  match s with
  | String a s' => if is_space a then trimStart s' else s
  | EmptyString => ""
  end.

Fixpoint trimEnd (s : string) : string :=
  match s with
  | String a s' =>
      match trimEnd s' with
      | EmptyString => if is_space a then "" else String a ""
      | t => String a t
      end
  | EmptyString => ""
  end.

(** [s.trim()] *)
Definition trim (s : string) : string := trimEnd (trimStart s).

(** The unsigned part of a decimal literal without exponent: digits,
    and an optional point with digits; [None] when there is no digit
    at all. *)
Definition parse_magnitude (s : string) : option Q :=
  let '(int, ni, s) := read_digits 0%Z 0%nat s in
  let '(frac, nf) :=
    match s with
    | String a s' =>
        if Ascii.eqb a "."
        then let '(f, nf, _) := read_digits 0%Z 0%nat s' in (f, nf)
        else (0%Z, 0%nat)
    | EmptyString => (0%Z, 0%nat)
    end in
  if ((ni =? 0) && (nf =? 0))%nat then None
  else Some (inject_Z int + inject_Z frac / inject_Z (10 ^ Z.of_nat nf)%Z)%Q.

Definition signed (negative : bool) (m : option Q) : number :=
  match m with
  | Some q => Fin (if negative then (- q)%Q else q)
  | None => NaN
  end.

(** The sign [parseFloat] reads off a sign text. *)
Definition is_minus (sgn : string) : bool :=
  match sgn with String a _ => Ascii.eqb a "-" | EmptyString => false end.

(** [parseFloat(s)] on decimal literals without exponent part: leading
    white space, an optional sign and the magnitude; [NaN] when no
    digit is found.  Texts captured by the field pattern of
    [processCommand] contain nothing else. *)
Definition parseFloat (s : string) : number :=
  match trimStart s with
  | String a s' =>
      if Ascii.eqb a "-" then signed true (parse_magnitude s')
      else if Ascii.eqb a "+" then signed false (parse_magnitude s')
      else signed false (parse_magnitude (String a s'))
  | EmptyString => NaN
  end.

(** The value of a run of digits read on top of [acc]. *)
Fixpoint digits_value (acc : Z) (ds : string) : Z :=
  match ds with
  | String c ds' => digits_value (acc * 10 + digit_value c)%Z ds'
  | EmptyString => acc
  end.

Fixpoint all_digits (s : string) : bool :=
  match s with
  | String c s' => is_digit c && all_digits s'
  | EmptyString => true
  end.

End Decimal10.

(** ** The field pattern [/L([-+]?\d*\.?\d+)/] and [String.prototype.match] *)

Module Regex.
Import Decimal10.

Inductive class : Type :=
| Lit (c : ascii)      (* the character itself *)
| Sign                 (* [-+] *)
| Digit                (* \d *)
| Dot.                 (* \. *)

Inductive quantifier : Type :=
| Once
| Optional             (* ? *)
| Star                 (* * *)
| Plus.                (* + *)

Definition pattern : Type := list (class * quantifier).

Definition accepts (k : class) (a : ascii) : bool :=
  match k with
  | Lit c => Ascii.eqb a c
  | Sign => Ascii.eqb a "-" || Ascii.eqb a "+"
  | Digit => is_digit a
  | Dot => Ascii.eqb a "."
  end.

(** Greedy repetition with backtracking: take as many characters of the
    class as possible, give one back each time the continuation [k]
    fails. *)
Fixpoint greedy (c : class) (k : string -> option string) (s : string)
  : option string :=
  match s with
  | String a s' =>
      if accepts c a
      then match greedy c k s' with
           | Some rest => Some rest
           | None => k s
           end
      else k s
  | EmptyString => k s
  end.

(** Matches [p] at the head of [s]; the result is the text left after
    the match. *)
Fixpoint match_here (p : pattern) : string -> option string :=
  match p with
  | [] => fun s => Some s
  | (c, q) :: p' =>
      let k := match_here p' in
      match q with
      | Once => fun s =>
          match s with
          | String a s' => if accepts c a then k s' else None
          | EmptyString => None
          end
      | Optional => fun s =>
          match s with
          | String a s' =>
              if accepts c a
              then match k s' with Some rest => Some rest | None => k s end
              else k s
          | EmptyString => k s
          end
      | Star => greedy c k
      | Plus => fun s =>
          match s with
          | String a s' => if accepts c a then greedy c k s' else None
          | EmptyString => None
          end
      end
  end.

(** The group [([-+]?\d*\.?\d+)]. *)
Definition number_group : pattern :=
  [(Sign, Optional); (Digit, Star); (Dot, Optional); (Digit, Plus)].

(** The pattern at one position: the letter, then the group; the
    result is the text captured by the group. *)
Definition match_at (letter : ascii) (s : string) : option string :=
  match s with
  | String a s' =>
      if Ascii.eqb a letter
      then match match_here number_group s' with
           | Some rest =>
               Some (String.substring 0 (String.length s' - String.length rest) s')
           | None => None
           end
      else None
  | EmptyString => None
  end.

(** [s.match(/L(...)/)]: the leftmost position where the pattern
    matches; [Some capture] is [m[1]], [None] is [null]. *)
Fixpoint field_match (letter : ascii) (s : string) : option string :=
  match match_at letter s with
  | Some capture => Some capture
  | None =>
      match s with
      | String _ s' => field_match letter s'
      | EmptyString => None
      end
  end.

(** The group after its optional sign. *)
Definition after_sign : pattern :=
  [(Digit, Star); (Dot, Optional); (Digit, Plus)].

(** The text is empty or starts with a character outside the class. *)
Definition head_rejects (c : class) (t : string) : Prop :=
  match t with
  | String a _ => accepts c a = false
  | EmptyString => True
  end.

(** The texts the group can capture, and the texts after which it
    cannot go on; used to state what [field_match] finds. *)
Definition sign_text (s : string) : Prop := s = "" \/ s = "-" \/ s = "+".

Inductive numeral : string -> Prop :=
| numeral_int (sgn ds : string) :
    sign_text sgn -> all_digits ds = true -> ds <> "" ->
    numeral (sgn +:+ ds)
| numeral_frac (sgn ds fs : string) :
    sign_text sgn -> all_digits ds = true ->
    all_digits fs = true -> fs <> "" ->
    numeral (sgn +:+ ds +:+ "." +:+ fs).

(** The text is empty or starts with a character that is neither a
    digit nor a point. *)
Definition stops (rest : string) : bool :=
  match rest with
  | String c _ => negb (is_digit c) && negb (Ascii.eqb c ".")
  | EmptyString => true
  end.


(** The text starts with digits, or with a point and a digit. *)
Definition starts_digits (t : string) : bool :=
  match t with
  | String a t' =>
      is_digit a
      || (Ascii.eqb a "."
          && match t' with
             | String b _ => is_digit b
             | EmptyString => false
             end)
  | EmptyString => false
  end.

(** The text starts with a number: after an optional sign come digits,
    or a point and a digit. *)
Definition starts_number (t : string) : bool :=
  match t with
  | String a t' => if accepts Sign a then starts_digits t' else starts_digits t
  | EmptyString => false
  end.

Fixpoint has_point (v : string) : bool :=
  match v with
  | String a v' => Ascii.eqb a "." || has_point v'
  | EmptyString => false
  end.

(** The number [v] ends where [rest] begins: [rest] does not go on with
    a digit, nor, when [v] has no point yet, with a point and a
    digit. *)
Definition ends_number (v rest : string) : bool :=
  match rest with
  | String a rest' =>
      negb (is_digit a)
      && (negb (Ascii.eqb a ".") || has_point v
          || match rest' with
             | String b _ => negb (is_digit b)
             | EmptyString => true
             end)
  | EmptyString => true
  end.

End Regex.

(** ** Joint states and the wire format *)

Abbreviation JointState := (gmap string JsNumber.number).

Module Codec.
Import JsNumber Decimal10 Regex.

Definition jointNames : list string :=
  ["theta1"; "theta2"; "theta3"; "theta4"; "theta5"; "theta6"].

(** The field letter of each joint. *)
Definition axes : list (ascii * string) :=
  [("X"%char, "theta1"); ("Y"%char, "theta2"); ("Z"%char, "theta3");
   ("W"%char, "theta4"); ("U"%char, "theta5"); ("V"%char, "theta6")].

(** [(deg * Math.PI) / 180] *)
Definition degToRad (deg : number) : number :=
  div (mul deg Math_PI) (of_Z 180).

(** [(rad * 180) / Math.PI] *)
Definition radToDeg (rad : number) : number :=
  div (mul rad (of_Z 180)) Math_PI.

(** [if (m) newJointStates[joint] = degToRad(parseFloat(m[1]))] *)
Definition assign_field (m : option string) (joint : string)
    (newJointStates : JointState) : JointState :=
  match m with
  | Some capture => <[joint := degToRad (parseFloat capture)]> newJointStates
  | None => newJointStates
  end.

(** The body of the [try] of [processCommand] up to the decision to
    move: the sparse target and the feed rate read from a line that
    starts with G06. *)
Definition parse_G06 (trimmedCommand : string) : JointState * number :=
  let xMatch := field_match "X" trimmedCommand in
  let yMatch := field_match "Y" trimmedCommand in
  let zMatch := field_match "Z" trimmedCommand in
  let wMatch := field_match "W" trimmedCommand in
  let uMatch := field_match "U" trimmedCommand in
  let vMatch := field_match "V" trimmedCommand in
  let fMatch := field_match "F" trimmedCommand in
  let newJointStates :=
    assign_field vMatch "theta6"
      (assign_field uMatch "theta5"
        (assign_field wMatch "theta4"
          (assign_field zMatch "theta3"
            (assign_field yMatch "theta2"
              (assign_field xMatch "theta1" ∅))))) in
  let feedRate :=
    match fMatch with
    | Some capture => parseFloat capture
    | None => of_Z 500
    end in
  (newJointStates, feedRate).

(** What [processCommand] makes of a received line: nothing (blank
    line, no G06 prefix, or no field found), or a motion handed to
    [smoothMoveTo]. *)
Inductive decoded : Type :=
| Ignored
| Motion (targetStates : JointState) (feedRate : number).

Definition decode (command : string) : decoded :=
  let trimmedCommand := trim command in
  match trimmedCommand with
  | EmptyString => Ignored
  | _ =>
      if String.prefix "G06" trimmedCommand
      then
        let '(newJointStates, feedRate) := parse_G06 trimmedCommand in
        if (0 <? size newJointStates)%nat
        then Motion newJointStates feedRate
        else Ignored
      else Ignored
  end.

(** [`G06 X${x} Y${y} Z${z} W${w} U${u} V${v} F500\n`] *)
Definition command_text (x y z w u v : string) : string :=
  "G06 X" +:+ x +:+ " Y" +:+ y +:+ " Z" +:+ z +:+ " W" +:+ w
  +:+ " U" +:+ u +:+ " V" +:+ v +:+ " F500" +:+ String JsString.newline "".

(** The same line as [processCommand] sees it, trimmed. *)
Definition command_body (x y z w u v : string) : string :=
  "G06 X" +:+ x +:+ " Y" +:+ y +:+ " Z" +:+ z +:+ " W" +:+ w
  +:+ " U" +:+ u +:+ " V" +:+ v +:+ " F500".

(** A field text that is a number and contains no letter or blank. *)
Definition plain (t : string) : Prop :=
  numeral t
  /\ forall c, accepts Sign c = false -> is_digit c = false ->
               accepts Dot c = false -> ~ JsString.occurs c t.

Section Encode.
(** The engine's exponent notation for magnitudes from 10^21 on. *)
Variable exponential : Q -> string.

(** [radToDeg(jointStates.thetaN || 0).toFixed(1)] *)
Definition field_text (jointStates : JointState) (joint : string) : string :=
  toFixed1 exponential (radToDeg (or_zero (jointStates !! joint))).

(** The template literal of [sendJointStates]. *)
Definition encode (jointStates : JointState) : string :=
  command_text
    (field_text jointStates "theta1") (field_text jointStates "theta2")
    (field_text jointStates "theta3") (field_text jointStates "theta4")
    (field_text jointStates "theta5") (field_text jointStates "theta6").
End Encode.

End Codec.

(** ** The wire codec over binary64

    [spec_float] of the Standard Library is the IEEE 754 value with its
    correctly rounded operations; the precision is 53 bits and
    infinities have exponent 1024.  [Math.PI] is
    0x1.921fb54442d18p+1.  The text and the pattern are those of
    [Decimal10] and [Regex]; [parseFloat] rounds the decimal it reads
    to the nearest value, ties to even, and [toFixed(1)] prints the
    exact value of its argument. *)

Module Binary64.
Import Decimal10 Regex.

Definition prec : Z := 53.
Definition emax : Z := 1024.

Definition mul : spec_float -> spec_float -> spec_float := SFmul prec emax.
Definition div : spec_float -> spec_float -> spec_float := SFdiv prec emax.

(** An integer literal. *)
Definition of_Z (z : Z) : spec_float := binary_normalize prec emax z 0 false.

Definition Math_PI : spec_float := S754_finite false 7074237752028440 (-51).

(** [(deg * Math.PI) / 180] *)
Definition degToRad (deg : spec_float) : spec_float :=
  div (mul deg Math_PI) (of_Z 180).

(** [(rad * 180) / Math.PI] *)
Definition radToDeg (rad : spec_float) : spec_float :=
  div (mul rad (of_Z 180)) Math_PI.

(** [ToBoolean] of a number: both zeros and [NaN] are falsy. *)
Definition truthy (a : spec_float) : bool :=
  match a with
  | S754_zero _ | S754_nan => false
  | _ => true
  end.

(** [v || 0] where [v] is a property read ([None] is [undefined]). *)
Definition or_zero (v : option spec_float) : spec_float :=
  match v with
  | Some a => if truthy a then a else S754_zero false
  | None => S754_zero false
  end.

(** The exact value of a binary64 number. *)
Definition value (a : spec_float) : JsNumber.number :=
  match a with
  | S754_zero _ => JsNumber.Fin 0
  | S754_infinity s => if s then JsNumber.NegInf else JsNumber.PosInf
  | S754_nan => JsNumber.NaN
  | S754_finite s m e =>
      let q := match e with
               | Zneg p => (Zpos m # 2 ^ p)%Q
               | _ => inject_Z (Zpos m * 2 ^ e)
               end in
      JsNumber.Fin (if s then (- q)%Q else q)
  end.

(** The binary64 value nearest to the fraction [q >= 0], ties to even,
    with the given sign. *)
Definition nearest (negative : bool) (q : Q) : spec_float :=
  match Qnum q with
  | Zpos n =>
      SFdiv prec emax (S754_finite negative n 0)
        (S754_finite false (Qden q) 0)
  | _ => S754_zero negative
  end.

Definition signed (negative : bool) (m : option Q) : spec_float :=
  match m with
  | Some q => nearest negative q
  | None => S754_nan
  end.

(** [parseFloat(s)] on decimal literals without exponent part. *)
Definition parseFloat (s : string) : spec_float :=
  match trimStart s with
  | String a s' =>
      if Ascii.eqb a "-" then signed true (parse_magnitude s')
      else if Ascii.eqb a "+" then signed false (parse_magnitude s')
      else signed false (parse_magnitude (String a s'))
  | EmptyString => S754_nan
  end.

(** [x.toFixed(1)] *)
Definition toFixed1 (exponential : Q -> string) (a : spec_float) : string :=
  Decimal10.toFixed1 exponential (value a).

(** [if (m) newJointStates[joint] = degToRad(parseFloat(m[1]))] *)
Definition assign_field (m : option string) (joint : string)
    (newJointStates : gmap string spec_float) : gmap string spec_float :=
  match m with
  | Some capture => <[joint := degToRad (parseFloat capture)]> newJointStates
  | None => newJointStates
  end.

(** The target and the feed rate read from a line that starts with
    G06. *)
Definition parse_G06 (trimmedCommand : string)
    : gmap string spec_float * spec_float :=
  let xMatch := field_match "X" trimmedCommand in
  let yMatch := field_match "Y" trimmedCommand in
  let zMatch := field_match "Z" trimmedCommand in
  let wMatch := field_match "W" trimmedCommand in
  let uMatch := field_match "U" trimmedCommand in
  let vMatch := field_match "V" trimmedCommand in
  let fMatch := field_match "F" trimmedCommand in
  let newJointStates :=
    assign_field vMatch "theta6"
      (assign_field uMatch "theta5"
        (assign_field wMatch "theta4"
          (assign_field zMatch "theta3"
            (assign_field yMatch "theta2"
              (assign_field xMatch "theta1" ∅))))) in
  let feedRate :=
    match fMatch with
    | Some capture => parseFloat capture
    | None => of_Z 500
    end in
  (newJointStates, feedRate).

Inductive decoded : Type :=
| Ignored
| Motion (targetStates : gmap string spec_float) (feedRate : spec_float).

(** What [processCommand] makes of a received line. *)
Definition decode (command : string) : decoded :=
  let trimmedCommand := trim command in
  match trimmedCommand with
  | EmptyString => Ignored
  | _ =>
      if String.prefix "G06" trimmedCommand
      then
        let '(newJointStates, feedRate) := parse_G06 trimmedCommand in
        if (0 <? size newJointStates)%nat
        then Motion newJointStates feedRate
        else Ignored
      else Ignored
  end.

Section Encode.
Variable exponential : Q -> string.

(** [radToDeg(jointStates.thetaN || 0).toFixed(1)] *)
Definition field_text (jointStates : gmap string spec_float) (joint : string)
    : string :=
  toFixed1 exponential (radToDeg (or_zero (jointStates !! joint))).

(** The template literal of [sendJointStates]. *)
Definition encode (jointStates : gmap string spec_float) : string :=
  Codec.command_text
    (field_text jointStates "theta1") (field_text jointStates "theta2")
    (field_text jointStates "theta3") (field_text jointStates "theta4")
    (field_text jointStates "theta5") (field_text jointStates "theta6").
End Encode.

(** The angle that a field reading [k] tenths of a degree decodes
    to. *)
Definition angle_of_tenths (k : Z) : spec_float :=
  degToRad (nearest (k <? 0)%Z (Qabs (k # 10))).

(** Equality of binary64 values as data: the two zeros differ. *)
Definition identical (a b : spec_float) : bool :=
  match a, b with
  | S754_zero s, S754_zero t => Bool.eqb s t
  | S754_infinity s, S754_infinity t => Bool.eqb s t
  | S754_nan, S754_nan => true
  | S754_finite s m e, S754_finite t n f =>
      Bool.eqb s t && Pos.eqb m n && Z.eqb e f
  | _, _ => false
  end.

(** The degrees of the angle print in fixed notation, and the field
    written for the angle reads back as the same angle. *)
Definition reads_back (a : spec_float) : bool :=
  match value (radToDeg (or_zero (Some a))) with
  | JsNumber.Fin x =>
      negb (Qle_bool ten_to_21 (Qabs x))
      && identical
           (degToRad (parseFloat (Decimal10.toFixed1 (fun _ => "") (JsNumber.Fin x))))
           a
  | _ => false
  end.

(** The angle is, to within 10^-14 rad, the exact conversion of [k]
    tenths of a degree: (k/10) * Math.PI / 180 in fractions. *)
Definition converts_tenths (k : Z) (a : spec_float) : bool :=
  match value a with
  | JsNumber.Fin r =>
      Qle_bool (Qabs (r - (k # 10) * JsNumber.PI / inject_Z 180)) (1 # 10 ^ 14)
  | _ => false
  end.

(** What is checked of the angle of [k] tenths of a degree. *)
Definition on_grid (k : Z) : bool :=
  reads_back (angle_of_tenths k) && converts_tenths k (angle_of_tenths k).

(** The degrees of the angle ([0] for an absent or zero one) are finite
    and print in fixed notation. *)
Definition prints_fixed (v : option spec_float) : Prop :=
  match value (radToDeg (or_zero v)) with
  | JsNumber.Fin x => (Qabs x < ten_to_21)%Q
  | _ => False
  end.

End Binary64.

(** ** The [SerialConnection] component

    The component is a function that React calls once per render.  Each
    call binds [port], [isConnected], [reader], [writer], [isMoving]
    (from [useState]) and the props [jointStates], [onDataReceived] as
    constants, and creates the functions [connectToSerial],
    [readSerialData], [processCommand], [smoothMoveTo],
    [sendOkResponse], [disconnectSerial], [sendJointStates] as closures
    over those constants.  A setter changes the cell that the next render
    will read; it does not change a constant already bound.

    The buttons call the functions of the latest render.  The read loop
    is started by [connectToSerial] and runs until the reader is
    cancelled, so the [processCommand], [smoothMoveTo], [animate] and
    [sendOkResponse] it reaches are those of the render in which Connect
    was clicked. *)

Module Component.
Import JsNumber Codec.

Definition handle : Type := nat.

(** The entries of the activity log; their text (time stamp and
    message) is not modelled. *)
Inductive LogEntry : Type :=
| LogUnsupported
| LogConnected
| LogConnectionFailed
| LogReceived (trimmedCommand : string)
| LogMovingTo (feedRate : number)
| LogMovementDuration (duration maxAngleDiffDeg feedRate : number)
| LogMovementCompleted
| LogReadError
| LogDisconnected
| LogDisconnectError
| LogSentOk
| LogSendError
| LogNotConnected
| LogSent (command : string).

(** Calls made on the Web Serial objects, in the order they were made;
    [ok] tells whether the promise resolved. *)
Inductive SerialCall : Type :=
| ReaderCancel (h : handle) (ok : bool)
| WriterClose (h : handle) (ok : bool)
| PortClose (h : handle) (ok : bool)
| WriterWrite (h : handle) (text : string) (ok : bool).

(** The [useState] cells of the component. *)
Record Cells : Type := {
  port : option handle;
  isConnected : bool;
  isConnecting : bool;
  reader : option handle;
  writer : option handle;
  log : list LogEntry;
  isMoving : bool;
  isWebSerialSupported : bool;
}.

(** The constants of one render: the cells as read by that render and
    the props passed by [Home]. *)
Record Scope : Type := {
  bound : Cells;
  jointStates : JointState;
  onDataReceived : bool;   (* the optional prop is present *)
}.

(** The closure of one [animate], created by a call of
    [smoothMoveTo]. *)
Record Animation : Type := {
  scope : Scope;
  targetStates : JointState;
  startStates : JointState;
  startTime : Z;
  duration : number;
}.

(** A running [readSerialData]: its reader, the closures it calls and
    its local [buffer]. *)
Record ReadLoop : Type := {
  loop_reader : handle;
  loop_scope : Scope;
  buffer : string;
}.

Record World : Type := {
  cells : Cells;
  home_jointStates : JointState;      (* the cell of [Home] *)
  loops : list ReadLoop;
  frames : list Animation;            (* requestAnimationFrame queue *)
  timers : list (Z * Scope);          (* setTimeout: due time, closure *)
  calls : list SerialCall;
  next_handle : handle;
  now : Z;                            (* Date.now() *)
}.

Definition set_cells (f : Cells -> Cells) (w : World) : World :=
  {| cells := f (cells w); home_jointStates := home_jointStates w;
     loops := loops w; frames := frames w; timers := timers w;
     calls := calls w; next_handle := next_handle w; now := now w |}.

Definition setPort (v : option handle) : World -> World :=
  set_cells (fun c =>
    {| port := v; isConnected := isConnected c;
       isConnecting := isConnecting c; reader := reader c;
       writer := writer c; log := log c; isMoving := isMoving c;
       isWebSerialSupported := isWebSerialSupported c |}).

Definition setIsConnected (v : bool) : World -> World :=
  set_cells (fun c =>
    {| port := port c; isConnected := v;
       isConnecting := isConnecting c; reader := reader c;
       writer := writer c; log := log c; isMoving := isMoving c;
       isWebSerialSupported := isWebSerialSupported c |}).

Definition setIsConnecting (v : bool) : World -> World :=
  set_cells (fun c =>
    {| port := port c; isConnected := isConnected c;
       isConnecting := v; reader := reader c;
       writer := writer c; log := log c; isMoving := isMoving c;
       isWebSerialSupported := isWebSerialSupported c |}).

Definition setReader (v : option handle) : World -> World :=
  set_cells (fun c =>
    {| port := port c; isConnected := isConnected c;
       isConnecting := isConnecting c; reader := v;
       writer := writer c; log := log c; isMoving := isMoving c;
       isWebSerialSupported := isWebSerialSupported c |}).

Definition setWriter (v : option handle) : World -> World :=
  set_cells (fun c =>
    {| port := port c; isConnected := isConnected c;
       isConnecting := isConnecting c; reader := reader c;
       writer := v; log := log c; isMoving := isMoving c;
       isWebSerialSupported := isWebSerialSupported c |}).

Definition setIsMoving (v : bool) : World -> World :=
  set_cells (fun c =>
    {| port := port c; isConnected := isConnected c;
       isConnecting := isConnecting c; reader := reader c;
       writer := writer c; log := log c; isMoving := v;
       isWebSerialSupported := isWebSerialSupported c |}).

(** [prev.slice(-9)] *)
Definition last_nine (l : list LogEntry) : list LogEntry :=
  drop (length l - 9) l.

(** [setLog(prev => [...prev.slice(-9), entry])] *)
Definition addToLog (entry : LogEntry) : World -> World :=
  set_cells (fun c =>
    {| port := port c; isConnected := isConnected c;
       isConnecting := isConnecting c; reader := reader c;
       writer := writer c; log := last_nine (log c) ++ [entry];
       isMoving := isMoving c;
       isWebSerialSupported := isWebSerialSupported c |}).

(** [handleSerialDataReceived] of [Home]:
    [setJointStates(prev => ({...prev, ...newJointStates}))]. *)
Definition handleSerialDataReceived (newJointStates : JointState)
    (w : World) : World :=
  {| cells := cells w;
     home_jointStates := newJointStates ∪ home_jointStates w;
     loops := loops w; frames := frames w; timers := timers w;
     calls := calls w; next_handle := next_handle w; now := now w |}.

Definition requestAnimationFrame (a : Animation) (w : World) : World :=
  {| cells := cells w; home_jointStates := home_jointStates w;
     loops := loops w; frames := frames w ++ [a]; timers := timers w;
     calls := calls w; next_handle := next_handle w; now := now w |}.

Definition setTimeout (callback : Scope) (delay : Z) (w : World) : World :=
  {| cells := cells w; home_jointStates := home_jointStates w;
     loops := loops w; frames := frames w;
     timers := timers w ++ [((now w + delay)%Z, callback)];
     calls := calls w; next_handle := next_handle w; now := now w |}.

Definition record_call (c : SerialCall) (w : World) : World :=
  {| cells := cells w; home_jointStates := home_jointStates w;
     loops := loops w; frames := frames w; timers := timers w;
     calls := calls w ++ [c]; next_handle := next_handle w; now := now w |}.

(** The render that reads the cells as they are now. *)
Definition render (w : World) : Scope :=
  {| bound := cells w; jointStates := home_jointStates w;
     onDataReceived := true |}.

(** [sendOkResponse], called by the timer; [write_ok] is the outcome of
    [writer.write]. *)
Definition sendOkResponse (sc : Scope) (write_ok : bool) (w : World) : World :=
  match writer (bound sc), isConnected (bound sc) with
  | Some h, true =>
      let w := record_call (WriterWrite h ("Ok" +:+ String JsString.newline "") write_ok) w in
      if write_ok then addToLog LogSentOk w else addToLog LogSendError w
  | _, _ => w
  end.

(** The angle of [joint] in degrees between start and target, as
    computed under [Math.max] in [smoothMoveTo]. *)
Definition angleDiffDeg (startStates targetStates : JointState)
    (joint : string) : number :=
  let startRad := or_zero (startStates !! joint) in
  let targetRad := or_zero (targetStates !! joint) in
  Math_abs (div (mul (sub targetRad startRad) (of_Z 180)) Math_PI).

(** [Object.keys(o)] *)
Definition keys (o : JointState) : list string := (map_to_list o).*1.

(** [Math.min(elapsed / duration, 1)] at time [t]. *)
Definition progress_at (a : Animation) (t : Z) : number :=
  let elapsed := of_Z (t - startTime a) in
  min2 (div elapsed (duration a)) (of_Z 1).

(** The object built by the [forEach] over the keys of the target. *)
Definition currentStates_at (a : Animation) (progress : number) : JointState :=
  map_imap (fun joint _ =>
    let start := or_zero (startStates a !! joint) in
    let target := or_zero (targetStates a !! joint) in
    Some (add start (mul (sub target start) progress)))
    (targetStates a).

(** One call of [animate]. *)
Definition animate (a : Animation) (w : World) : World :=
  let progress := progress_at a (now w) in
  let currentStates := currentStates_at a progress in
  let w := handleSerialDataReceived currentStates w in
  if ltb progress (of_Z 1)
  then requestAnimationFrame a w
  else
    let w := setIsMoving false w in
    let w := addToLog LogMovementCompleted w in
    setTimeout (scope a) 50 w.

Definition smoothMoveTo (sc : Scope) (targetStates : JointState)
    (feedRate : number) (w : World) : World :=
  if isMoving (bound sc) || negb (onDataReceived sc) then w
  else
    let w := setIsMoving true w in
    let startStates := jointStates sc in
    let startTime := now w in
    let maxAngleDiffDeg :=
      Math_max (angleDiffDeg startStates targetStates <$> keys targetStates) in
    let durationMinutes := div maxAngleDiffDeg feedRate in
    let duration :=
      max2 (of_Z 100) (mul (mul durationMinutes (of_Z 60)) (of_Z 1000)) in
    let w := addToLog (LogMovementDuration duration maxAngleDiffDeg feedRate) w in
    requestAnimationFrame
      {| scope := sc; targetStates := targetStates;
         startStates := startStates; startTime := startTime;
         duration := duration |} w.

Definition processCommand (sc : Scope) (command : string) (w : World) : World :=
  let trimmedCommand := Decimal10.trim command in
  match trimmedCommand with
  | EmptyString => w
  | _ =>
      let w := addToLog (LogReceived trimmedCommand) w in
      if String.prefix "G06" trimmedCommand
      then
        let '(newJointStates, feedRate) := parse_G06 trimmedCommand in
        if (0 <? size newJointStates)%nat
        then smoothMoveTo sc newJointStates feedRate
               (addToLog (LogMovingTo feedRate) w)
        else w
      else w
  end.

(** One turn of the outer loop of [readSerialData]: a chunk arrives,
    the complete lines are processed in order. *)
Definition on_read (l : ReadLoop) (value : string) (w : World)
  : ReadLoop * World :=
  let '(commands, buffer') := LineReader.on_chunk (buffer l) value in
  ({| loop_reader := loop_reader l; loop_scope := loop_scope l;
      buffer := buffer' |},
   foldl (fun w command => processCommand (loop_scope l) command w)
     w commands).

Definition set_loops (ls : list ReadLoop) (w : World) : World :=
  {| cells := cells w; home_jointStates := home_jointStates w;
     loops := ls; frames := frames w; timers := timers w;
     calls := calls w; next_handle := next_handle w; now := now w |}.

Definition fresh_handle (w : World) : handle * World :=
  (next_handle w,
   {| cells := cells w; home_jointStates := home_jointStates w;
      loops := loops w; frames := frames w; timers := timers w;
      calls := calls w; next_handle := S (next_handle w); now := now w |}).

(** [connectToSerial]; [opened] tells whether [requestPort] and [open]
    resolved. *)
Definition connectToSerial (sc : Scope) (opened : bool) (w : World) : World :=
  if negb (isWebSerialSupported (bound sc)) then addToLog LogUnsupported w
  else
    let w := setIsConnecting true w in
    let w :=
      if opened then
        let '(selectedPort, w) := fresh_handle w in
        let w := setPort (Some selectedPort) w in
        let w := setIsConnected true w in
        let w := addToLog LogConnected w in
        let w := setReader (Some selectedPort) w in
        let w := setWriter (Some selectedPort) w in
        set_loops (loops w ++ [{| loop_reader := selectedPort;
                                  loop_scope := sc; buffer := "" |}]) w
      else addToLog LogConnectionFailed w in
    setIsConnecting false w.

(** The read loop whose reader is cancelled sees [done] and exits. *)
Definition end_loop (h : handle) (w : World) : World :=
  set_loops (filter (fun l => loop_reader l ≠ h) (loops w)) w.

(** One guarded release of [disconnectSerial]:
    [if (target) { await target.release(); setTarget(null); }].
    Returns the world after the attempt and whether the [try] block
    goes on ([false]: the promise rejected). *)
Definition release (target : option handle)
    (call : handle -> bool -> SerialCall) (ok : bool)
    (clear : handle -> World -> World) (w : World) : World * bool :=
  match target with
  | Some h =>
      let w := record_call (call h ok) w in
      if ok then (clear h w, true) else (w, false)
  | None => (w, true)
  end.

(** [disconnectSerial]; the three booleans tell whether
    [reader.cancel()], [writer.close()] and [port.close()] resolve.
    A rejection leaves the [try] block for the [catch]. *)
Definition disconnectSerial (sc : Scope)
    (cancel_ok writer_close_ok port_close_ok : bool) (w : World) : World :=
  let catch := addToLog LogDisconnectError in
  let '(w, continue) :=
    release (reader (bound sc)) ReaderCancel cancel_ok
      (fun h w => setReader None (end_loop h w)) w in
  if negb continue then catch w else
  let '(w, continue) :=
    release (writer (bound sc)) WriterClose writer_close_ok
      (fun _ => setWriter None) w in
  if negb continue then catch w else
  let '(w, continue) :=
    release (port (bound sc)) PortClose port_close_ok
      (fun _ => setPort None) w in
  if negb continue then catch w else
  let w := setIsConnected false w in
  addToLog LogDisconnected w.

Section Send.
Variable exponential : Q -> string.

(** [sendJointStates]; [write_ok] is the outcome of [writer.write]. *)
Definition sendJointStates (sc : Scope) (write_ok : bool) (w : World) : World :=
  match writer (bound sc), isConnected (bound sc) with
  | Some h, true =>
      let command := encode exponential (jointStates sc) in
      let w := record_call (WriterWrite h command write_ok) w in
      if write_ok
      then addToLog (LogSent (Decimal10.trim command)) w
      else addToLog LogSendError w
  | _, _ => addToLog LogNotConnected w
  end.
End Send.

(** The call [disconnectSerial] makes for one resource, if it holds it. *)
Definition release_call (target : option handle)
    (call : handle -> bool -> SerialCall) (ok : bool) : list SerialCall :=
  match target with
  | Some h => [call h ok]
  | None => []
  end.

(** The release goes through: nothing to release, or the call
    resolves. *)
Definition released (target : option handle) (ok : bool) : bool :=
  match target with
  | Some _ => ok
  | None => true
  end.

(** *** What can happen to the component *)

Inductive Event : Type :=
| ClickConnect (opened : bool)
| ClickDisconnect (cancel_ok writer_close_ok port_close_ok : bool)
| Chunk (h : handle) (value : string)      (* [read()] of reader [h] resolves *)
| AnimationFrame                           (* the browser paints *)
| Elapse (ms : Z)                          (* time passes *)
| TimerFires (write_ok : bool).            (* the oldest due timeout runs *)

(** Delivers [value] to the loop that reads from [h], if it still
    runs. *)
Fixpoint deliver (h : handle) (value : string) (ls : list ReadLoop)
    (w : World) : list ReadLoop * World :=
  match ls with
  | [] => ([], w)
  | l :: ls' =>
      if decide (loop_reader l = h)
      then let '(l', w') := on_read l value w in (l' :: ls', w')
      else let '(ls'', w') := deliver h value ls' w in (l :: ls'', w')
  end.

Definition set_frames (fs : list Animation) (w : World) : World :=
  {| cells := cells w; home_jointStates := home_jointStates w;
     loops := loops w; frames := fs; timers := timers w;
     calls := calls w; next_handle := next_handle w; now := now w |}.

Definition set_timers (ts : list (Z * Scope)) (w : World) : World :=
  {| cells := cells w; home_jointStates := home_jointStates w;
     loops := loops w; frames := frames w; timers := ts;
     calls := calls w; next_handle := next_handle w; now := now w |}.

Definition set_now (t : Z) (w : World) : World :=
  {| cells := cells w; home_jointStates := home_jointStates w;
     loops := loops w; frames := frames w; timers := timers w;
     calls := calls w; next_handle := next_handle w; now := t |}.

Definition step (w : World) (e : Event) : World :=
  match e with
  | ClickConnect opened =>
      (* the Connect button is rendered only while [!isConnected] and
         is disabled while [isConnecting] *)
      if isConnected (cells w) || isConnecting (cells w) then w
      else connectToSerial (render w) opened w
  | ClickDisconnect cancel_ok writer_close_ok port_close_ok =>
      (* the Disconnect button replaces Connect while [isConnected] *)
      if isConnected (cells w)
      then disconnectSerial (render w) cancel_ok writer_close_ok port_close_ok w
      else w
  | Chunk h value =>
      let '(ls, w') := deliver h value (loops w) w in
      set_loops ls w'
  | AnimationFrame =>
      (* the callbacks queued for this frame run; those they queue are
         for the next frame *)
      foldl (fun w a => animate a w) (set_frames [] w) (frames w)
  | Elapse ms => set_now (now w + Z.max 0 ms)%Z w
  | TimerFires write_ok =>
      match timers w with
      | (due, sc) :: rest =>
          if (due <=? now w)%Z
          then sendOkResponse sc write_ok (set_timers rest w)
          else w
      | [] => w
      end
  end.

Definition run (w : World) (es : list Event) : World := foldl step w es.

(** The page as first rendered: [Home] holds all six joints at 0, the
    component is disconnected and idle. *)
Definition initial_jointStates : JointState :=
  list_to_map ((fun joint => (joint, Fin 0%Q)) <$> jointNames).

Definition initial : World :=
  {| cells := {| port := None; isConnected := false; isConnecting := false;
                 reader := None; writer := None; log := [];
                 isMoving := false; isWebSerialSupported := true |};
     home_jointStates := initial_jointStates;
     loops := []; frames := []; timers := []; calls := [];
     next_handle := 0%nat; now := 0%Z |}.

(** The acknowledgment lines written so far. *)
Definition is_ok_write (c : SerialCall) : bool :=
  match c with
  | WriterWrite _ text true => bool_decide (text = "Ok" +:+ String JsString.newline "")
  | _ => false
  end.

Definition acks (w : World) : list SerialCall := filter is_ok_write (calls w).

(** Every angle the object holds is a finite number. *)
Definition finite_state (s : JointState) : Prop :=
  map_Forall (fun _ a => is_finite a = true) s.

(** The completion entries still in the log. *)
Definition is_completion (e : LogEntry) : bool :=
  match e with LogMovementCompleted => true | _ => false end.

Definition completions (w : World) : nat :=
  length (filter is_completion (log (cells w))).

(** The closure saw the component disconnected when it was created. *)
Definition unconnected (sc : Scope) : Prop := isConnected (bound sc) = false.

(** Every closure that is still to run (read loops, animation callbacks,
    timeouts) was created by a render that saw the component
    disconnected, and no acknowledgment has been written. *)
Definition closures_unconnected (w : World) : Prop :=
  Forall (fun l => unconnected (loop_scope l)) (loops w)
  /\ Forall (fun a => unconnected (scope a)) (frames w)
  /\ Forall (fun t => unconnected t.2) (timers w)
  /\ acks w = [].

(** The log holds at most ten entries. *)
Definition log_bounded (w : World) : Prop :=
  (length (log (cells w)) <= 10)%nat.

(** The cells that describe the connection are the same in [w'] as in
    [w], and the log of [w'] is bounded if that of [w] was. *)
Definition same_link (w w' : World) : Prop :=
  port (cells w') = port (cells w)
  /\ isConnected (cells w') = isConnected (cells w)
  /\ isConnecting (cells w') = isConnecting (cells w)
  /\ reader (cells w') = reader (cells w)
  /\ writer (cells w') = writer (cells w)
  /\ isWebSerialSupported (cells w') = isWebSerialSupported (cells w)
  /\ (log_bounded w -> log_bounded w').

(** What the cells and the read loops say about the connection agrees:
    a component that shows Disconnected holds no reader, writer or port
    and runs no read loop; at most one read loop runs, and it reads from
    the reader held in the cell; no connection attempt is pending. *)
Definition connection_consistent (w : World) : Prop :=
  (isConnected (cells w) = false ->
   loops w = [] /\ reader (cells w) = None /\ writer (cells w) = None
   /\ port (cells w) = None)
  /\ (length (loops w) <= 1)%nat
  /\ Forall (fun l => reader (cells w) = Some (loop_reader l)) (loops w)
  /\ isConnecting (cells w) = false.

(** The event is a click on Connect. *)
Definition is_connect (e : Event) : bool :=
  match e with ClickConnect _ => true | _ => false end.

(** Every read loop runs in a scope whose joint state is [pose], and
    every queued motion starts from [pose]. *)
Definition starts_from (pose : JointState) (w : World) : Prop :=
  Forall (fun l => jointStates (loop_scope l) = pose) (loops w)
  /\ Forall (fun a => startStates a = pose) (frames w).

End Component.

(** ** The joint state of the page and the manual controls

    [Home] (page.tsx) holds the joint state; [JointControls] edits it
    through [onJointChange = handleJointChange]. *)

Module Page.
Import JsNumber Codec.

(** [handleJointChange]:
    [setJointStates(prev => ({...prev, [jointName]: value}))]. *)
Definition handleJointChange (jointName : string) (value : number)
    (jointStates : JointState) : JointState :=
  <[jointName := value]> jointStates.

(** [handleReset]:
    [jointNames.forEach(jointName => onJointChange(jointName, 0))]. *)
Definition handleReset (jointStates : JointState) : JointState :=
  foldl (fun prev jointName => handleJointChange jointName (Fin 0) prev)
    jointStates jointNames.

(** The table [jointLimits]: [min] and [max] in degrees. *)
Definition jointLimits : gmap string (Z * Z) :=
  list_to_map
    [("theta1", (-170, 170)%Z); ("theta2", (-100, 130)%Z);
     ("theta3", (-90, 75)%Z); ("theta4", (-180, 180)%Z);
     ("theta5", (-120, 120)%Z); ("theta6", (-360, 360)%Z)].

(** [isNaN(x)] for a number. *)
Definition isNaN (a : number) : bool :=
  match a with NaN => true | _ => false end.

(** [Math.max(limits.min, Math.min(limits.max, degrees))] *)
Definition clamp (limits : Z * Z) (degrees : number) : number :=
  max2 (of_Z limits.1) (min2 (of_Z limits.2) degrees).

(** [onChange] of the number input of [jointName], [degrees] being
    [parseFloat(e.target.value)].  The inputs are rendered for the six
    names of [jointNames], all of which are in the table. *)
Definition on_number_input (jointName : string) (degrees : number)
    (jointStates : JointState) : JointState :=
  match jointLimits !! jointName with
  | Some limits =>
      if negb (isNaN degrees)
      then
        let clampedDegrees := clamp limits degrees in
        let radians := degToRad clampedDegrees in
        handleJointChange jointName radians jointStates
      else jointStates
  | None => jointStates
  end.

(** [onChange] of the slider of [jointName]. *)
Definition on_slider_input (jointName : string) (degrees : number)
    (jointStates : JointState) : JointState :=
  handleJointChange jointName (degToRad degrees) jointStates.

(** The [value] given to the slider of [jointName]:
    [Math.max(limits.min, Math.min(limits.max, currentDegrees))] with
    [currentDegrees = radToDeg(jointStates[jointName] || 0)]. *)
Definition slider_value (jointName : string) (jointStates : JointState)
    : option number :=
  match jointLimits !! jointName with
  | Some limits =>
      let currentValue := or_zero (jointStates !! jointName) in
      let currentDegrees := radToDeg currentValue in
      Some (clamp limits currentDegrees)
  | None => None
  end.

End Page.

(** ** Sending the joint state: button, checkbox and debounced effect

    [SerialConnection] holds one more cell, [autoSend], and an effect
    with dependencies [jointStates, autoSend, isConnected]: whenever one
    of them changes, the cleanup of the previous run clears its timeout
    and, if [autoSend && isConnected], a new timeout of 100 ms is set
    that calls the [sendJointStates] of that render. *)

Module AutoSend.
Import JsNumber Codec Component.

Record Panel : Type := {
  world : World;
  autoSend : bool;
  debounce : option (Z * Scope);   (* pending timeout: due time, closure *)
}.

Definition set_world (w : World) (p : Panel) : Panel :=
  {| world := w; autoSend := autoSend p; debounce := debounce p |}.

(** [setJointStates] of [Home] with the object [js]. *)
Definition setJointStates (js : JointState) (w : World) : World :=
  {| cells := cells w; home_jointStates := js;
     loops := loops w; frames := frames w; timers := timers w;
     calls := calls w; next_handle := next_handle w; now := now w |}.

(** One run of the effect after a render whose dependencies changed:
    [clearTimeout] of the previous run, then the body. *)
Definition auto_send_effect (p : Panel) : Panel :=
  {| world := world p; autoSend := autoSend p;
     debounce :=
       if autoSend p && isConnected (cells (world p))
       then Some ((now (world p) + 100)%Z, render (world p))
       else None |}.

Inductive Event : Type :=
| JointChange (jointName : string) (value : number)  (* [onJointChange] *)
| ResetAll                                (* the Reset All button *)
| ToggleAutoSend                          (* the checkbox is clicked *)
| ClickSend (write_ok : bool)             (* the Send Joint States button *)
| DebounceFires (write_ok : bool)         (* the pending timeout runs *)
| Serial (e : Component.Event).

(** The event makes [Home] build a new [jointStates] object: every call
    of [animate] passes one to [onDataReceived]; nothing else in
    [SerialConnection] does. *)
Definition replaces_jointStates (w : World) (e : Component.Event) : bool :=
  match e with
  | AnimationFrame => match frames w with [] => false | _ :: _ => true end
  | _ => false
  end.

Section Step.
Variable exponential : Q -> string.

Definition step (p : Panel) (e : Event) : Panel :=
  match e with
  | JointChange jointName value =>
      let js := Page.handleJointChange jointName value
                  (home_jointStates (world p)) in
      auto_send_effect (set_world (setJointStates js (world p)) p)
  | ResetAll =>
      let js := Page.handleReset (home_jointStates (world p)) in
      auto_send_effect (set_world (setJointStates js (world p)) p)
  | ToggleAutoSend =>
      (* the checkbox is disabled while [!isConnected] *)
      if isConnected (cells (world p))
      then auto_send_effect
             {| world := world p; autoSend := negb (autoSend p);
                debounce := debounce p |}
      else p
  | ClickSend write_ok =>
      (* the button is disabled while [!isConnected] *)
      if isConnected (cells (world p))
      then set_world
             (sendJointStates exponential (render (world p)) write_ok (world p))
             p
      else p
  | DebounceFires write_ok =>
      match debounce p with
      | Some (due, sc) =>
          if (due <=? now (world p))%Z
          then {| world := sendJointStates exponential sc write_ok (world p);
                  autoSend := autoSend p; debounce := None |}
          else p
      | None => p
      end
  | Serial e =>
      let w := Component.step (world p) e in
      let p' := set_world w p in
      if replaces_jointStates (world p) e
         || negb (eqb (isConnected (cells w)) (isConnected (cells (world p))))
      then auto_send_effect p'
      else p'
  end.

Definition run (p : Panel) (es : list Event) : Panel := foldl step p es.

End Step.

(** The panel as first rendered. *)
Definition initial : Panel :=
  {| world := Component.initial; autoSend := false; debounce := None |}.

(** A burst of edits: each edit is followed by a pause, after which the
    timeout gets its chance to run. *)
Definition burst (edits : list (string * number * Z)) : list Event :=
  edits ≫= (fun '(jointName, value, pause) =>
               [JointChange jointName value; Serial (Elapse pause);
                DebounceFires true]).

(** The joint state after the edits. *)
Definition edited (jointStates : JointState)
    (edits : list (string * number * Z)) : JointState :=
  foldl (fun js '(jointName, value, _) =>
           Page.handleJointChange jointName value js) jointStates edits.

(** A pending timeout was set by a render that saw the present joint
    state, with auto-send on and the component connected, and both
    still hold. *)
Definition armed_for_present_state (p : Panel) : Prop :=
  forall due sc, debounce p = Some (due, sc) ->
    autoSend p = true
    /\ isConnected (cells (world p)) = true
    /\ isConnected (bound sc) = true
    /\ jointStates sc = home_jointStates (world p).

(** The calls [sendJointStates] makes when it runs in scope [sc]. *)
Definition send_call (exponential : Q -> string) (sc : Scope)
    (write_ok : bool) : list SerialCall :=
  match writer (bound sc), isConnected (bound sc) with
  | Some h, true => [WriterWrite h (encode exponential (jointStates sc)) write_ok]
  | _, _ => []
  end.

(** The call writes nothing, or the command of some joint state. *)
Definition is_command (exponential : Q -> string) (c : SerialCall) : Prop :=
  match c with
  | WriterWrite _ text _ => exists js, text = encode exponential js
  | _ => True
  end.

(** The call is not a write. *)
Definition is_release (c : SerialCall) : Prop :=
  match c with
  | WriterWrite _ _ _ => False
  | _ => True
  end.

(** No closure of the component can write, and every call so far
    releases a resource or writes a command. *)
Definition writes_commands_only (exponential : Q -> string) (p : Panel) : Prop :=
  closures_unconnected (world p)
  /\ Forall (is_command exponential) (calls (world p)).

End AutoSend.

(* ===================================================================== *)
(** * Properties *)
(* ===================================================================== *)

(** Membership in a list given by its elements. *)
Ltac listed :=
  repeat first [apply list_elem_of_here | apply list_elem_of_further].

(** ** Strings *)

Module JsStringFacts.
Import JsString.

Lemma app_nil_l (s : string) : "" +:+ s = s.
Proof. reflexivity. Qed.

Lemma app_cons (a : ascii) (s t : string) :
  String a s +:+ t = String a (s +:+ t).
Proof. reflexivity. Qed.

Lemma app_nil_r (s : string) : s +:+ "" = s.
Proof. induction s as [|a s IH]; [done|]. by rewrite app_cons, IH. Qed.

Lemma app_assoc (s t u : string) : (s +:+ t) +:+ u = s +:+ t +:+ u.
Proof.
  induction s as [|a s IH]; [done|]. by rewrite !app_cons, IH.
Qed.

Lemma length_app (s t : string) :
  String.length (s +:+ t) = (String.length s + String.length t)%nat.
Proof.
  induction s as [|a s IH]; [done|]. rewrite app_cons. simpl. by rewrite IH.
Qed.

Lemma concat_cons (s : string) (l : list string) :
  concat (s :: l) = s +:+ concat l.
Proof. reflexivity. Qed.

Lemma concat_app (l1 l2 : list string) :
  concat (l1 ++ l2) = concat l1 +:+ concat l2.
Proof.
  induction l1 as [|s l1 IH]; [done|].
  change ((s :: l1) ++ l2) with (s :: (l1 ++ l2)).
  by rewrite !concat_cons, IH, app_assoc.
Qed.

Lemma occurs_app (c : ascii) (s t : string) :
  occurs c (s +:+ t) <-> occurs c s \/ occurs c t.
Proof.
  induction s as [|a s IH]; [simpl; tauto|].
  rewrite app_cons. simpl. tauto.
Qed.

Lemma indexOf_None (c : ascii) (s : string) :
  indexOf c s = None <-> ~ occurs c s.
Proof.
  induction s as [|a s IH]; simpl; [tauto|].
  destruct (Ascii.eqb_spec a c) as [->|Hne].
  - split; [discriminate|]. intros H. destruct H. by left.
  - destruct (indexOf c s) as [i|].
    + split; [discriminate|]. intros H. exfalso.
      assert (Hs : ~ occurs c s) by tauto.
      apply IH in Hs. discriminate.
    + split; [|done]. intros _ [H|H]; [done|]. by apply IH in H.
Qed.

(** [indexOf] finds the first occurrence: the text splits around it. *)
Lemma indexOf_Some (c : ascii) (s : string) (i : nat) :
  indexOf c s = Some i ->
  s = substring_to i s +:+ String c (substring_from (i + 1) s)
  /\ ~ occurs c (substring_to i s)
  /\ (String.length (substring_from (i + 1) s) < String.length s)%nat.
Proof.
  revert i. induction s as [|a s IH]; intros i; simpl; [discriminate|].
  destruct (Ascii.eqb_spec a c) as [->|Hne].
  - intros [= <-]. unfold substring_to, substring_from. simpl.
    rewrite Nat.sub_0_r.
    assert (Hall : forall t, String.substring 0 (String.length t) t = t).
    { induction t as [|b t IHt]; [done|]. simpl. by rewrite IHt. }
    rewrite Hall. split; [done|]. split; [tauto|lia].
  - destruct (indexOf c s) as [j|] eqn:Hj; [|discriminate].
    intros [= <-]. destruct (IH j eq_refl) as (Heq & Hno & Hlen).
    unfold substring_to, substring_from in *. simpl.
    split; [|split].
    + rewrite app_cons. f_equal. exact Heq.
    + intros [H|H]; [done|]. by apply Hno.
    + simpl in Hlen. lia.
Qed.

End JsStringFacts.

(** ** The line reader *)

Module LineReaderFacts.
Import JsString JsStringFacts LineReader.

Lemma split_lines_no_newline (s : string) :
  ~ occurs newline s -> split_lines s = ([], s).
Proof.
  induction s as [|a s IH]; [done|]. simpl. intros H.
  rewrite IH by tauto.
  destruct (Ascii.eqb_spec a newline) as [->|Hne]; [tauto|done].
Qed.

Lemma split_lines_cons_line (l rest : string) :
  ~ occurs newline l ->
  split_lines (l +:+ String newline rest)
  = (l :: (split_lines rest).1, (split_lines rest).2).
Proof.
  induction l as [|a l IH]; intros H.
  - rewrite app_nil_l. simpl. by destruct (split_lines rest) as [ls tl].
  - rewrite app_cons. simpl in *. rewrite IH by tauto.
    destruct (Ascii.eqb_spec a newline) as [->|Hne]; [tauto|done].
Qed.

(** The fuel handed to the inner loop by [drain] is enough: the loop
    always runs until no terminator is left. *)
Lemma drain_enough_fuel (fuel : nat) (buffer : string) :
  (String.length buffer < fuel)%nat ->
  drain_loop fuel buffer = split_lines buffer.
Proof.
  revert buffer. induction fuel as [|fuel IH]; intros buffer Hlen; [lia|].
  simpl. destruct (indexOf newline buffer) as [i|] eqn:Hi.
  - destruct (indexOf_Some _ _ _ Hi) as (Heq & Hno & Hshort).
    rewrite IH by lia.
    pose proof (split_lines_cons_line _ (substring_from (i + 1) buffer) Hno)
      as Hsplit.
    rewrite <- Heq in Hsplit. rewrite Hsplit.
    by destruct (split_lines (substring_from (i + 1) buffer)).
  - apply indexOf_None in Hi. by rewrite split_lines_no_newline.
Qed.

Lemma drain_split_lines (buffer : string) :
  drain buffer = split_lines buffer.
Proof. apply drain_enough_fuel. lia. Qed.

(** Splitting a text in two and carrying the unterminated tail over
    gives the lines of the whole text. *)
Lemma split_lines_app (a b : string) :
  split_lines (a +:+ b)
  = ((split_lines a).1 ++ (split_lines ((split_lines a).2 +:+ b)).1,
     (split_lines ((split_lines a).2 +:+ b)).2).
Proof.
  induction a as [|c a IH].
  - simpl. rewrite !app_nil_l. by destruct (split_lines b).
  - rewrite app_cons. simpl. rewrite IH.
    destruct (split_lines a) as [la ta]. simpl.
    destruct (Ascii.eqb_spec c newline) as [->|Hne]; [done|].
    destruct la as [|l la]; simpl; [|done].
    destruct (split_lines (ta +:+ b)) as [lb tb].
    destruct (Ascii.eqb_spec c newline); [done|].
    by destruct lb.
Qed.

Lemma split_lines_tail_clean (s : string) :
  ~ occurs newline (split_lines s).2.
Proof.
  induction s as [|a s IH]; simpl; [tauto|].
  destruct (split_lines s) as [ls tl]. simpl in IH.
  destruct (Ascii.eqb_spec a newline) as [->|Hne]; [done|].
  destruct ls; simpl; tauto.
Qed.

(** The outer loop depends on the chunks only through their
    concatenation. *)
Lemma read_chunks_concat (buffer : string) (chunks : list string) :
  ~ occurs newline buffer ->
  read_chunks buffer chunks = split_lines (buffer +:+ concat chunks).
Proof.
  revert buffer. induction chunks as [|value chunks IH]; intros buffer Hb.
  - simpl. rewrite app_nil_r. by rewrite split_lines_no_newline.
  - rewrite concat_cons, <- app_assoc, split_lines_app.
    cbn [read_chunks]. unfold on_chunk. rewrite drain_split_lines.
    pose proof (split_lines_tail_clean (buffer +:+ value)) as Hclean.
    destruct (split_lines (buffer +:+ value)) as [commands buffer'].
    simpl in *. rewrite IH by done.
    by destruct (split_lines (buffer' +:+ concat chunks)).
Qed.

Lemma split_lines_terminated (lines : list string) (tail : string) :
  Forall (fun l => ~ occurs newline l) lines ->
  ~ occurs newline tail ->
  split_lines (concat (terminate <$> lines) +:+ tail) = (lines, tail).
Proof.
  intros Hl Ht. induction Hl as [|l lines Hl _ IH].
  - simpl. rewrite app_nil_l. by apply split_lines_no_newline.
  - rewrite fmap_cons, concat_cons. unfold terminate at 1.
    rewrite !app_assoc, app_cons, app_nil_l.
    rewrite split_lines_cons_line by done. by rewrite IH.
Qed.

End LineReaderFacts.

(** C1. Whatever way the bytes of a sequence of newline-terminated lines
    (followed by an unterminated tail) are cut into chunks, the read loop
    hands exactly those lines, in order, to [processCommand], and the tail
    stays in [buffer] without being handed over. *)
Theorem reassembly_independent_of_chunking
    (lines : list string) (tail : string) (chunks : list string) :
  Forall (fun l => JsString.indexOf JsString.newline l = None) lines ->
  JsString.indexOf JsString.newline tail = None ->
  JsString.concat chunks
    = JsString.concat (LineReader.terminate <$> lines) +:+ tail ->
  LineReader.readSerialData chunks = (lines, tail).
Proof.
  intros Hl Ht Hc. unfold LineReader.readSerialData.
  rewrite LineReaderFacts.read_chunks_concat by (simpl; tauto).
  rewrite JsStringFacts.app_nil_l, Hc.
  apply LineReaderFacts.split_lines_terminated.
  - eapply Forall_impl; [exact Hl|]. intros l. apply JsStringFacts.indexOf_None.
  - by apply JsStringFacts.indexOf_None.
Qed.

(** Two commands and the start of a third, delivered in four chunks cut
    inside the lines. *)
Lemma reassembly_independent_of_chunking_witness :
  LineReader.readSerialData
    ["G06 X4"; "5.0 F500" +:+ String JsString.newline "G06";
     " Y-30" +:+ String JsString.newline "G0"; "6 Z"]
  = (["G06 X45.0 F500"; "G06 Y-30"], "G06 Z").
Proof.
  apply (reassembly_independent_of_chunking
           ["G06 X45.0 F500"; "G06 Y-30"] "G06 Z").
  - repeat constructor.
  - reflexivity.
  - reflexivity.
Defined.

(** ** The field pattern *)

Module RegexFacts.
Import JsString JsStringFacts Decimal10 Regex.

Lemma digit_code (c : ascii) :
  is_digit c = true -> (48 <= nat_of_ascii c <= 57)%nat.
Proof.
  unfold is_digit. intros [H1 H2]%andb_prop.
  apply Nat.leb_le in H1, H2. lia.
Qed.

Lemma digit_not_sign (c : ascii) : is_digit c = true -> accepts Sign c = false.
Proof.
  intros H%digit_code. simpl.
  destruct (Ascii.eqb_spec c "-") as [->|_]; [vm_compute in H; lia|].
  destruct (Ascii.eqb_spec c "+") as [->|_]; [vm_compute in H; lia|done].
Qed.

Lemma digit_not_dot (c : ascii) : is_digit c = true -> accepts Dot c = false.
Proof.
  intros H%digit_code. simpl.
  destruct (Ascii.eqb_spec c ".") as [->|_]; [vm_compute in H; lia|done].
Qed.

Lemma greedy_stop (c : class) (k : string -> option string) (t : string) :
  head_rejects c t -> greedy c k t = k t.
Proof. destruct t as [|a t]; simpl; [done|]. by intros ->. Qed.

(** A run of digits followed by a text the continuation accepts is
    taken whole. *)
Lemma greedy_digits_all (ds t r : string) (k : string -> option string) :
  all_digits ds = true -> head_rejects Digit t -> k t = Some r ->
  greedy Digit k (ds +:+ t) = Some r.
Proof.
  intros Hds Ht Hk. induction ds as [|d ds IH].
  - rewrite app_nil_l, greedy_stop; done.
  - apply andb_prop in Hds as [Hd Hds]. rewrite app_cons. simpl.
    rewrite Hd, IH; done.
Qed.

(** A run of digits after which the continuation fails gives its last
    digit back. *)
Lemma greedy_digits_back (ds t r : string) (k : string -> option string) :
  all_digits ds = true -> ds <> "" -> head_rejects Digit t ->
  k t = None ->
  (forall d, is_digit d = true -> k (String d t) = Some r) ->
  greedy Digit k (ds +:+ t) = Some r.
Proof.
  intros Hds Hne Ht Hk Hback. induction ds as [|d ds IH]; [done|].
  apply andb_prop in Hds as [Hd Hds]. rewrite app_cons. simpl. rewrite Hd.
  destruct ds as [|d' ds].
  - rewrite app_nil_l, greedy_stop, Hk by done. by apply Hback.
  - rewrite IH; done.
Qed.

Lemma stops_rejects_digit (rest : string) :
  stops rest = true -> head_rejects Digit rest.
Proof.
  destruct rest as [|c rest]; simpl; [done|].
  intros [H _]%andb_prop. by apply negb_true_iff in H.
Qed.

Lemma stops_rejects_dot (rest : string) :
  stops rest = true -> head_rejects Dot rest.
Proof.
  destruct rest as [|c rest]; simpl; [done|].
  intros [_ H]%andb_prop. by apply negb_true_iff in H.
Qed.

Lemma match_after_sign_frac (ds fs rest : string) :
  all_digits ds = true -> all_digits fs = true -> fs <> "" ->
  head_rejects Digit rest ->
  match_here after_sign (ds +:+ "." +:+ fs +:+ rest) = Some rest.
Proof.
  intros Hds Hfs Hne Hrest. simpl.
  apply greedy_digits_all; [done|done|].
  rewrite app_cons, app_nil_l. simpl.
  destruct fs as [|f fs]; [done|]. apply andb_prop in Hfs as [Hf Hfs].
  rewrite app_cons. simpl. rewrite Hf.
  by rewrite (greedy_digits_all fs rest rest).
Qed.

Lemma match_after_sign_int (ds rest : string) :
  all_digits ds = true -> ds <> "" -> stops rest = true ->
  match_here after_sign (ds +:+ rest) = Some rest.
Proof.
  intros Hds Hne Hrest. simpl.
  pose proof (stops_rejects_digit _ Hrest) as Hd.
  pose proof (stops_rejects_dot _ Hrest) as Hp.
  apply greedy_digits_back; [done|done|done| |].
  - destruct rest as [|c rest]; simpl in *; [done|]. by rewrite Hp, Hd.
  - intros d Hdig. pose proof (digit_not_dot d Hdig) as Hnd.
    simpl in Hnd. rewrite Hnd, Hdig. by apply greedy_stop.
Qed.

Lemma optional_sign (sgn body r : string) :
  sign_text sgn -> head_rejects Sign body ->
  match_here after_sign body = Some r ->
  match_here number_group (sgn +:+ body) = Some r.
Proof.
  intros [->|[->| ->]] Hbody Hk.
  - rewrite app_nil_l. change number_group with ((Sign, Optional) :: after_sign).
    cbn [match_here]. destruct body as [|a body]; [done|].
    unfold head_rejects in Hbody. by rewrite Hbody.
  - change number_group with ((Sign, Optional) :: after_sign).
    cbn [match_here]. rewrite app_cons, app_nil_l.
    replace (accepts Sign "-") with true by reflexivity. by rewrite Hk.
  - change number_group with ((Sign, Optional) :: after_sign).
    cbn [match_here]. rewrite app_cons, app_nil_l.
    replace (accepts Sign "+") with true by reflexivity. by rewrite Hk.
Qed.

Lemma match_here_numeral (v rest : string) :
  numeral v -> stops rest = true ->
  match_here number_group (v +:+ rest) = Some rest.
Proof.
  intros Hv Hrest. destruct Hv as [sgn ds Hs Hds Hne|sgn ds fs Hs Hds Hfs Hne].
  - rewrite app_assoc. apply optional_sign; [done| |].
    + destruct ds as [|d ds]; [done|]. apply andb_prop in Hds as [Hd _].
      rewrite app_cons. simpl. by apply (digit_not_sign d).
    + by apply match_after_sign_int.
  - rewrite !app_assoc. apply optional_sign; [done| |].
    + destruct ds as [|d ds].
      * by rewrite app_nil_l.
      * apply andb_prop in Hds as [Hd _]. rewrite app_cons. simpl.
        by apply (digit_not_sign d).
    + apply match_after_sign_frac; [done..|]. by apply stops_rejects_digit.
Qed.

Lemma capture_prefix (v rest : string) :
  String.substring 0 (String.length (v +:+ rest) - String.length rest)
    (v +:+ rest) = v.
Proof.
  rewrite length_app.
  replace (String.length v + String.length rest - String.length rest)%nat
    with (String.length v) by lia.
  induction v as [|a v IH].
  - rewrite app_nil_l. by destruct rest.
  - rewrite app_cons. simpl. by rewrite IH.
Qed.

Lemma match_at_numeral (letter : ascii) (v rest : string) :
  numeral v -> stops rest = true ->
  match_at letter (String letter (v +:+ rest)) = Some v.
Proof.
  intros Hv Hrest. unfold match_at. rewrite Ascii.eqb_refl.
  rewrite match_here_numeral by done. by rewrite capture_prefix.
Qed.

Lemma match_at_other (letter a : ascii) (s : string) :
  a <> letter -> match_at letter (String a s) = None.
Proof.
  intros Hne. unfold match_at.
  by destruct (Ascii.eqb_spec a letter).
Qed.

Lemma field_match_skip (letter : ascii) (pre s : string) :
  ~ occurs letter pre ->
  field_match letter (pre +:+ s) = field_match letter s.
Proof.
  induction pre as [|a pre IH]; intros Hno; [done|].
  rewrite app_cons. simpl in Hno.
  change (field_match letter (String a (pre +:+ s)))
    with (match match_at letter (String a (pre +:+ s)) with
          | Some capture => Some capture
          | None => field_match letter (pre +:+ s)
          end).
  rewrite match_at_other by tauto. apply IH. tauto.
Qed.

Lemma field_match_here (letter : ascii) (s : string) (v : string) :
  match_at letter s = Some v -> field_match letter s = Some v.
Proof. destruct s; simpl; by intros ->. Qed.

(** The leftmost occurrence of the letter, when a number follows it,
    is the match, whatever comes later in the line. *)
Lemma field_match_first (letter : ascii) (pre v rest : string) :
  ~ occurs letter pre -> numeral v -> stops rest = true ->
  field_match letter (pre +:+ String letter (v +:+ rest)) = Some v.
Proof.
  intros Hpre Hv Hrest. rewrite field_match_skip by done.
  apply field_match_here. by apply match_at_numeral.
Qed.




End RegexFacts.

(** ** Decimal text *)

Module Decimal10Facts.
Import JsString JsStringFacts JsNumber Decimal10 Regex RegexFacts.

Lemma digit_char_spec (d : Z) :
  (0 <= d < 10)%Z ->
  is_digit (digit_char d) = true /\ digit_value (digit_char d) = d.
Proof.
  intros Hd.
  assert (d = 0 \/ d = 1 \/ d = 2 \/ d = 3 \/ d = 4 \/ d = 5 \/ d = 6
          \/ d = 7 \/ d = 8 \/ d = 9)%Z as Hcases by lia.
  repeat (destruct Hcases as [->|Hcases]; [by vm_compute|]).
  subst d. by vm_compute.
Qed.

Lemma digits_value_snoc (acc : Z) (ds : string) (c : ascii) :
  digits_value acc (ds +:+ String c "")
  = (digits_value acc ds * 10 + digit_value c)%Z.
Proof.
  revert acc. induction ds as [|d ds IH]; intros acc; [done|].
  rewrite app_cons. simpl. by rewrite IH.
Qed.

Lemma all_digits_app (a b : string) :
  all_digits (a +:+ b) = all_digits a && all_digits b.
Proof.
  induction a as [|c a IH]; [done|]. rewrite app_cons. simpl.
  by rewrite IH, andb_assoc.
Qed.

Lemma read_digits_run (acc : Z) (count : nat) (ds t : string) :
  all_digits ds = true -> head_rejects Digit t ->
  read_digits acc count (ds +:+ t)
  = (digits_value acc ds, (count + String.length ds)%nat, t).
Proof.
  revert acc count. induction ds as [|d ds IH]; intros acc count Hds Ht.
  - rewrite app_nil_l. simpl. rewrite Nat.add_0_r.
    destruct t as [|a t]; [done|]. simpl in *. by rewrite Ht.
  - apply andb_prop in Hds as [Hd Hds]. rewrite app_cons. simpl.
    rewrite Hd, IH by done. do 2 f_equal. lia.
Qed.

Lemma log2_tenth (n : Z) :
  (10 <= n)%Z -> (Z.log2 (n / 10) < Z.log2 n)%Z.
Proof.
  intros Hn.
  assert (0 < n / 10)%Z as Hpos by (apply Z.div_str_pos; lia).
  apply Z.log2_lt_pow2; [done|].
  pose proof (Z.log2_spec n ltac:(lia)) as [_ Hup].
  rewrite Z.pow_succ_r in Hup by apply Z.log2_nonneg.
  apply Z.div_lt_upper_bound; lia.
Qed.

(** The loop of [to_digits] writes the digits of [n] in front of
    [acc], given fuel for them. *)
Lemma to_digits_loop_spec (fuel : nat) (n : Z) (acc : string) :
  (0 <= n)%Z -> (Z.to_nat (Z.log2 n) < fuel)%nat ->
  exists ds, to_digits_loop fuel n acc = ds +:+ acc
             /\ all_digits ds = true /\ ds <> ""
             /\ digits_value 0 ds = n.
Proof.
  revert n acc. induction fuel as [|fuel IH]; intros n acc Hn Hfuel; [lia|].
  simpl. destruct (Z.ltb_spec n 10) as [Hsmall|Hbig].
  - exists (String (digit_char n) "").
    rewrite Z.mod_small by lia.
    destruct (digit_char_spec n ltac:(lia)) as [Hd Hv].
    cbn [all_digits digits_value]. rewrite Hd.
    change (0 * 10 + digit_value (digit_char n))%Z
      with (digit_value (digit_char n)).
    rewrite Hv. by rewrite app_cons, app_nil_l.
  - pose proof (log2_tenth n Hbig) as Hlog.
    pose proof (Z.log2_nonneg (n / 10)) as Hnn.
    destruct (IH (n / 10)%Z (String (digit_char (n mod 10)) acc))
      as (ds & Heq & Hds & Hne & Hv).
    { apply Z.div_pos; lia. }
    { lia. }
    exists (ds +:+ String (digit_char (n mod 10)) "").
    destruct (digit_char_spec (n mod 10)%Z) as [Hd Hdv].
    { apply Z.mod_pos_bound; lia. }
    rewrite Heq, app_assoc, all_digits_app, digits_value_snoc, Hds, Hv, Hdv.
    cbn [all_digits andb]. rewrite Hd. repeat split.
    + by destruct ds.
    + pose proof (Z.div_mod n 10 ltac:(lia)). lia.
Qed.

Lemma to_digits_spec (n : Z) :
  (0 <= n)%Z ->
  all_digits (to_digits n) = true /\ to_digits n <> ""
  /\ digits_value 0 (to_digits n) = n.
Proof.
  intros Hn. unfold to_digits.
  destruct (to_digits_loop_spec (S (Z.to_nat (Z.log2 n))) n "" Hn)
    as (ds & -> & H); [lia|].
  by rewrite app_nil_r.
Qed.

Lemma digit_not_space (c : ascii) : is_digit c = true -> is_space c = false.
Proof.
  intros H%digit_code. unfold is_space.
  repeat match goal with
         | |- context [(?a <=? ?b)%nat] => destruct (Nat.leb_spec a b)
         | |- context [(?a =? ?b)%nat] => destruct (Nat.eqb_spec a b)
         end; simpl; try done; lia.
Qed.

Lemma trimStart_id (s : string) :
  match s with String a _ => is_space a = false | EmptyString => True end ->
  trimStart s = s.
Proof. destruct s as [|a s]; simpl; [done|]. by intros ->. Qed.


Lemma parse_magnitude_int (ds : string) :
  all_digits ds = true -> ds <> "" ->
  parse_magnitude ds
  = Some (inject_Z (digits_value 0 ds) + inject_Z 0 / inject_Z 1)%Q.
Proof.
  intros Hds Hne. unfold parse_magnitude.
  rewrite <- (app_nil_r ds) at 1. rewrite read_digits_run by done.
  simpl. by destruct ds.
Qed.

Lemma parseFloat_signed (sgn body : string) :
  sign_text sgn ->
  match body with
  | String a _ => is_digit a = true \/ a = "."%char
  | EmptyString => False
  end ->
  parseFloat (sgn +:+ body) = signed (is_minus sgn) (parse_magnitude body).
Proof.
  intros Hs Hbody. destruct body as [|a body]; [done|].
  assert (is_space a = false /\ Ascii.eqb a "-" = false
          /\ Ascii.eqb a "+" = false) as (Hsp & Hm & Hp).
  { destruct Hbody as [Hd| ->]; [|by vm_compute].
    pose proof (digit_not_sign a Hd) as Hns. simpl in Hns.
    apply orb_false_elim in Hns as [? ?]. by rewrite digit_not_space. }
  destruct Hs as [->|[->| ->]]; unfold parseFloat.
  - rewrite app_nil_l. simpl. by rewrite Hsp, Hm, Hp.
  - by rewrite app_cons, app_nil_l.
  - by rewrite app_cons, app_nil_l.
Qed.

End Decimal10Facts.

(** ** Decoding a received line *)

Module CodecFacts.
Import JsString JsStringFacts JsNumber Decimal10 Regex RegexFacts Codec.

Lemma parse_G06_target (cmd : string) (letter : ascii) (joint : string) :
  (letter, joint) ∈ axes ->
  (parse_G06 cmd).1 !! joint
  = (fun capture => degToRad (parseFloat capture)) <$> field_match letter cmd.
Proof.
  intros Hin. unfold parse_G06, axes in *. cbn [fst].
  repeat (apply elem_of_cons in Hin as [Hin|Hin];
          [injection Hin as -> ->;
           repeat match goal with
                  | |- context [assign_field (field_match ?l cmd)] =>
                      destruct (field_match l cmd); cbn [assign_field]
                  end;
           by simplify_map_eq|]).
  by apply elem_of_nil in Hin.
Qed.

Lemma parse_G06_feedRate (cmd : string) :
  (parse_G06 cmd).2
  = match field_match "F" cmd with
    | Some capture => parseFloat capture
    | None => of_Z 500
    end.
Proof. reflexivity. Qed.

Lemma decode_Motion_inv (command : string) (t : JointState) (f : number) :
  decode command = Motion t f -> parse_G06 (trim command) = (t, f).
Proof.
  unfold decode. destruct (trim command) as [|a s]; [done|].
  destruct (String.prefix "G06" (String a s)); [|done].
  destruct (parse_G06 (String a s)) as [t' f'].
  destruct (0 <? size t')%nat; [|done]. by intros [= -> ->].
Qed.

End CodecFacts.

(** ** Formatting with one decimal and reading it back *)

Module FixedFacts.
Import JsString JsStringFacts JsNumber Decimal10 Decimal10Facts.
Import Regex RegexFacts.

Lemma is_neg_spec (x : Q) : is_neg x = true <-> (x < 0)%Q.
Proof.
  unfold is_neg. rewrite Qlt_alt. destruct (x ?= 0)%Q; split; done.
Qed.

Lemma is_neg_false (x : Q) : is_neg x = false <-> (0 <= x)%Q.
Proof.
  rewrite <- not_true_iff_false, is_neg_spec. split.
  - apply Qnot_lt_le.
  - intros H1 H2. by apply (Qle_not_lt _ _ H1).
Qed.

Lemma tenths_nonneg (x : Q) : (0 <= tenths x)%Z.
Proof.
  unfold tenths. apply Qfloor_resp_le with (x := 0%Q).
  pose proof (Qabs_nonneg x) as H.
  assert (inject_Z 10 == 10)%Q as -> by reflexivity. lra.
Qed.


Lemma toFixed1_fixed (exponential : Q -> string) (x : Q) :
  (Qabs x < ten_to_21)%Q ->
  toFixed1 exponential (Fin x)
  = (if is_neg x then "-" else "")
    +:+ to_digits (tenths x / 10)
    +:+ "." +:+ String (digit_char (tenths x mod 10)) "".
Proof.
  intros Hrange. unfold toFixed1.
  destruct (Qle_bool ten_to_21 (Qabs x)) eqn:Hle; [|done].
  apply Qle_bool_iff in Hle. by apply Qle_not_lt in Hle.
Qed.

Lemma toFixed1_numeral (exponential : Q -> string) (x : Q) :
  (Qabs x < ten_to_21)%Q -> numeral (toFixed1 exponential (Fin x)).
Proof.
  intros Hrange. rewrite toFixed1_fixed by done.
  pose proof (tenths_nonneg x) as Hn.
  destruct (to_digits_spec (tenths x / 10)) as (Hds & Hne & _).
  { apply Z.div_pos; lia. }
  destruct (digit_char_spec (tenths x mod 10)) as [Hd _].
  { apply Z.mod_pos_bound; lia. }
  apply numeral_frac; [|done| |done].
  - unfold sign_text. destruct (is_neg x); auto.
  - cbn [all_digits]. by rewrite Hd.
Qed.

Lemma occurs_digits (c : ascii) (ds : string) :
  all_digits ds = true -> occurs c ds -> is_digit c = true.
Proof.
  induction ds as [|d ds IH]; simpl; [done|].
  intros [Hd Hds]%andb_prop [<-|H]; auto.
Qed.

(** The printed text contains nothing but a sign, digits and a point. *)
Lemma toFixed1_chars (exponential : Q -> string) (x : Q) (c : ascii) :
  (Qabs x < ten_to_21)%Q ->
  accepts Sign c = false -> is_digit c = false -> accepts Dot c = false ->
  ~ occurs c (toFixed1 exponential (Fin x)).
Proof.
  intros Hrange Hs Hd Hp. rewrite toFixed1_fixed by done.
  pose proof (tenths_nonneg x) as Hn.
  destruct (to_digits_spec (tenths x / 10)) as (Hds & _ & _).
  { apply Z.div_pos; lia. }
  destruct (digit_char_spec (tenths x mod 10)) as [Hlast _].
  { apply Z.mod_pos_bound; lia. }
  rewrite !occurs_app. intros [H|[H|[H|H]]].
  - destruct (is_neg x); cbn [occurs] in H; [|done].
    destruct H as [<-|[]]. by vm_compute in Hs.
  - apply occurs_digits in H; [|done]. congruence.
  - cbn [occurs] in H. destruct H as [<-|[]]. by vm_compute in Hp.
  - cbn [occurs] in H. destruct H as [<-|[]]. congruence.
Qed.

End FixedFacts.

(** ** The line written by [sendJointStates], read by [processCommand] *)

Module EncodeFacts.
Import JsString JsStringFacts JsNumber Decimal10 Decimal10Facts.
Import Regex RegexFacts Codec CodecFacts FixedFacts.

Lemma trimEnd_app (s t : string) :
  trimEnd t <> "" -> trimEnd (s +:+ t) = s +:+ trimEnd t.
Proof.
  intros Ht. induction s as [|a s IH]; [done|].
  rewrite !app_cons. simpl. rewrite IH.
  destruct (s +:+ trimEnd t) eqn:Heq; [|done].
  destruct s; [|done]. by rewrite app_nil_l in Heq.
Qed.

Lemma trim_command_text (x y z w u v : string) :
  trim (command_text x y z w u v) = command_body x y z w u v.
Proof.
  unfold trim. change (trimStart (command_text x y z w u v))
    with (command_text x y z w u v).
  assert (command_text x y z w u v
          = ("G06 X" +:+ x +:+ " Y" +:+ y +:+ " Z" +:+ z +:+ " W" +:+ w
             +:+ " U" +:+ u +:+ " V" +:+ v)
            +:+ " F500" +:+ String newline "") as ->.
  { unfold command_text. by rewrite !app_assoc. }
  rewrite trimEnd_app by done. unfold command_body. by rewrite !app_assoc.
Qed.

Section Fields.
Variables x y z w u v : string.
Hypothesis Hx : plain x.
Hypothesis Hy : plain y.
Hypothesis Hz : plain z.
Hypothesis Hw : plain w.
Hypothesis Hu : plain u.
Hypothesis Hv : plain v.

Let body := command_body x y z w u v.

Ltac absent :=
  rewrite ?occurs_app; simpl; intros Hocc;
  repeat (destruct Hocc as [Hocc|Hocc]); try discriminate; try done;
  match goal with
  | Hp : plain ?t, Ho : occurs _ ?t |- _ =>
      by apply (proj2 Hp) in Ho
  end.

Lemma body_X : field_match "X" body = Some x.
Proof.
  change body with ("G06 " +:+ String "X" (x +:+ " Y" +:+ y +:+ " Z" +:+ z
    +:+ " W" +:+ w +:+ " U" +:+ u +:+ " V" +:+ v +:+ " F500")).
  apply field_match_first; [simpl; intuition discriminate|apply Hx|done].
Qed.

Lemma body_Y : field_match "Y" body = Some y.
Proof.
  assert (body = ("G06 X" +:+ x +:+ " ") +:+ String "Y" (y +:+ " Z" +:+ z
    +:+ " W" +:+ w +:+ " U" +:+ u +:+ " V" +:+ v +:+ " F500")) as ->.
  { unfold body, command_body. by rewrite !app_assoc. }
  apply field_match_first; [absent|apply Hy|done].
Qed.

Lemma body_Z : field_match "Z" body = Some z.
Proof.
  assert (body = ("G06 X" +:+ x +:+ " Y" +:+ y +:+ " ")
    +:+ String "Z" (z +:+ " W" +:+ w +:+ " U" +:+ u +:+ " V" +:+ v
    +:+ " F500")) as ->.
  { unfold body, command_body. by rewrite !app_assoc. }
  apply field_match_first; [absent|apply Hz|done].
Qed.

Lemma body_W : field_match "W" body = Some w.
Proof.
  assert (body = ("G06 X" +:+ x +:+ " Y" +:+ y +:+ " Z" +:+ z +:+ " ")
    +:+ String "W" (w +:+ " U" +:+ u +:+ " V" +:+ v +:+ " F500")) as ->.
  { unfold body, command_body. by rewrite !app_assoc. }
  apply field_match_first; [absent|apply Hw|done].
Qed.

Lemma body_U : field_match "U" body = Some u.
Proof.
  assert (body = ("G06 X" +:+ x +:+ " Y" +:+ y +:+ " Z" +:+ z
    +:+ " W" +:+ w +:+ " ")
    +:+ String "U" (u +:+ " V" +:+ v +:+ " F500")) as ->.
  { unfold body, command_body. by rewrite !app_assoc. }
  apply field_match_first; [absent|apply Hu|done].
Qed.

Lemma body_V : field_match "V" body = Some v.
Proof.
  assert (body = ("G06 X" +:+ x +:+ " Y" +:+ y +:+ " Z" +:+ z
    +:+ " W" +:+ w +:+ " U" +:+ u +:+ " ")
    +:+ String "V" (v +:+ " F500")) as ->.
  { unfold body, command_body. by rewrite !app_assoc. }
  apply field_match_first; [absent|apply Hv|done].
Qed.

Lemma body_F : field_match "F" body = Some "500".
Proof.
  assert (body = ("G06 X" +:+ x +:+ " Y" +:+ y +:+ " Z" +:+ z
    +:+ " W" +:+ w +:+ " U" +:+ u +:+ " V" +:+ v +:+ " ")
    +:+ String "F" ("500" +:+ "")) as ->.
  { unfold body, command_body. by rewrite !app_assoc. }
  apply field_match_first; [absent| |done].
  by apply (numeral_int "" "500"); [left|..].
Qed.

(** The line decodes to a motion that names all six joints, each
    with the value read from its field, at feed rate 500. *)
Lemma decode_command_text :
  exists targetStates,
    decode (command_text x y z w u v)
    = Motion targetStates (parseFloat "500")
    /\ targetStates !! "theta1" = Some (degToRad (parseFloat x))
    /\ targetStates !! "theta2" = Some (degToRad (parseFloat y))
    /\ targetStates !! "theta3" = Some (degToRad (parseFloat z))
    /\ targetStates !! "theta4" = Some (degToRad (parseFloat w))
    /\ targetStates !! "theta5" = Some (degToRad (parseFloat u))
    /\ targetStates !! "theta6" = Some (degToRad (parseFloat v)).
Proof.
  exists (parse_G06 body).1.
  assert (forall letter joint t, (letter, joint) ∈ axes ->
            field_match letter body = Some t ->
            (parse_G06 body).1 !! joint = Some (degToRad (parseFloat t)))
    as Hfield.
  { intros letter joint t Hin Hm.
    by rewrite (parse_G06_target body letter joint Hin), Hm. }
  pose proof (Hfield "X"%char "theta1" x ltac:(listed) body_X) as H1.
  split; [|repeat split].
  - unfold decode. rewrite trim_command_text. fold body.
    assert (parse_G06 body = ((parse_G06 body).1, parseFloat "500")) as Hp.
    { rewrite (surjective_pairing (parse_G06 body)) at 1.
      by rewrite parse_G06_feedRate, body_F. }
    assert ((0 <? size (parse_G06 body).1)%nat = true) as Hsize.
    { apply Nat.ltb_lt.
      destruct (size (parse_G06 body).1) eqn:Hs; [|lia].
      apply map_size_empty_iff in Hs. rewrite Hs in H1.
      by rewrite lookup_empty in H1. }
    change (match body with
            | "" => Ignored
            | String _ _ =>
                if String.prefix "G06" body
                then let '(newJointStates, feedRate) := parse_G06 body in
                     if (0 <? size newJointStates)%nat
                     then Motion newJointStates feedRate else Ignored
                else Ignored
            end)
      with (let '(newJointStates, feedRate) := parse_G06 body in
            if (0 <? size newJointStates)%nat
            then Motion newJointStates feedRate else Ignored).
    rewrite Hp. cbn beta iota. by rewrite Hsize.
  - exact H1.
  - apply (Hfield "Y"%char); [listed|apply body_Y].
  - apply (Hfield "Z"%char); [listed|apply body_Z].
  - apply (Hfield "W"%char); [listed|apply body_W].
  - apply (Hfield "U"%char); [listed|apply body_U].
  - apply (Hfield "V"%char); [listed|apply body_V].
Qed.
End Fields.

End EncodeFacts.

(* ===================================================================== *)
(** * The protocol statements *)
(* ===================================================================== *)




(** C7, against the claim: a feed rate written as zero or as a negative
    number is used as written. *)
Lemma feed_rate_not_always_positive :
  (exists targetStates q,
     Codec.decode "G06 X10 F0" = Codec.Motion targetStates (JsNumber.Fin q)
     /\ ~ (0 < q)%Q)
  /\ (exists targetStates q,
        Codec.decode "G06 X10 F-100" = Codec.Motion targetStates (JsNumber.Fin q)
        /\ (q < 0)%Q).
Proof.
  split; eexists _, _; (split; [by vm_compute|]).
  - intros H. by vm_compute in H.
  - by vm_compute.
Qed.

(** ** What the field pattern finds *)

Module RegexTotal.
Import JsString JsStringFacts Decimal10 Regex RegexFacts.

Lemma digits_split (u : string) :
  exists ds tail, u = ds +:+ tail /\ all_digits ds = true
                  /\ head_rejects Digit tail.
Proof.
  induction u as [|a u (ds & tail & -> & Hds & Htail)].
  - by exists "", "".
  - destruct (is_digit a) eqn:Ha.
    + exists (String a ds), tail. cbn [all_digits]. by rewrite Ha, Hds.
    + by exists "", (String a (ds +:+ tail)).
Qed.

Lemma has_point_digits (ds : string) :
  all_digits ds = true -> has_point ds = false.
Proof.
  induction ds as [|d ds IH]; [done|]. cbn [all_digits has_point].
  intros [Hd Hds]%andb_prop. rewrite (IH Hds), orb_false_r.
  apply digit_not_dot in Hd. exact Hd.
Qed.

Lemma has_point_app (s t : string) :
  has_point (s +:+ t) = has_point s || has_point t.
Proof.
  induction s as [|a s IH]; [done|]. rewrite app_cons. cbn [has_point].
  by rewrite IH, orb_assoc.
Qed.

Lemma starts_digits_digits (ds tail : string) :
  all_digits ds = true -> ds <> "" -> starts_digits (ds +:+ tail) = true.
Proof.
  destruct ds as [|d ds]; [done|]. intros [Hd _]%andb_prop _.
  rewrite app_cons. cbn [starts_digits]. by rewrite Hd.
Qed.

(** After the digits comes a point that no digit follows: the point is
    left out of the match. *)
Lemma match_after_sign_int_point (ds tail : string) :
  all_digits ds = true -> ds <> "" -> head_rejects Digit tail ->
  match_here after_sign (ds +:+ String "." tail) = Some (String "." tail).
Proof.
  intros Hds Hne Htail. unfold after_sign. cbn [match_here].
  apply greedy_digits_back; [done|done|done| |].
  - cbn. destruct tail as [|b tail]; [done|]. cbn in Htail.
    by rewrite Htail.
  - intros d Hd. rewrite (digit_not_dot d Hd).
    change (accepts Digit d) with (is_digit d). rewrite Hd.
    cbn [greedy]. by change (accepts Digit ".") with false.
Qed.

(** What the group finds after its sign. *)
Lemma after_sign_total (u : string) :
  (starts_digits u = false /\ match_here after_sign u = None)
  \/ exists v r,
       u = v +:+ r /\ starts_digits u = true
       /\ match_here after_sign u = Some r
       /\ numeral v /\ head_rejects Sign v /\ ends_number v r = true.
Proof.
  destruct (digits_split u) as (ds & tail & -> & Hds & Htail).
  assert (head_rejects Sign ds) as Hsign.
  { destruct ds as [|d ds]; [done|]. apply andb_prop in Hds as [Hd _].
    by apply digit_not_sign. }
  destruct tail as [|a tail].
  - (* the digits end the text *)
    destruct ds as [|d ds].
    + left. by split.
    + right. exists (String d ds), "".
      split; [done|]. split; [by apply starts_digits_digits|].
      split; [by apply match_after_sign_int|].
      split; [|done].
      by apply (numeral_int "" (String d ds)); [left|..].
  - cbn in Htail. destruct (Ascii.eqb a ".") eqn:Hdot.
    + apply Ascii.eqb_eq in Hdot as ->.
      destruct (digits_split tail) as (fs & rest & -> & Hfs & Hrest).
      destruct fs as [|f fs].
      * (* a point that no digit follows *)
        rewrite app_nil_l in *. destruct ds as [|d ds].
        -- left. rewrite app_nil_l. split.
           ++ cbn. destruct rest as [|b rest]; [done|]. cbn in Hrest.
              by rewrite Hrest.
           ++ unfold after_sign. cbn [match_here greedy].
              change (accepts Digit ".") with false. cbn iota.
              cbn. destruct rest as [|b rest]; [done|]. cbn in Hrest.
              by rewrite Hrest.
        -- right. exists (String d ds), (String "." rest).
           split; [done|]. split; [by apply starts_digits_digits|].
           split; [by apply match_after_sign_int_point|].
           split; [by apply (numeral_int "" (String d ds)); [left|..]|].
           split; [done|].
           cbn [ends_number]. change (is_digit ".") with false.
           change (Ascii.eqb "." ".") with true. cbn [negb andb orb].
           rewrite (has_point_digits _ Hds). cbn [orb].
           destruct rest as [|b rest]; [done|]. cbn in Hrest.
           by rewrite Hrest.
      * (* a point and digits *)
        right. exists (ds +:+ "." +:+ String f fs), rest.
        split; [by rewrite !app_assoc|]. split.
        { destruct ds as [|d ds].
          - rewrite app_nil_l. apply andb_prop in Hfs as [Hf _].
            unfold starts_digits. rewrite app_cons, Hf. done.
          - by apply starts_digits_digits. }
        split.
        { change (String "." (String f fs +:+ rest))
            with ("." +:+ String f fs +:+ rest).
          by apply match_after_sign_frac. }
        split; [by apply (numeral_frac "" ds (String f fs)); [left|..]|].
        split.
        { destruct ds as [|d ds]; [done|]. exact Hsign. }
        destruct rest as [|b rest]; [done|]. cbn in Hrest.
        cbn [ends_number]. rewrite Hrest. cbn [negb andb].
        rewrite !has_point_app. cbn [has_point].
        change (Ascii.eqb "." ".") with true.
        by rewrite orb_true_r, orb_true_r.
    + (* the digits are followed by something else *)
      destruct ds as [|d ds].
      * left. rewrite app_nil_l. split.
        -- cbn. by rewrite Htail, Hdot.
        -- unfold after_sign. cbn [match_here greedy].
           change (accepts Digit a) with (is_digit a). rewrite Htail.
           change (accepts Dot a) with (Ascii.eqb a "."). by rewrite Hdot.
      * right. exists (String d ds), (String a tail).
        split; [done|]. split; [by apply starts_digits_digits|].
        split.
        { apply match_after_sign_int; [done|done|].
          cbn. by rewrite Htail, Hdot. }
        split; [by apply (numeral_int "" (String d ds)); [left|..]|].
        split; [done|].
        cbn [ends_number]. by rewrite Htail, Hdot.
Qed.

Lemma has_point_sign (sgn v : string) :
  sign_text sgn -> has_point (sgn +:+ v) = has_point v.
Proof. by intros [->|[->| ->]]. Qed.

Lemma numeral_signed (a : ascii) (v : string) :
  accepts Sign a = true -> head_rejects Sign v -> numeral v ->
  numeral (String a v).
Proof.
  intros Ha Hv Hnum.
  assert (sign_text (String a "")) as Hsgn.
  { cbn in Ha. apply orb_prop in Ha as [->%Ascii.eqb_eq| ->%Ascii.eqb_eq];
      [right; by left|right; by right]. }
  assert (forall sgn body, sign_text sgn -> head_rejects Sign (sgn +:+ body) ->
            sgn +:+ body = body) as Hstrip.
  { intros sgn body [->|[->| ->]] Hrej; [done|done..]. }
  destruct Hnum as [sgn ds Hs Hds Hne|sgn ds fs Hs Hds Hfs Hne].
  - rewrite (Hstrip _ _ Hs Hv).
    by apply (numeral_int (String a "") ds).
  - rewrite (Hstrip _ _ Hs Hv).
    by apply (numeral_frac (String a "") ds fs).
Qed.

(** What the group finds at the head of a text: nothing when the text
    does not start with a number, and otherwise the number the text
    starts with, up to where it ends. *)
Lemma number_group_total (t : string) :
  (starts_number t = false /\ match_here number_group t = None)
  \/ exists v r,
       t = v +:+ r /\ starts_number t = true
       /\ match_here number_group t = Some r
       /\ numeral v /\ ends_number v r = true.
Proof.
  assert (forall u, match_here number_group u
                    = match u with
                      | String a u' =>
                          if accepts Sign a
                          then match match_here after_sign u' with
                               | Some rest => Some rest
                               | None => match_here after_sign u
                               end
                          else match_here after_sign u
                      | EmptyString => match_here after_sign u
                      end) as Hunfold by (by intros [|a u]).
  rewrite Hunfold. destruct t as [|a t].
  - destruct (after_sign_total "") as [[H1 H2]|(v & r & H1 & H2 & _)];
      [by left|done].
  - cbn [starts_number]. destruct (accepts Sign a) eqn:Ha.
    + assert (match_here after_sign (String a t) = None) as ->.
      { destruct (after_sign_total (String a t))
          as [[_ H]|(v & r & _ & H & _)]; [done|].
        cbn in H. cbn in Ha.
        apply orb_prop in Ha as [->%Ascii.eqb_eq| ->%Ascii.eqb_eq]; done. }
      destruct (after_sign_total t)
        as [[H1 H2]|(v & r & -> & H2 & H3 & H4 & H5 & H6)].
      * left. by rewrite H2.
      * right. exists (String a v), r. rewrite H3.
        split; [done|]. split; [done|]. split; [done|].
        split; [by apply numeral_signed|].
        destruct r as [|b r]; [done|]. cbn [ends_number has_point] in *.
        assert (Ascii.eqb a "." = false) as ->; [|done].
        cbn in Ha.
        apply orb_prop in Ha as [->%Ascii.eqb_eq| ->%Ascii.eqb_eq]; done.
    + destruct (after_sign_total (String a t))
        as [[H1 H2]|(v & r & H1 & H2 & H3 & H4 & H5 & H6)].
      * by left.
      * right. exists v, r. by rewrite H3.
Qed.

Lemma app_inv_tail (v v' r : string) : v +:+ r = v' +:+ r -> v = v'.
Proof.
  intros H.
  assert (String.length v = String.length v') as Hlen.
  { apply (f_equal String.length) in H. rewrite !length_app in H. lia. }
  revert v' H Hlen. induction v as [|a v IH]; intros [|a' v'] H Hlen;
    try done.
  rewrite !app_cons in H. injection H as -> H. f_equal.
  apply IH; [done|]. cbn in Hlen. lia.
Qed.

(** What [field_match] finds in a line: nothing when no occurrence of
    the letter is followed by a number, and otherwise the number after
    the first occurrence that is followed by one. *)
Lemma field_match_total (letter : ascii) (s : string) :
  (field_match letter s = None
   /\ forall pre post, s = pre +:+ String letter post ->
        starts_number post = false)
  \/ exists pre v rest,
       s = pre +:+ String letter (v +:+ rest)
       /\ (forall pre1 post1, pre = pre1 +:+ String letter post1 ->
             starts_number (post1 +:+ String letter (v +:+ rest)) = false)
       /\ numeral v /\ ends_number v rest = true
       /\ field_match letter s = Some v.
Proof.
  induction s as [|a s IH].
  - left. split; [done|]. by intros [|b pre] post.
  - cbn [field_match match_at].
    destruct (Ascii.eqb a letter) eqn:Ha.
    + apply Ascii.eqb_eq in Ha as ->.
      destruct (number_group_total s)
        as [[H1 H2]|(v & r & -> & H2 & H3 & H4 & H5)].
      * rewrite H2.
        destruct IH as [[I1 I2]|(pre & v & rest & -> & I2 & I3 & I4 & I5)].
        -- left. split; [done|]. intros [|b pre] post.
           ++ rewrite app_nil_l. by intros [= <-].
           ++ rewrite app_cons. intros [= <- ->]. by eapply I2.
        -- right. exists (String letter pre), v, rest. rewrite I5.
           split; [done|]. split; [|done].
           intros [|b pre1] post1.
           ++ rewrite app_nil_l. by intros [= <-].
           ++ rewrite app_cons. intros [= <- ->]. by eapply I2.
      * rewrite H3. right. exists "", v, r. rewrite capture_prefix.
        split; [done|]. split; [|done]. by intros [|b pre1] post1.
    + apply Ascii.eqb_neq in Ha.
      destruct IH as [[I1 I2]|(pre & v & rest & -> & I2 & I3 & I4 & I5)].
      * left. split; [done|]. intros [|b pre] post.
        -- rewrite app_nil_l. by intros [= -> _].
        -- rewrite app_cons. intros [= <- ->]. by eapply I2.
      * right. exists (String a pre), v, rest. rewrite I5.
        split; [done|]. split; [|done].
        intros [|b pre1] post1.
        -- rewrite app_nil_l. by intros [= -> _].
        -- rewrite app_cons. intros [= <- ->]. by eapply I2.
Qed.

End RegexTotal.

(** C7, as the code has it.  The feed rate of a decoded motion is 500
    exactly when no F of the line is followed by a number; otherwise it
    is what [parseFloat] reads from the number after the first F that
    is followed by one, taken up to where the number ends, with its
    sign and as written: zero and negative values included. *)
Theorem feed_rate_default_or_as_written
    (command : string) (targetStates : JointState)
    (feedRate : JsNumber.number) :
  Codec.decode command = Codec.Motion targetStates feedRate ->
  (feedRate = JsNumber.of_Z 500
   /\ forall pre post,
        Decimal10.trim command = pre +:+ String "F" post ->
        Regex.starts_number post = false)
  \/ exists pre num rest,
       Decimal10.trim command = pre +:+ String "F" (num +:+ rest)
       /\ (forall pre1 post1,
             pre = pre1 +:+ String "F" post1 ->
             Regex.starts_number (post1 +:+ String "F" (num +:+ rest)) = false)
       /\ Regex.numeral num
       /\ Regex.ends_number num rest = true
       /\ feedRate = Decimal10.parseFloat num.
Proof.
  intros Hdec. apply CodecFacts.decode_Motion_inv in Hdec.
  pose proof (CodecFacts.parse_G06_feedRate (Decimal10.trim command)) as Hf.
  rewrite Hdec in Hf. cbn [snd] in Hf.
  destruct (RegexTotal.field_match_total "F" (Decimal10.trim command))
    as [[H1 H2]|(pre & num & rest & H1 & H2 & H3 & H4 & H5)].
  - left. rewrite H1 in Hf. by split.
  - right. exists pre, num, rest. rewrite H5 in Hf. by repeat split.
Qed.

Lemma feed_rate_default_or_as_written_witness :
  let command := "G06 X10 Fast F-0.5 F7" in
  let feedRate := Decimal10.parseFloat "-0.5" in
  (feedRate = JsNumber.of_Z 500
   /\ forall pre post,
        Decimal10.trim command = pre +:+ String "F" post ->
        Regex.starts_number post = false)
  \/ exists pre num rest,
       Decimal10.trim command = pre +:+ String "F" (num +:+ rest)
       /\ (forall pre1 post1,
             pre = pre1 +:+ String "F" post1 ->
             Regex.starts_number (post1 +:+ String "F" (num +:+ rest)) = false)
       /\ Regex.numeral num
       /\ Regex.ends_number num rest = true
       /\ feedRate = Decimal10.parseFloat num.
Proof.
  apply (feed_rate_default_or_as_written "G06 X10 Fast F-0.5 F7"
           (Codec.parse_G06 "G06 X10 Fast F-0.5 F7").1).
  reflexivity.
Defined.


(** ** The wire codec over binary64 *)

Module Binary64Facts.
Import JsString JsStringFacts Decimal10 Decimal10Facts Regex RegexFacts.
Import FixedFacts EncodeFacts Binary64.

Lemma identical_eq (a b : spec_float) : identical a b = true -> a = b.
Proof.
  destruct a as [s|s| |s m e], b as [t|t| |t n f]; cbn; try done.
  - by intros ->%Bool.eqb_prop.
  - by intros ->%Bool.eqb_prop.
  - intros [[->%Bool.eqb_prop ->%Pos.eqb_eq]%andb_prop ->%Z.eqb_eq]%andb_prop.
    done.
Qed.



Lemma prints_fixed_inv (v : option spec_float) :
  prints_fixed v ->
  exists x, value (radToDeg (or_zero v)) = JsNumber.Fin x
            /\ (Qabs x < ten_to_21)%Q.
Proof.
  unfold prints_fixed.
  destruct (value (radToDeg (or_zero v))) as [x| | |]; try done.
  intros H. by exists x.
Qed.

Lemma field_text_plain (exponential : Q -> string)
    (jointStates : gmap string spec_float) (joint : string) :
  prints_fixed (jointStates !! joint) ->
  Codec.plain (field_text exponential jointStates joint).
Proof.
  intros (x & Hx & Hrange)%prints_fixed_inv.
  unfold field_text, toFixed1. rewrite Hx. split.
  - by apply toFixed1_numeral.
  - intros c. by apply toFixed1_chars.
Qed.

Lemma parse_G06_field (cmd : string) (letter : ascii) (joint : string) :
  (letter, joint) ∈ Codec.axes ->
  (parse_G06 cmd).1 !! joint
  = (fun capture => degToRad (parseFloat capture)) <$> field_match letter cmd.
Proof.
  intros Hin. unfold parse_G06, Codec.axes in *. cbn [fst].
  repeat (apply elem_of_cons in Hin as [[= -> ->]|Hin];
          [unfold assign_field;
           repeat match goal with
                  | |- context [field_match ?l cmd] =>
                      destruct (field_match l cmd)
                  end; by simplify_map_eq|]).
  by apply elem_of_nil in Hin.
Qed.

Section Fields.
Variables x y z w u v : string.
Hypothesis Hx : Codec.plain x.
Hypothesis Hy : Codec.plain y.
Hypothesis Hz : Codec.plain z.
Hypothesis Hw : Codec.plain w.
Hypothesis Hu : Codec.plain u.
Hypothesis Hv : Codec.plain v.

(** The line decodes to a motion that names all six joints, each
    with the value read from its field, at feed rate 500. *)
Lemma decode_fields :
  exists targetStates,
    decode (Codec.command_text x y z w u v)
    = Motion targetStates (of_Z 500)
    /\ targetStates !! "theta1" = Some (degToRad (parseFloat x))
    /\ targetStates !! "theta2" = Some (degToRad (parseFloat y))
    /\ targetStates !! "theta3" = Some (degToRad (parseFloat z))
    /\ targetStates !! "theta4" = Some (degToRad (parseFloat w))
    /\ targetStates !! "theta5" = Some (degToRad (parseFloat u))
    /\ targetStates !! "theta6" = Some (degToRad (parseFloat v)).
Proof.
  set (body := Codec.command_body x y z w u v).
  exists (parse_G06 body).1.
  assert (forall letter joint t, (letter, joint) ∈ Codec.axes ->
            field_match letter body = Some t ->
            (parse_G06 body).1 !! joint = Some (degToRad (parseFloat t)))
    as Hfield.
  { intros letter joint t Hin Hm.
    by rewrite (parse_G06_field body letter joint Hin), Hm. }
  pose proof (Hfield "X"%char "theta1" x ltac:(unfold Codec.axes; listed)
                (body_X x y z w u v Hx)) as H1.
  split; [|repeat split].
  - unfold decode. rewrite trim_command_text. fold body.
    assert (parse_G06 body = ((parse_G06 body).1, of_Z 500)) as Hp.
    { rewrite (surjective_pairing (parse_G06 body)) at 1. f_equal.
      unfold parse_G06. cbn [snd]. unfold body.
      rewrite (body_F x y z w u v) by done. by vm_compute. }
    assert ((0 <? size (parse_G06 body).1)%nat = true) as Hsize.
    { apply Nat.ltb_lt.
      destruct (size (parse_G06 body).1) eqn:Hs; [|lia].
      apply map_size_empty_iff in Hs. rewrite Hs in H1.
      by rewrite lookup_empty in H1. }
    change (match body with
            | "" => Ignored
            | String _ _ =>
                if String.prefix "G06" body
                then let '(newJointStates, feedRate) := parse_G06 body in
                     if (0 <? size newJointStates)%nat
                     then Motion newJointStates feedRate else Ignored
                else Ignored
            end)
      with (let '(newJointStates, feedRate) := parse_G06 body in
            if (0 <? size newJointStates)%nat
            then Motion newJointStates feedRate else Ignored).
    rewrite Hp. cbn beta iota. by rewrite Hsize.
  - exact H1.
  - apply (Hfield "Y"%char); [unfold Codec.axes; listed|by apply body_Y].
  - apply (Hfield "Z"%char); [unfold Codec.axes; listed|by apply body_Z].
  - apply (Hfield "W"%char); [unfold Codec.axes; listed|by apply body_W].
  - apply (Hfield "U"%char); [unfold Codec.axes; listed|by apply body_U].
  - apply (Hfield "V"%char); [unfold Codec.axes; listed|by apply body_V].
Qed.
End Fields.

End Binary64Facts.

(** The angles that one-decimal fields within 360 degrees decode to:
    each of the 7201 is evaluated. *)

Module GridFacts.
Import JsString JsStringFacts Decimal10 Decimal10Facts Regex RegexFacts.
Import FixedFacts EncodeFacts Binary64 Binary64Facts.

Lemma grid_checked : forallb on_grid (seqZ (-3600) 7201) = true.
Proof. by vm_compute. Qed.

Lemma grid (k : Z) : (-3600 <= k <= 3600)%Z -> on_grid k = true.
Proof.
  intros Hk. pose proof grid_checked as H.
  rewrite forallb_forall in H. apply H. apply list_elem_of_In.
  apply elem_of_seqZ. lia.
Qed.

Lemma reads_back_spec (exponential : Q -> string) (a : spec_float) :
  reads_back a = true ->
  prints_fixed (Some a)
  /\ degToRad (parseFloat (toFixed1 exponential (radToDeg (or_zero (Some a)))))
     = a.
Proof.
  unfold reads_back, prints_fixed, toFixed1.
  destruct (value (radToDeg (or_zero (Some a)))) as [x| | |]; try done.
  intros [Hr Hi]%andb_prop. apply negb_true_iff in Hr.
  assert (Qabs x < ten_to_21)%Q as Hrange.
  { apply Qnot_le_lt. intros Hle. apply Qle_bool_iff in Hle. congruence. }
  split; [done|]. apply identical_eq in Hi.
  by rewrite (toFixed1_fixed exponential), <- (toFixed1_fixed (fun _ => ""%string)).
Qed.

End GridFacts.




(* ===================================================================== *)
(** * The connection statements *)
(* ===================================================================== *)

Module ComponentFacts.
Import JsNumber Codec Component.

(** Unfolds the state updates down to the fields they change. *)
Ltac fields :=
  unfold acks in *;
  cbn [cells home_jointStates loops frames timers calls next_handle now
       isMoving isConnected isConnecting port reader writer log
       isWebSerialSupported bound jointStates onDataReceived
       scope targetStates startStates startTime duration
       setTimeout requestAnimationFrame addToLog setIsMoving
       setIsConnected setIsConnecting setPort setReader setWriter
       handleSerialDataReceived record_call set_loops set_frames
       set_timers set_now end_loop set_cells fresh_handle render] in *.

(** What a call of [smoothMoveTo] leaves behind: nothing, or one more
    animation callback, created in the caller's scope. *)
Lemma smoothMoveTo_effect (sc : Scope) (target : JointState) (f : number)
    (w : World) :
  let w' := smoothMoveTo sc target f w in
  loops w' = loops w /\ timers w' = timers w /\ calls w' = calls w
  /\ now w' = now w /\ home_jointStates w' = home_jointStates w
  /\ (frames w' = frames w
      \/ exists a, frames w' = frames w ++ [a] /\ scope a = sc
                   /\ targetStates a = target).
Proof.
  unfold smoothMoveTo.
  destruct (isMoving (bound sc) || negb (onDataReceived sc)).
  - repeat split; auto.
  - fields. repeat split; auto. right. by eexists.
Qed.

Lemma processCommand_effect (sc : Scope) (command : string) (w : World) :
  let w' := processCommand sc command w in
  loops w' = loops w /\ timers w' = timers w /\ calls w' = calls w
  /\ now w' = now w /\ home_jointStates w' = home_jointStates w
  /\ (frames w' = frames w
      \/ exists a, frames w' = frames w ++ [a] /\ scope a = sc).
Proof.
  unfold processCommand.
  destruct (Decimal10.trim command) as [|c s]; [by repeat split; auto|].
  destruct (String.prefix "G06" (String c s)); [|by repeat split; auto].
  destruct (parse_G06 (String c s)) as [target f].
  destruct (0 <? size target)%nat; [|by repeat split; auto].
  destruct (smoothMoveTo_effect sc target f
              (addToLog (LogMovingTo f)
                 (addToLog (LogReceived (String c s)) w)))
    as (H1 & H2 & H3 & H4 & H5 & H6).
  repeat split; try done.
  destruct H6 as [H6|(a & H6 & Ha & _)]; [by left|right; by exists a].
Qed.

(** The closures left by the commands of one chunk. *)
Lemma commands_effect (sc : Scope) (commands : list string) (w : World) :
  let w' := foldl (fun w command => processCommand sc command w) w commands in
  loops w' = loops w /\ timers w' = timers w /\ calls w' = calls w
  /\ now w' = now w
  /\ exists added, frames w' = frames w ++ added
                   /\ Forall (fun a => scope a = sc) added.
Proof.
  revert w. induction commands as [|command commands IH]; intros w.
  - repeat split; try done. exists []. by rewrite app_nil_r.
  - cbn [foldl].
    destruct (processCommand_effect sc command w) as (H1 & H2 & H3 & H4 & _ & H6).
    destruct (IH (processCommand sc command w))
      as (I1 & I2 & I3 & I4 & added & I5 & I6).
    cbn zeta in *. rewrite I1, I2, I3, I4, I5, H1, H2, H3, H4.
    repeat split; try done.
    destruct H6 as [->|(a & -> & Ha)].
    + by exists added.
    + exists (a :: added). rewrite <- app_assoc. split; [done|].
      by constructor.
Qed.

Lemma animate_effect (a : Animation) (w : World) :
  let w' := animate a w in
  loops w' = loops w /\ calls w' = calls w /\ now w' = now w
  /\ ((frames w' = frames w ++ [a] /\ timers w' = timers w)
      \/ (frames w' = frames w
          /\ timers w' = timers w ++ [((now w + 50)%Z, scope a)])).
Proof.
  unfold animate.
  destruct (ltb (progress_at a (now w)) (of_Z 1)); fields;
    repeat split; auto.
Qed.

Lemma Forall_filter_keeps {A} (P : A -> Prop) (Q : A -> Prop)
    `{!forall x, Decision (Q x)} (l : list A) :
  Forall P l -> Forall P (filter Q l).
Proof.
  rewrite !Forall_forall. intros Hall x [_ Hx]%list_elem_of_filter.
  by apply Hall.
Qed.

Lemma initial_unconnected : closures_unconnected initial.
Proof. repeat split; by constructor. Qed.

Lemma addToLog_unconnected (e : LogEntry) (w : World) :
  closures_unconnected w -> closures_unconnected (addToLog e w).
Proof. intros Hw. exact Hw. Qed.

Lemma connectToSerial_unconnected (opened : bool) (w : World) :
  isConnected (cells w) = false ->
  closures_unconnected w ->
  closures_unconnected (connectToSerial (render w) opened w).
Proof.
  intros Hoff Hw. unfold connectToSerial.
  destruct (negb (isWebSerialSupported (bound (render w)))); [exact Hw|].
  destruct opened; [|exact Hw].
  destruct Hw as (Hl & Hf & Ht & Ha).
  unfold closures_unconnected, fresh_handle. fields.
  split; [|split; [|split]]; [|assumption..].
  apply Forall_app. split; [assumption|].
  apply Forall_singleton. exact Hoff.
Qed.

Lemma release_unconnected (target : option handle)
    (call : handle -> bool -> SerialCall) (ok : bool)
    (clear : handle -> World -> World) (w : World) :
  (forall h b, is_ok_write (call h b) = false) ->
  (forall h w, closures_unconnected w -> closures_unconnected (clear h w)) ->
  closures_unconnected w ->
  closures_unconnected (release target call ok clear w).1.
Proof.
  intros Hcall Hclear Hw. unfold release. destruct target as [h|]; [|done].
  assert (closures_unconnected (record_call (call h ok) w)) as Hrec.
  { destruct Hw as (Hl & Hf & Ht & Ha). unfold closures_unconnected. fields.
    repeat split; try done. rewrite filter_app, Ha. cbn.
    pose proof (Hcall h ok) as Hno.
    destruct (decide (is_ok_write (call h ok))) as [Hyes|_]; [|done].
    by rewrite Hno in Hyes. }
  destruct ok; cbn [fst]; auto.
Qed.

Lemma disconnectSerial_unconnected (sc : Scope) (c1 c2 c3 : bool) (w : World) :
  closures_unconnected w ->
  closures_unconnected (disconnectSerial sc c1 c2 c3 w).
Proof.
  intros Hw. unfold disconnectSerial.
  pose proof addToLog_unconnected as Hlog.
  pose proof (release_unconnected (reader (bound sc)) ReaderCancel c1
                (fun h w => setReader None (end_loop h w)) w) as H1.
  destruct (release (reader (bound sc)) ReaderCancel c1 _ w) as [w1 k1].
  cbn [fst] in H1.
  assert (closures_unconnected w1) as Hw1.
  { apply H1; [done| |done]. intros h w0 (Hl & Hf & Ht & Ha).
    unfold closures_unconnected. fields. repeat split; try done.
    by apply Forall_filter_keeps. }
  destruct k1; cbn [negb]; [|by apply Hlog].
  pose proof (release_unconnected (writer (bound sc)) WriterClose c2
                (fun _ => setWriter None) w1) as H2.
  destruct (release (writer (bound sc)) WriterClose c2 _ w1) as [w2 k2].
  cbn [fst] in H2.
  assert (closures_unconnected w2) as Hw2 by (by apply H2).
  destruct k2; cbn [negb]; [|by apply Hlog].
  pose proof (release_unconnected (port (bound sc)) PortClose c3
                (fun _ => setPort None) w2) as H3.
  destruct (release (port (bound sc)) PortClose c3 _ w2) as [w3 k3].
  cbn [fst] in H3.
  assert (closures_unconnected w3) as Hw3 by (by apply H3).
  destruct k3; cbn [negb]; by apply Hlog.
Qed.

Lemma deliver_unconnected (h : handle) (value : string)
    (ls : list ReadLoop) (w : World) :
  Forall (fun l => unconnected (loop_scope l)) ls ->
  closures_unconnected w ->
  let '(ls', w') := deliver h value ls w in
  Forall (fun l => unconnected (loop_scope l)) ls'
  /\ closures_unconnected w'.
Proof.
  revert w. induction ls as [|l ls IH]; intros w Hls Hw; [done|].
  apply Forall_cons in Hls as [Hl Hls]. cbn [deliver].
  destruct (decide (loop_reader l = h)) as [_|_].
  - unfold on_read. destruct (LineReader.on_chunk (buffer l) value)
      as [commands buffer'].
    destruct (commands_effect (loop_scope l) commands w)
      as (H1 & H2 & H3 & _ & added & H5 & H6).
    cbn zeta in *. split.
    + by constructor.
    + destruct Hw as (Wl & Wf & Wt & Wa). unfold closures_unconnected, acks.
      rewrite H1, H2, H3, H5. repeat split; try done.
      apply Forall_app. split; [done|].
      eapply Forall_impl; [exact H6|]. by intros a ->.
  - specialize (IH w Hls Hw). destruct (deliver h value ls w) as [ls' w'].
    destruct IH as [IH1 IH2]. split; [by constructor|done].
Qed.

Lemma animate_all_unconnected (queue : list Animation) (w : World) :
  Forall (fun a => unconnected (scope a)) queue ->
  closures_unconnected w ->
  closures_unconnected (foldl (fun w a => animate a w) w queue).
Proof.
  revert w. induction queue as [|a queue IH]; intros w Hq Hw; [done|].
  apply Forall_cons in Hq as [Ha Hq]. cbn [foldl]. apply IH; [done|].
  destruct Hw as (Wl & Wf & Wt & Wa).
  destruct (animate_effect a w) as (H1 & H2 & _ & H4). cbn zeta in *.
  unfold closures_unconnected, acks. rewrite H1, H2.
  destruct H4 as [[-> ->]|[-> ->]]; repeat split; try done;
    apply Forall_app; split; try done; by repeat constructor.
Qed.

Lemma sendOkResponse_unconnected (sc : Scope) (write_ok : bool) (w : World) :
  unconnected sc -> sendOkResponse sc write_ok w = w.
Proof.
  unfold unconnected, sendOkResponse. intros ->. by destruct (writer (bound sc)).
Qed.

(** No event breaks [closures_unconnected]. *)
Lemma step_unconnected (w : World) (e : Event) :
  closures_unconnected w -> closures_unconnected (step w e).
Proof.
  intros Hw. destruct e as [opened|c1 c2 c3|h value| |ms|write_ok]; cbn [step].
  - destruct (isConnected (cells w)) eqn:Hc; [done|].
    destruct (isConnecting (cells w)); [done|].
    by apply connectToSerial_unconnected.
  - destruct (isConnected (cells w)); [|done].
    by apply disconnectSerial_unconnected.
  - pose proof (deliver_unconnected h value (loops w) w (proj1 Hw) Hw) as Hd.
    destruct (deliver h value (loops w) w) as [ls' w'].
    destruct Hd as [Hls (Wl & Wf & Wt & Wa)].
    unfold closures_unconnected. fields. by repeat split.
  - destruct Hw as (Wl & Wf & Wt & Wa).
    apply animate_all_unconnected; [done|].
    unfold closures_unconnected. fields. repeat split; try done.
  - destruct Hw as (Wl & Wf & Wt & Wa).
    unfold closures_unconnected. fields. by repeat split.
  - destruct (timers w) as [|[due sc] rest] eqn:Ht; [done|].
    destruct (due <=? now w)%Z; [|done].
    destruct Hw as (Wl & Wf & Wt & Wa). rewrite Ht in Wt.
    apply Forall_cons in Wt as [Hsc Hrest]. cbn [snd] in Hsc.
    rewrite sendOkResponse_unconnected by done.
    unfold closures_unconnected. fields. by repeat split.
Qed.



Lemma disconnectSerial_motion (sc : Scope) (c1 c2 c3 : bool) (w : World) :
  let w' := disconnectSerial sc c1 c2 c3 w in
  frames w' = frames w /\ timers w' = timers w
  /\ isMoving (cells w') = isMoving (cells w)
  /\ home_jointStates w' = home_jointStates w.
Proof.
  unfold disconnectSerial, release.
  destruct (reader (bound sc)), (writer (bound sc)), (port (bound sc)),
    c1, c2, c3; by cbn.
Qed.

(** *** The duration of a motion *)

Lemma or_zero_finite (s : JointState) (joint : string) :
  finite_state s -> exists q, or_zero (s !! joint) = Fin q.
Proof.
  intros Hs. destruct (s !! joint) as [a|] eqn:Ha; [|by exists 0%Q].
  apply Hs in Ha. destruct a as [q| | |]; try done.
  cbn. destruct (is_zero q); eauto.
Qed.

Lemma angleDiffDeg_finite (start target : JointState) (joint : string) :
  finite_state start -> finite_state target ->
  exists d, angleDiffDeg start target joint = Fin d.
Proof.
  intros Hs Ht. unfold angleDiffDeg.
  destruct (or_zero_finite start joint Hs) as [x ->].
  destruct (or_zero_finite target joint Ht) as [y ->].
  by eexists.
Qed.

Lemma max2_Fin (x y : Q) :
  max2 (Fin x) (Fin y) = Fin (if ltb (Fin x) (Fin y) then y else x).
Proof. unfold max2. by destruct (ltb (Fin x) (Fin y)). Qed.

Lemma ltb_Fin (x y : Q) : ltb (Fin x) (Fin y) = true <-> (x < y)%Q.
Proof.
  unfold ltb. rewrite Qlt_alt. destruct (x ?= y)%Q; split; done.
Qed.

Lemma ltb_Fin_false (x y : Q) : ltb (Fin x) (Fin y) = false <-> (y <= x)%Q.
Proof.
  rewrite <- not_true_iff_false, ltb_Fin. split.
  - apply Qnot_lt_le.
  - intros H1 H2. by apply (Qle_not_lt _ _ H1).
Qed.

(** [Math.max] of finitely many finite numbers is one of them and bounds
    them all. *)
Lemma Math_max_finite (l : list number) :
  l <> [] -> Forall (fun a => is_finite a = true) l ->
  exists m, Math_max l = Fin m /\ Fin m ∈ l
            /\ forall d, Fin d ∈ l -> (d <= m)%Q.
Proof.
  induction l as [|a l IH]; [done|]. intros _ [Ha Hl]%Forall_cons.
  destruct a as [x| | |]; try done. destruct l as [|b l].
  - exists x. split; [done|]. split; [by left|].
    intros d [[= ->]|[]%elem_of_nil]%elem_of_cons. apply Qle_refl.
  - destruct (IH ltac:(done) Hl) as (m & Hm & Hin & Hmax).
    change (Math_max (Fin x :: b :: l)) with (max2 (Fin x) (Math_max (b :: l))).
    rewrite Hm, max2_Fin. destruct (ltb (Fin x) (Fin m)) eqn:Hlt.
    + apply ltb_Fin in Hlt. exists m. split; [done|]. split; [by right|].
      intros d [[= ->]|Hd]%elem_of_cons; [by apply Qlt_le_weak|auto].
    + apply ltb_Fin_false in Hlt. exists x. split; [done|]. split; [by left|].
      intros d [[= ->]|Hd]%elem_of_cons; [apply Qle_refl|].
      eapply Qle_trans; [by apply Hmax|done].
Qed.

Lemma elem_of_keys (o : JointState) (joint : string) :
  joint ∈ keys o <-> is_Some (o !! joint).
Proof.
  unfold keys. rewrite list_elem_of_fmap. split.
  - intros ([k a] & -> & Hin%elem_of_map_to_list). by exists a.
  - intros [a Ha]. exists (joint, a). split; [done|].
    by apply elem_of_map_to_list.
Qed.

Lemma div_Fin (x y : Q) : ~ (y == 0)%Q -> div (Fin x) (Fin y) = Fin (x / y)%Q.
Proof.
  intros Hy. unfold div, is_zero.
  destruct (y ?= 0)%Q eqn:Hc; try done. by apply Qeq_alt in Hc.
Qed.

End ComponentFacts.

(** C9, against the claim: when [reader.cancel()] rejects, the writer and
    the port are not released and the component still shows Connected. *)
Lemma failed_release_aborts_disconnect :
  let connected := Component.run Component.initial [Component.ClickConnect true] in
  let w := Component.step connected (Component.ClickDisconnect false true true) in
  Component.isConnected (Component.cells connected) = true
  /\ Component.calls w = [Component.ReaderCancel 0 false]
  /\ Component.writer (Component.cells w) = Some 0%nat
  /\ Component.port (Component.cells w) = Some 0%nat
  /\ Component.isConnected (Component.cells w) = true
  /\ Component.log (Component.cells w)
     = [Component.LogConnected; Component.LogDisconnectError].
Proof. by vm_compute. Qed.

(** C9, as the code has it.  Clicking Disconnect releases the reader,
    then the writer, then the port, each only if the one before went
    through; the first rejection is logged and ends the call with the
    connection flag unchanged.  When all go through the three cells are
    cleared and the flag is false, and a second call releases nothing and
    leaves the flag false. *)
Theorem disconnect_releases_in_order_until_failure
    (w : Component.World) (cancel_ok writer_close_ok port_close_ok : bool) :
  let sc := Component.render w in
  let c := Component.cells w in
  let w' := Component.disconnectSerial sc cancel_ok writer_close_ok port_close_ok w in
  let r := Component.released (Component.reader c) cancel_ok in
  let wr := Component.released (Component.writer c) writer_close_ok in
  let p := Component.released (Component.port c) port_close_ok in
  Component.calls w'
  = Component.calls w
    ++ Component.release_call (Component.reader c) Component.ReaderCancel cancel_ok
    ++ (if r
        then Component.release_call (Component.writer c) Component.WriterClose writer_close_ok
             ++ (if wr
                 then Component.release_call (Component.port c) Component.PortClose port_close_ok
                 else [])
        else [])
  /\ (if r && wr && p
      then Component.isConnected (Component.cells w') = false
           /\ Component.reader (Component.cells w') = None
           /\ Component.writer (Component.cells w') = None
           /\ Component.port (Component.cells w') = None
           /\ Component.log (Component.cells w')
              = Component.last_nine (Component.log c) ++ [Component.LogDisconnected]
           /\ forall c1 c2 c3,
                let w'' := Component.disconnectSerial (Component.render w') c1 c2 c3 w' in
                Component.calls w'' = Component.calls w'
                /\ Component.isConnected (Component.cells w'') = false
      else Component.isConnected (Component.cells w') = Component.isConnected c
           /\ Component.log (Component.cells w')
              = Component.last_nine (Component.log c) ++ [Component.LogDisconnectError]).
Proof.
  destruct w as [[po ic ig rd wr lg mv sup] home ls fs ts cs nh t].
  destruct rd as [hr|], wr as [hw|], po as [hp|];
    destruct cancel_ok, writer_close_ok, port_close_ok;
    cbn; rewrite <- ?app_assoc, ?app_nil_r; repeat split; done.
Qed.

(** C5: the guard of [smoothMoveTo] reads the [isMoving] of the render in
    which Connect was clicked, not the cell that [setIsMoving(true)]
    changed.  A second command that arrives while the first motion is
    under way is accepted: two animation callbacks are queued, and the
    next frame runs both. *)
Theorem second_command_is_not_rejected :
  let line (s : string) := s +:+ String JsString.newline "" in
  let first :=
    Component.run Component.initial
      [Component.ClickConnect true;
       Component.Chunk 0 (line "G06 X90 F500");
       Component.AnimationFrame; Component.Elapse 1000] in
  let second := Component.step first (Component.Chunk 0 (line "G06 Y45 F500")) in
  let same_chunk :=
    Component.run Component.initial
      [Component.ClickConnect true;
       Component.Chunk 0 (line "G06 X90 F500" +:+ line "G06 Y45 F500")] in
  Component.isMoving (Component.cells first) = true
  /\ (Component.keys ∘ Component.targetStates <$> Component.frames first)
     = [["theta1"]]
  /\ (Component.keys ∘ Component.targetStates <$> Component.frames second)
     = [["theta1"]; ["theta2"]]
  /\ (Component.keys ∘ Component.targetStates <$> Component.frames same_chunk)
     = [["theta1"]; ["theta2"]]
  /\ length (Component.frames (Component.step second Component.AnimationFrame)) = 2%nat.
Proof. by vm_compute. Qed.



(* ===================================================================== *)
(** * Further properties of the code *)
(* ===================================================================== *)

(** ** The read loop *)

Module LineReaderMore.
Import JsString JsStringFacts LineReader LineReaderFacts.

Lemma split_lines_lines_clean (s : string) :
  Forall (fun l => ~ occurs newline l) (split_lines s).1.
Proof.
  induction s as [|a s IH]; simpl; [constructor|].
  destruct (split_lines s) as [ls tl]. simpl in IH.
  destruct (Ascii.eqb_spec a newline) as [->|Hne].
  - constructor; [simpl; tauto|done].
  - destruct ls as [|l ls]; simpl; [constructor|].
    apply Forall_cons in IH as [Hl Hls]. constructor; [|done].
    simpl. tauto.
Qed.

Lemma split_lines_rebuild (s : string) :
  concat (terminate <$> (split_lines s).1) +:+ (split_lines s).2 = s.
Proof.
  induction s as [|a s IH]; [done|]. simpl.
  destruct (split_lines s) as [ls tl]. simpl in IH.
  destruct (Ascii.eqb_spec a newline) as [->|Hne].
  - cbn [fst snd]. rewrite fmap_cons, concat_cons. unfold terminate at 1.
    rewrite app_nil_l, app_assoc, app_cons, app_nil_l. by rewrite IH.
  - destruct ls as [|l ls]; cbn [fst snd].
    + cbn in IH. rewrite app_nil_l in IH. cbn. rewrite app_nil_l. by rewrite IH.
    + rewrite fmap_cons, concat_cons in *. unfold terminate at 1.
      unfold terminate at 1 in IH.
      rewrite !app_assoc, app_cons. rewrite !app_assoc in IH. by rewrite IH.
Qed.

End LineReaderMore.

(** X1. Whatever the reader delivers, when [readSerialData] waits for
    the next chunk its buffer holds no line terminator, and no command
    it has handed to [processCommand] contains one. *)
Theorem buffer_holds_no_terminator (chunks : list string) :
  JsString.indexOf JsString.newline (LineReader.readSerialData chunks).2 = None
  /\ Forall (fun command => JsString.indexOf JsString.newline command = None)
       (LineReader.readSerialData chunks).1.
Proof.
  unfold LineReader.readSerialData.
  rewrite LineReaderFacts.read_chunks_concat by (simpl; tauto). split.
  - apply JsStringFacts.indexOf_None, LineReaderFacts.split_lines_tail_clean.
  - eapply Forall_impl; [apply LineReaderMore.split_lines_lines_clean|].
    intros l. apply JsStringFacts.indexOf_None.
Qed.

(** X2. The read loop neither loses nor invents a character: the
    commands handed over, each with its terminator put back, followed by
    what is left in the buffer, are the text received. *)
Theorem read_loop_loses_nothing (chunks : list string) :
  JsString.concat (LineReader.terminate <$> (LineReader.readSerialData chunks).1)
  +:+ (LineReader.readSerialData chunks).2
  = JsString.concat chunks.
Proof.
  unfold LineReader.readSerialData.
  rewrite LineReaderFacts.read_chunks_concat by (simpl; tauto).
  rewrite JsStringFacts.app_nil_l. apply LineReaderMore.split_lines_rebuild.
Qed.

(** ** What [processCommand] reads from a line *)

Module CodecMore.
Import JsString JsStringFacts JsNumber Decimal10 Regex RegexFacts Codec.
Import CodecFacts.




End CodecMore.

(** X3. A field found by the pattern of [processCommand] is a
    well-formed number: it stands in the line right after the first
    occurrence of its letter that is followed by a number, and it is
    that number up to where it ends. *)
Theorem matched_field_is_a_number (letter : ascii) (line capture : string) :
  Regex.field_match letter line = Some capture ->
  Regex.numeral capture
  /\ exists pre rest,
       line = pre +:+ String letter (capture +:+ rest)
       /\ Regex.ends_number capture rest = true
       /\ forall pre1 post1,
            pre = pre1 +:+ String letter post1 ->
            Regex.starts_number
              (post1 +:+ String letter (capture +:+ rest)) = false.
Proof.
  intros Hm.
  destruct (RegexTotal.field_match_total letter line)
    as [[H _]|(pre & v & rest & H1 & H2 & H3 & H4 & H5)]; [congruence|].
  rewrite Hm in H5. injection H5 as <-.
  split; [exact H3|]. by exists pre, rest.
Qed.

Lemma matched_field_is_a_number_witness :
  Regex.numeral "-30.5"
  /\ exists pre rest,
       "G06 Y-30.5.2 F200" = pre +:+ String "Y" ("-30.5" +:+ rest)
       /\ Regex.ends_number "-30.5" rest = true
       /\ forall pre1 post1,
            pre = pre1 +:+ String "Y" post1 ->
            Regex.starts_number (post1 +:+ String "Y" ("-30.5" +:+ rest))
            = false.
Proof.
  apply (matched_field_is_a_number "Y" "G06 Y-30.5.2 F200" "-30.5").
  reflexivity.
Defined.



(** ** The component: lines that are not motions *)



(** ** From [sendJointStates] to the read loop of the peer *)

Module LoopbackFacts.
Import JsString JsStringFacts JsNumber Decimal10 Decimal10Facts.
Import Regex RegexFacts Codec CodecFacts FixedFacts EncodeFacts.

Lemma decode_trim (c1 c2 : string) :
  trim c1 = trim c2 -> decode c1 = decode c2.
Proof. unfold decode. by intros ->. Qed.

Lemma trim_command_body (x y z w u v : string) :
  trim (command_body x y z w u v) = command_body x y z w u v.
Proof.
  unfold trim. change (trimStart (command_body x y z w u v))
    with (command_body x y z w u v).
  assert (command_body x y z w u v
          = ("G06 X" +:+ x +:+ " Y" +:+ y +:+ " Z" +:+ z +:+ " W" +:+ w
             +:+ " U" +:+ u +:+ " V" +:+ v) +:+ " F500") as Heq.
  { unfold command_body. by rewrite !app_assoc. }
  rewrite Heq at 1. rewrite trimEnd_app by done. by rewrite Heq.
Qed.

Lemma command_body_one_line (x y z w u v : string) :
  plain x -> plain y -> plain z -> plain w -> plain u -> plain v ->
  ~ occurs newline (command_body x y z w u v).
Proof.
  intros Hx Hy Hz Hw Hu Hv. unfold command_body.
  rewrite !occurs_app. cbn [occurs]. intros Hocc.
  repeat (destruct Hocc as [Hocc|Hocc]); try discriminate; try done;
    match goal with
    | Hp : plain ?t, Ho : occurs _ ?t |- _ => by apply (proj2 Hp) in Ho
    end.
Qed.

Lemma command_text_body (x y z w u v : string) :
  command_text x y z w u v
  = LineReader.terminate (command_body x y z w u v).
Proof.
  unfold command_text, command_body, LineReader.terminate.
  by rewrite !app_assoc.
Qed.

End LoopbackFacts.

(** X7. The line that [sendJointStates] writes for a joint state whose
    angles (0 for the absent ones) print in fixed notation is exactly one
    complete line for a read loop: however it is cut into chunks, the
    loop hands over one command and keeps nothing in its buffer, and that
    command decodes to a motion at feed rate 500 that names all six
    joints; an angle that a field of one decimal within 360 degrees
    decodes to arrives as that same angle. *)
Theorem encoded_line_is_read_as_one_command
    (exponential : Q -> string) (jointStates : gmap string spec_float)
    (chunks : list string) :
  (forall joint, joint ∈ Codec.jointNames ->
     Binary64.prints_fixed (jointStates !! joint)) ->
  JsString.concat chunks = Binary64.encode exponential jointStates ->
  exists command targetStates,
    LineReader.readSerialData chunks = ([command], "")
    /\ Binary64.decode command
       = Binary64.Motion targetStates (Binary64.of_Z 500)
    /\ (forall joint, joint ∈ Codec.jointNames ->
          is_Some (targetStates !! joint))
    /\ forall joint k,
         joint ∈ Codec.jointNames -> (-3600 <= k <= 3600)%Z ->
         jointStates !! joint = Some (Binary64.angle_of_tenths k) ->
         targetStates !! joint = Some (Binary64.angle_of_tenths k).
Proof.
  intros Hall Hchunks.
  assert (forall joint, joint ∈ Codec.jointNames ->
            Codec.plain (Binary64.field_text exponential jointStates joint))
    as Hplain.
  { intros joint Hin. by apply Binary64Facts.field_text_plain, Hall. }
  pose proof (Hplain "theta1" ltac:(unfold Codec.jointNames; listed)) as Hp1.
  pose proof (Hplain "theta2" ltac:(unfold Codec.jointNames; listed)) as Hp2.
  pose proof (Hplain "theta3" ltac:(unfold Codec.jointNames; listed)) as Hp3.
  pose proof (Hplain "theta4" ltac:(unfold Codec.jointNames; listed)) as Hp4.
  pose proof (Hplain "theta5" ltac:(unfold Codec.jointNames; listed)) as Hp5.
  pose proof (Hplain "theta6" ltac:(unfold Codec.jointNames; listed)) as Hp6.
  destruct (Binary64Facts.decode_fields _ _ _ _ _ _
              Hp1 Hp2 Hp3 Hp4 Hp5 Hp6)
    as (targetStates & Hdec & H1 & H2 & H3 & H4 & H5 & H6).
  assert (forall joint, joint ∈ Codec.jointNames ->
            targetStates !! joint
            = Some (Binary64.degToRad
                      (Binary64.parseFloat
                         (Binary64.field_text exponential jointStates joint))))
    as Hfield.
  { intros joint Hin. unfold Codec.jointNames in Hin.
    repeat (apply elem_of_cons in Hin as [->|Hin]; [done|]).
    by apply elem_of_nil in Hin. }
  eexists _, targetStates. split; [|split; [|split]].
  - unfold LineReader.readSerialData.
    rewrite LineReaderFacts.read_chunks_concat by (simpl; tauto).
    rewrite JsStringFacts.app_nil_l, Hchunks. unfold Binary64.encode.
    rewrite LoopbackFacts.command_text_body.
    match goal with
    | |- LineReader.split_lines (LineReader.terminate ?body) = _ =>
        pose proof (LineReaderFacts.split_lines_terminated [body] "") as Hs
    end.
    rewrite fmap_cons, fmap_nil, JsStringFacts.concat_cons in Hs.
    change (JsString.concat []) with "" in Hs.
    rewrite !JsStringFacts.app_nil_r in Hs. apply Hs.
    + constructor; [|constructor].
      by apply LoopbackFacts.command_body_one_line.
    + simpl. tauto.
  - rewrite <- Hdec. unfold Binary64.decode.
    by rewrite LoopbackFacts.trim_command_body, EncodeFacts.trim_command_text.
  - intros joint Hin. by rewrite (Hfield joint Hin).
  - intros joint k Hin Hk Hjoint.
    pose proof (GridFacts.grid k Hk) as [Hback _]%andb_prop.
    rewrite (Hfield joint Hin). unfold Binary64.field_text. rewrite Hjoint.
    by destruct (GridFacts.reads_back_spec exponential _ Hback) as [_ ->].
Qed.

Lemma encoded_line_is_read_as_one_command_witness :
  let pose : gmap string spec_float :=
    <["theta1" := Binary64.angle_of_tenths 286]> ∅ in
  exists command targetStates,
    LineReader.readSerialData
      ["G06 X28.6 Y0"; ".0 Z0.0 W0.0 U0.0 V0.0 F500" +:+ String JsString.newline ""]
    = ([command], "")
    /\ Binary64.decode command
       = Binary64.Motion targetStates (Binary64.of_Z 500)
    /\ targetStates !! "theta1" = Some (Binary64.angle_of_tenths 286).
Proof.
  intros pose.
  destruct (encoded_line_is_read_as_one_command (fun _ => "") pose
              ["G06 X28.6 Y0";
               ".0 Z0.0 W0.0 U0.0 V0.0 F500" +:+ String JsString.newline ""])
    as (command & targetStates & Hread & Hdec & _ & Hgrid).
  3:{ exists command, targetStates. split; [exact Hread|].
      split; [exact Hdec|].
      apply (Hgrid "theta1" 286%Z);
        [unfold Codec.jointNames; listed|lia|reflexivity]. }
  - intros joint Hin. unfold Codec.jointNames in Hin.
    repeat (apply elem_of_cons in Hin as [->|Hin]; [by vm_compute|]).
    by apply elem_of_nil in Hin.
  - by vm_compute.
Defined.

(** ** The course of a motion *)

Module MotionFacts.
Import JsNumber Codec Component ComponentFacts.

Lemma min2_Fin (x y : Q) :
  min2 (Fin x) (Fin y) = Fin (if ltb (Fin y) (Fin x) then y else x).
Proof. unfold min2. by destruct (ltb (Fin y) (Fin x)). Qed.

Lemma one_lt_div (e d : Q) : (0 < d -> 1 < e / d -> d < e)%Q.
Proof.
  intros Hd H. apply (Qmult_lt_compat_r _ _ d) in H; [|done].
  rewrite Qmult_1_l, Qmult_comm, Qmult_div_r in H; [done|].
  intros H0. rewrite H0 in Hd. done.
Qed.

Lemma div_le_one (e d : Q) : (0 < d -> e / d <= 1 -> e <= d)%Q.
Proof.
  intros Hd H. apply (Qmult_le_compat_r _ _ d) in H; [|by apply Qlt_le_weak].
  rewrite Qmult_1_l, Qmult_comm, Qmult_div_r in H; [done|].
  intros H0. rewrite H0 in Hd. done.
Qed.

(** The progress of a motion of positive finite duration: the elapsed
    share of the duration, capped at 1. *)
Lemma progress_at_Fin (a : Animation) (t : Z) (d : Q) :
  duration a = Fin d -> (0 < d)%Q ->
  exists p, progress_at a t = Fin p
            /\ (inject_Z (t - startTime a) < d ->
                p == inject_Z (t - startTime a) / d /\ p < 1)%Q
            /\ (d <= inject_Z (t - startTime a) -> p == 1)%Q.
Proof.
  intros Hd Hpos. unfold progress_at. rewrite Hd. unfold of_Z.
  rewrite div_Fin by (intros H0; rewrite H0 in Hpos; done).
  rewrite min2_Fin. eexists. split; [reflexivity|].
  set (e := inject_Z (t - startTime a)).
  assert (inject_Z 1 == 1)%Q as H1 by reflexivity.
  destruct (ltb (Fin (inject_Z 1)) (Fin (e / d))) eqn:Hlt.
  - apply ltb_Fin in Hlt. rewrite H1 in Hlt.
    pose proof (one_lt_div e d Hpos Hlt) as Hde.
    split; [intros He; lra|done].
  - apply ltb_Fin_false in Hlt. rewrite H1 in Hlt.
    pose proof (div_le_one e d Hpos Hlt) as Hed.
    split.
    + intros He. split; [reflexivity|].
      apply Qlt_shift_div_r; [done|]. by rewrite Qmult_1_l.
    + intros Hde. assert (e == d)%Q as -> by lra.
      field. intros H0. rewrite H0 in Hpos. done.
Qed.

Lemma home_after_animate (a : Animation) (w : World) :
  home_jointStates (animate a w)
  = currentStates_at a (progress_at a (now w)) ∪ home_jointStates w.
Proof.
  unfold animate. by destruct (ltb (progress_at a (now w)) (of_Z 1)).
Qed.

Lemma lookup_currentStates_at (a : Animation) (progress : number)
    (joint : string) :
  currentStates_at a progress !! joint
  = match targetStates a !! joint with
    | Some _ =>
        Some (add (or_zero (startStates a !! joint))
                (mul (sub (or_zero (targetStates a !! joint))
                        (or_zero (startStates a !! joint))) progress))
    | None => None
    end.
Proof.
  unfold currentStates_at. rewrite map_lookup_imap.
  by destruct (targetStates a !! joint).
Qed.

End MotionFacts.

(** X8. One call of [animate] moves the joints the target names, and
    only those: a named joint is put at
    start + (target - start) * progress, every other entry of the joint
    state of the page keeps its value. *)
Theorem animate_moves_only_named_joints
    (a : Component.Animation) (w : Component.World) (joint : string) :
  Component.home_jointStates (Component.animate a w) !! joint
  = match Component.targetStates a !! joint with
    | Some _ =>
        let start := JsNumber.or_zero (Component.startStates a !! joint) in
        let target := JsNumber.or_zero (Component.targetStates a !! joint) in
        let progress := Component.progress_at a (Component.now w) in
        Some (JsNumber.add start
                (JsNumber.mul (JsNumber.sub target start) progress))
    | None => Component.home_jointStates w !! joint
    end.
Proof.
  rewrite MotionFacts.home_after_animate, lookup_union,
    MotionFacts.lookup_currentStates_at.
  destruct (Component.targetStates a !! joint); cbn zeta.
  - by rewrite union_Some_l.
  - by rewrite (left_id None _).
Qed.

(** X9. A motion of positive finite duration ends on time: a frame drawn
    before [startTime + duration] queues the callback again and signals
    nothing; the first frame drawn at or after it clears [isMoving], is
    not queued again and arms the acknowledgment timeout. *)
Theorem motion_ends_on_time
    (a : Component.Animation) (w : Component.World) (d : Q) :
  Component.duration a = JsNumber.Fin d ->
  (0 < d)%Q ->
  let elapsed := inject_Z (Component.now w - Component.startTime a) in
  let w' := Component.animate a w in
  ((elapsed < d)%Q ->
   Component.frames w' = Component.frames w ++ [a]
   /\ Component.timers w' = Component.timers w
   /\ Component.cells w' = Component.cells w)
  /\ ((d <= elapsed)%Q ->
      Component.frames w' = Component.frames w
      /\ Component.timers w'
         = Component.timers w
           ++ [((Component.now w + 50)%Z, Component.scope a)]
      /\ Component.isMoving (Component.cells w') = false).
Proof.
  intros Hd Hpos elapsed w'.
  destruct (MotionFacts.progress_at_Fin a (Component.now w) d Hd Hpos)
    as (p & Hp & Hbefore & Hafter).
  subst w'. unfold Component.animate. rewrite Hp. split.
  - intros He. destruct (Hbefore He) as [_ Hlt].
    assert (JsNumber.ltb (JsNumber.Fin p) (JsNumber.of_Z 1) = true) as ->.
    { by apply ComponentFacts.ltb_Fin. }
    done.
  - intros He. pose proof (Hafter He) as H1.
    assert (JsNumber.ltb (JsNumber.Fin p) (JsNumber.of_Z 1) = false) as ->.
    { apply ComponentFacts.ltb_Fin_false. rewrite H1. by vm_compute. }
    done.
Qed.

Lemma motion_ends_on_time_witness :
  let started :=
    Component.run Component.initial
      [Component.ClickConnect true;
       Component.Chunk 0 ("G06 X1 F600" +:+ String JsString.newline "");
       Component.Elapse 100] in
  exists a, Component.frames started = [a]
            /\ Component.frames (Component.animate a started) = [a]
            /\ Component.isMoving (Component.cells (Component.animate a started))
               = false.
Proof.
  intros started.
  assert (exists a, Component.frames started = [a]
                    /\ Component.duration a = JsNumber.Fin 100
                    /\ Component.startTime a = 0%Z) as (a & Hf & Hd & Hs).
  { eexists. split; [by vm_compute|]. split; by vm_compute. }
  exists a. split; [exact Hf|].
  destruct (motion_ends_on_time a started 100 Hd) as [_ Hend].
  - reflexivity.
  - destruct Hend as (H1 & _ & H3).
    + rewrite Hs. by vm_compute.
    + split; [|exact H3]. by rewrite H1.
Defined.

Module DurationFacts.
Import JsNumber Codec Component ComponentFacts.

Lemma angleDiffDeg_nonneg (start target : JointState) (joint : string) (d : Q) :
  angleDiffDeg start target joint = Fin d -> (0 <= d)%Q.
Proof.
  unfold angleDiffDeg.
  destruct (div _ Math_PI) as [x| | |]; cbn [Math_abs]; try done.
  intros [= <-]. apply Qabs_nonneg.
Qed.

(** The duration computed by an accepted [smoothMoveTo], for finite
    angles and a finite feed rate other than zero. *)
Lemma smoothMoveTo_duration (sc : Scope) (target : JointState) (f : Q)
    (w : World) :
  isMoving (bound sc) = false -> onDataReceived sc = true ->
  ~ (f == 0)%Q -> target <> ∅ ->
  finite_state (jointStates sc) -> finite_state target ->
  exists a m,
    frames (smoothMoveTo sc target (Fin f) w) = frames w ++ [a]
    /\ (0 <= m)%Q
    /\ duration a
       = max2 (of_Z 100) (Fin (m / f * inject_Z 60 * inject_Z 1000)).
Proof.
  intros Hidle Hcb Hf Hne Hstart Htarget.
  destruct (Math_max_finite
              (angleDiffDeg (jointStates sc) target <$> keys target))
    as (m & Hm & Hin & _).
  { intros Hnil%fmap_nil_inv. unfold keys in Hnil.
    apply fmap_nil_inv, map_to_list_empty_iff in Hnil. done. }
  { apply Forall_fmap, Forall_forall. intros joint _. cbn.
    by destruct (angleDiffDeg_finite (jointStates sc) target joint)
      as [d ->]. }
  apply list_elem_of_fmap in Hin as (joint & Hj & _).
  symmetry in Hj. apply angleDiffDeg_nonneg in Hj.
  unfold smoothMoveTo. rewrite Hidle, Hcb. cbn [orb negb].
  eexists _, m. split; [reflexivity|]. split; [done|]. fields.
  by rewrite Hm, div_Fin.
Qed.

(** In exact arithmetic the duration is a fraction of at least 100. *)
Lemma duration_bounds
    (sc : Component.Scope) (target : JointState) (feedRate : Q)
    (w : Component.World) :
  Component.isMoving (Component.bound sc) = false ->
  Component.onDataReceived sc = true ->
  ~ (feedRate == 0)%Q ->
  target <> ∅ ->
  Component.finite_state (Component.jointStates sc) ->
  Component.finite_state target ->
  exists a d,
    Component.frames (Component.smoothMoveTo sc target (JsNumber.Fin feedRate) w)
    = Component.frames w ++ [a]
    /\ Component.duration a = JsNumber.Fin d
    /\ (100 <= d)%Q
    /\ ((feedRate < 0)%Q -> Component.duration a = JsNumber.of_Z 100).
Proof.
  intros Hidle Hcb Hf Hne Hstart Htarget.
  destruct (smoothMoveTo_duration sc target feedRate w)
    as (a & m & Hframes & Hm & Hd); try done.
  exists a. rewrite Hd. unfold JsNumber.of_Z. rewrite ComponentFacts.max2_Fin.
  eexists. split; [exact Hframes|]. split; [reflexivity|].
  assert (m / feedRate * inject_Z 60 * inject_Z 1000
          == m / feedRate * 60000)%Q as Hx.
  { change (inject_Z 60) with (60 # 1)%Q.
    change (inject_Z 1000) with (1000 # 1)%Q. ring. }
  assert (inject_Z 100 == 100)%Q as H100 by reflexivity.
  split.
  - destruct (JsNumber.ltb _ _) eqn:Hlt.
    + apply ComponentFacts.ltb_Fin in Hlt. rewrite H100 in Hlt.
      by apply Qlt_le_weak.
    + by rewrite H100.
  - intros Hneg.
    assert (m / feedRate <= 0)%Q as Hq.
    { assert (m / feedRate == - (m / - feedRate))%Q as -> by (by field).
      assert (0 <= m / - feedRate)%Q; [|lra].
      apply Qle_shift_div_l; [lra|]. by rewrite Qmult_0_l. }
    assert (JsNumber.ltb (JsNumber.Fin (inject_Z 100))
              (JsNumber.Fin (m / feedRate * inject_Z 60 * inject_Z 1000))
            = false) as ->; [|done].
    apply ComponentFacts.ltb_Fin_false. rewrite Hx, H100. lra.
Qed.

End DurationFacts.

(** X11. No accepted motion is shorter than 100 ms, and a negative feed
    rate gives exactly that floor: with finite angles and a finite feed
    rate other than zero the duration is a number, not [NaN], that is
    not below 100, and it is 100 when the feed rate is negative. *)
Theorem duration_is_at_least_the_floor
    (sc : Component.Scope) (target : JointState) (feedRate : Q)
    (w : Component.World) :
  Component.isMoving (Component.bound sc) = false ->
  Component.onDataReceived sc = true ->
  ~ (feedRate == 0)%Q ->
  target <> ∅ ->
  Component.finite_state (Component.jointStates sc) ->
  Component.finite_state target ->
  exists a,
    Component.frames (Component.smoothMoveTo sc target (JsNumber.Fin feedRate) w)
    = Component.frames w ++ [a]
    /\ Page.isNaN (Component.duration a) = false
    /\ JsNumber.ltb (Component.duration a) (JsNumber.of_Z 100) = false
    /\ ((feedRate < 0)%Q -> Component.duration a = JsNumber.of_Z 100).
Proof.
  intros Hidle Hcb Hf Hne Hstart Htarget.
  destruct (DurationFacts.duration_bounds sc target feedRate w)
    as (a & d & Hframes & Hd & Hle & Hneg); try done.
  exists a. split; [exact Hframes|]. rewrite Hd. split; [done|].
  split; [|by rewrite <- Hd].
  by apply ComponentFacts.ltb_Fin_false.
Qed.

Lemma duration_is_at_least_the_floor_witness :
  let target : JointState :=
    <["theta1" := Codec.degToRad (JsNumber.of_Z 90)]> ∅ in
  exists a,
    Component.frames
      (Component.smoothMoveTo (Component.render Component.initial) target
         (JsNumber.Fin (- (100))) Component.initial)
    = [a]
    /\ Component.duration a = JsNumber.of_Z 100.
Proof.
  intros target.
  destruct (duration_is_at_least_the_floor
              (Component.render Component.initial) target (- (100))
              Component.initial)
    as (a & Hframes & _ & _ & Hneg).
  - reflexivity.
  - reflexivity.
  - intros H. by vm_compute in H.
  - apply insert_non_empty.
  - apply (bool_decide_unpack _). by vm_compute.
  - apply (bool_decide_unpack _). by vm_compute.
  - exists a. split; [exact Hframes|]. apply Hneg. reflexivity.
Defined.

(** ** Invariants of the component *)

Module InvariantFacts.
Import JsNumber Codec Component ComponentFacts.

Lemma length_last_nine (l : list LogEntry) : (length (last_nine l) <= 9)%nat.
Proof. unfold last_nine. rewrite length_drop. lia. Qed.

Lemma log_bounded_addToLog (e : LogEntry) (w : World) :
  log_bounded (addToLog e w).
Proof.
  unfold log_bounded. fields. rewrite length_app. cbn [length].
  pose proof (length_last_nine (log (cells w))). lia.
Qed.

Lemma same_link_refl (w : World) : same_link w w.
Proof. by repeat split. Qed.

Lemma same_link_trans (w1 w2 w3 : World) :
  same_link w1 w2 -> same_link w2 w3 -> same_link w1 w3.
Proof.
  intros (A1 & A2 & A3 & A4 & A5 & A6 & A7) (B1 & B2 & B3 & B4 & B5 & B6 & B7).
  unfold same_link. rewrite B1, B2, B3, B4, B5, B6. repeat split; auto.
Qed.

Lemma same_link_addToLog (e : LogEntry) (w : World) :
  same_link w (addToLog e w).
Proof.
  unfold same_link. fields. repeat split; try done.
  intros _. apply log_bounded_addToLog.
Qed.

Lemma same_link_smoothMoveTo (sc : Scope) (target : JointState) (f : number)
    (w : World) :
  same_link w (smoothMoveTo sc target f w).
Proof.
  unfold smoothMoveTo.
  destruct (isMoving (bound sc) || negb (onDataReceived sc));
    [apply same_link_refl|].
  unfold same_link, log_bounded. fields. repeat split; try done.
  intros _. rewrite length_app. cbn [length].
  pose proof (length_last_nine (log (cells w))). lia.
Qed.

Lemma same_link_processCommand (sc : Scope) (command : string) (w : World) :
  same_link w (processCommand sc command w).
Proof.
  unfold processCommand.
  destruct (Decimal10.trim command) as [|c s]; [apply same_link_refl|].
  destruct (String.prefix "G06" (String c s)); [|apply same_link_addToLog].
  destruct (parse_G06 (String c s)) as [target f].
  destruct (0 <? size target)%nat; [|apply same_link_addToLog].
  eapply same_link_trans; [apply same_link_addToLog|].
  eapply same_link_trans; [apply same_link_addToLog|].
  apply same_link_smoothMoveTo.
Qed.

Lemma same_link_commands (sc : Scope) (commands : list string) (w : World) :
  same_link w (foldl (fun w command => processCommand sc command w) w commands).
Proof.
  revert w. induction commands as [|command commands IH]; intros w;
    [apply same_link_refl|].
  cbn [foldl]. eapply same_link_trans; [apply same_link_processCommand|].
  apply IH.
Qed.

Lemma same_link_animate (a : Animation) (w : World) :
  same_link w (animate a w).
Proof.
  unfold animate. destruct (ltb _ _).
  - unfold same_link, log_bounded. fields. by repeat split.
  - unfold same_link, log_bounded. fields. repeat split; try done.
    intros _. rewrite length_app. cbn [length].
    pose proof (length_last_nine (log (cells w))). lia.
Qed.

Lemma same_link_animate_all (queue : list Animation) (w : World) :
  same_link w (foldl (fun w a => animate a w) w queue).
Proof.
  revert w. induction queue as [|a queue IH]; intros w;
    [apply same_link_refl|].
  cbn [foldl]. eapply same_link_trans; [apply same_link_animate|]. apply IH.
Qed.

Lemma same_link_sendOkResponse (sc : Scope) (write_ok : bool) (w : World) :
  same_link w (sendOkResponse sc write_ok w)
  /\ loops (sendOkResponse sc write_ok w) = loops w.
Proof.
  unfold sendOkResponse.
  destruct (writer (bound sc)), (isConnected (bound sc)), write_ok;
    split; try apply same_link_refl; try done;
    unfold same_link, log_bounded; fields; repeat split; try done;
    intros _; rewrite length_app; cbn [length];
    pose proof (length_last_nine (log (cells w))); lia.
Qed.

(** Delivering a chunk changes no connection cell and only the buffer of
    the loop that reads it. *)
Lemma deliver_link (h : handle) (value : string) (ls : list ReadLoop)
    (w : World) :
  same_link w (deliver h value ls w).2
  /\ loops (deliver h value ls w).2 = loops w
  /\ loop_reader <$> (deliver h value ls w).1 = loop_reader <$> ls.
Proof.
  induction ls as [|l ls IH]; [by split; [apply same_link_refl|]|].
  cbn [deliver]. destruct (decide (loop_reader l = h)) as [_|_].
  - unfold on_read.
    destruct (LineReader.on_chunk (buffer l) value) as [commands buffer'].
    cbn [fst snd]. split; [apply same_link_commands|]. split; [|done].
    by destruct (commands_effect (loop_scope l) commands w) as (H1 & _).
  - destruct (deliver h value ls w) as [ls' w']. cbn [fst snd] in *.
    destruct IH as (I1 & I2 & I3). split; [exact I1|]. split; [exact I2|].
    cbn [fmap list_fmap]. f_equal. exact I3.
Qed.

Lemma log_bounded_initial : log_bounded initial.
Proof. unfold log_bounded. cbn. lia. Qed.

Lemma log_bounded_connectToSerial (sc : Scope) (opened : bool) (w : World) :
  log_bounded w -> log_bounded (connectToSerial sc opened w).
Proof.
  intros Hw. unfold connectToSerial.
  destruct (negb (isWebSerialSupported (bound sc)));
    [apply log_bounded_addToLog|].
  destruct opened; unfold log_bounded; fields;
    rewrite length_app; cbn [length];
    pose proof (length_last_nine (log (cells w))); lia.
Qed.

Lemma log_bounded_disconnectSerial (sc : Scope) (c1 c2 c3 : bool) (w : World) :
  log_bounded w -> log_bounded (disconnectSerial sc c1 c2 c3 w).
Proof.
  intros Hw. unfold disconnectSerial, release.
  destruct (reader (bound sc)), (writer (bound sc)), (port (bound sc)),
    c1, c2, c3; cbn [negb]; unfold log_bounded; fields;
    rewrite length_app; cbn [length];
    pose proof (length_last_nine (log (cells w))); lia.
Qed.

Lemma log_bounded_step (w : World) (e : Event) :
  log_bounded w -> log_bounded (step w e).
Proof.
  intros Hw. destruct e as [opened|c1 c2 c3|h value| |ms|write_ok]; cbn [step].
  - destruct (isConnected (cells w) || isConnecting (cells w)); [done|].
    by apply log_bounded_connectToSerial.
  - destruct (isConnected (cells w)); [|done].
    by apply log_bounded_disconnectSerial.
  - destruct (deliver_link h value (loops w) w) as ((_ & _ & _ & _ & _ & _ & Hb) & _).
    destruct (deliver h value (loops w) w) as [ls w']. cbn [snd] in Hb.
    by apply Hb.
  - destruct (same_link_animate_all (frames w) (set_frames [] w))
      as (_ & _ & _ & _ & _ & _ & Hb).
    by apply Hb.
  - done.
  - destruct (timers w) as [|[due sc] rest]; [done|].
    destruct (due <=? now w)%Z; [|done].
    destruct (same_link_sendOkResponse sc write_ok (set_timers rest w))
      as ((_ & _ & _ & _ & _ & _ & Hb) & _).
    by apply Hb.
Qed.

End InvariantFacts.

(** X12. The activity log is bounded: whatever happens to the component,
    the log never holds more than ten entries. *)
Theorem log_never_exceeds_ten_entries (es : list Component.Event) :
  (length (Component.log (Component.cells (Component.run Component.initial es)))
   <= 10)%nat.
Proof.
  assert (forall w, Component.log_bounded w ->
                    Component.log_bounded (Component.run w es)) as Hrun.
  { induction es as [|e es IH]; intros w Hw; [done|].
    cbn. apply IH. by apply InvariantFacts.log_bounded_step. }
  apply Hrun, InvariantFacts.log_bounded_initial.
Qed.

Module ConnectionFacts.
Import JsNumber Codec Component ComponentFacts InvariantFacts.

Lemma consistent_initial : connection_consistent initial.
Proof. repeat split; cbn; auto. Qed.

(** The invariant only looks at the connection cells and at the readers
    of the loops. *)
Lemma consistent_same_link (w w' : World) :
  same_link w w' ->
  loop_reader <$> loops w' = loop_reader <$> loops w ->
  connection_consistent w -> connection_consistent w'.
Proof.
  intros (L1 & L2 & L3 & L4 & L5 & _ & _) Hloops (C1 & C2 & C3 & C4).
  unfold connection_consistent. rewrite L1, L2, L3, L4, L5.
  split; [|split; [|split]].
  - intros Hoff. destruct (C1 Hoff) as (E & ? & ? & ?).
    rewrite E in Hloops. apply fmap_nil_inv in Hloops. by rewrite Hloops.
  - by rewrite <- (length_fmap loop_reader), Hloops, length_fmap.
  - apply (Forall_fmap loop_reader
             (fun h => reader (cells w) = Some h)).
    rewrite Hloops. by apply Forall_fmap.
  - done.
Qed.

Lemma consistent_connectToSerial (opened : bool) (w : World) :
  isConnected (cells w) = false ->
  connection_consistent w ->
  connection_consistent (connectToSerial (render w) opened w).
Proof.
  intros Hoff Hcons. pose proof Hcons as (C1 & C2 & C3 & C4).
  destruct (C1 Hoff) as (E & Hr & Hw & Hp).
  unfold connectToSerial.
  destruct (negb (isWebSerialSupported (bound (render w)))); [exact Hcons|].
  destruct opened; unfold connection_consistent; fields.
  - rewrite E. cbn. repeat split; try done.
    apply Forall_singleton. reflexivity.
  - rewrite E, Hoff, Hr, Hw, Hp. repeat split; try done. cbn. lia.
Qed.

Lemma filter_own_reader (h : handle) (ls : list ReadLoop) :
  Forall (fun l => Some h = Some (loop_reader l)) ls ->
  filter (fun l => loop_reader l ≠ h) ls = [].
Proof.
  induction 1 as [|l ls [= Hl] _ IH]; [done|].
  rewrite filter_cons, IH. by destruct (decide (loop_reader l ≠ h)).
Qed.

Lemma consistent_disconnectSerial (c1 c2 c3 : bool) (w : World) :
  isConnected (cells w) = true ->
  connection_consistent w ->
  connection_consistent (disconnectSerial (render w) c1 c2 c3 w).
Proof.
  intros Hon (C1 & C2 & C3 & C4).
  unfold disconnectSerial, release. cbn [render bound].
  destruct (reader (cells w)) as [hr|] eqn:Hr.
  - destruct c1; cbn [negb].
    + pose proof (filter_own_reader hr (loops w) C3) as Hnone.
      destruct (writer (cells w)) as [hw|] eqn:Hw,
        (port (cells w)) as [hp|] eqn:Hp, c2, c3; cbn [negb];
        unfold connection_consistent; fields;
        rewrite ?Hnone, ?Hon, ?C4; repeat split; try done; cbn; lia.
    + unfold connection_consistent. fields. rewrite Hon, Hr, C4.
      by repeat split.
  - assert (loops w = []) as Hnone.
    { destruct (loops w) as [|l ls]; [done|].
      by apply Forall_cons in C3 as [? _]. }
    destruct (writer (cells w)) as [hw|] eqn:Hw,
      (port (cells w)) as [hp|] eqn:Hp, c2, c3; cbn [negb];
      unfold connection_consistent; fields;
      rewrite ?Hnone, ?Hon, ?Hr, ?C4; repeat split; try done; cbn; lia.
Qed.

Lemma loops_animate_all (queue : list Animation) (w : World) :
  loops (foldl (fun w a => animate a w) w queue) = loops w.
Proof.
  revert w. induction queue as [|a queue IH]; intros w; [done|].
  cbn [foldl]. rewrite IH. by destruct (animate_effect a w) as (H1 & _).
Qed.

Lemma consistent_step (w : World) (e : Event) :
  connection_consistent w -> connection_consistent (step w e).
Proof.
  intros Hw. destruct e as [opened|c1 c2 c3|h value| |ms|write_ok]; cbn [step].
  - destruct (isConnected (cells w)) eqn:Hc; [done|].
    destruct (isConnecting (cells w)); [done|].
    by apply consistent_connectToSerial.
  - destruct (isConnected (cells w)) eqn:Hc; [|done].
    by apply consistent_disconnectSerial.
  - destruct (deliver_link h value (loops w) w) as (Hl & _ & Hr).
    destruct (deliver h value (loops w) w) as [ls w']. cbn [fst snd] in *.
    apply (consistent_same_link w); [|done..].
    destruct Hl as (L1 & L2 & L3 & L4 & L5 & L6 & L7). by repeat split.
  - apply (consistent_same_link (set_frames [] w)).
    + apply same_link_animate_all.
    + by rewrite loops_animate_all.
    + exact Hw.
  - exact Hw.
  - destruct (timers w) as [|[due sc] rest]; [done|].
    destruct (due <=? now w)%Z; [|done].
    destruct (same_link_sendOkResponse sc write_ok (set_timers rest w))
      as [Hl Hloops].
    apply (consistent_same_link (set_timers rest w)); [done|by rewrite Hloops|].
    exact Hw.
Qed.

Lemma consistent_run (w : World) (es : list Event) :
  connection_consistent w -> connection_consistent (run w es).
Proof.
  revert w. induction es as [|e es IH]; intros w Hw; [done|].
  cbn. apply IH. by apply consistent_step.
Qed.

(** A chunk for a reader that no loop reads leaves the loops as they
    are and the world untouched. *)
Lemma deliver_no_loop (h : handle) (value : string) (ls : list ReadLoop)
    (w : World) :
  Forall (fun l => loop_reader l ≠ h) ls ->
  deliver h value ls w = (ls, w).
Proof.
  induction 1 as [|l ls Hl _ IH]; [done|].
  cbn [deliver]. destruct (decide (loop_reader l = h)); [done|].
  by rewrite IH.
Qed.

End ConnectionFacts.

(** X13. The cells and the read loops stay consistent, whatever happens
    to the component: when it shows Disconnected it holds no reader,
    writer or port and runs no read loop; at most one read loop runs at
    any time, reading from the reader held in the cell; and no connection
    attempt is left pending. *)
Theorem connection_stays_consistent (es : list Component.Event) :
  let w := Component.run Component.initial es in
  (Component.isConnected (Component.cells w) = false ->
   Component.loops w = []
   /\ Component.reader (Component.cells w) = None
   /\ Component.writer (Component.cells w) = None
   /\ Component.port (Component.cells w) = None)
  /\ (length (Component.loops w) <= 1)%nat
  /\ Forall (fun l => Component.reader (Component.cells w)
                      = Some (Component.loop_reader l)) (Component.loops w)
  /\ Component.isConnecting (Component.cells w) = false.
Proof.
  apply (ConnectionFacts.consistent_run Component.initial es
           ConnectionFacts.consistent_initial).
Qed.

(** X14. Data that arrives for a reader the component no longer reads
    from is dropped: when the component shows Disconnected, or holds
    another reader, a chunk changes nothing. *)
Theorem chunk_for_a_released_reader_is_dropped
    (es : list Component.Event) (h : Component.handle) (value : string) :
  let w := Component.run Component.initial es in
  Component.isConnected (Component.cells w) = false
  \/ Component.reader (Component.cells w) <> Some h ->
  Component.step w (Component.Chunk h value) = w.
Proof.
  intros w Hcase.
  destruct (ConnectionFacts.consistent_run Component.initial es
              ConnectionFacts.consistent_initial) as (C1 & _ & C3 & _).
  fold w in C1, C3.
  assert (Forall (fun l => Component.loop_reader l ≠ h) (Component.loops w))
    as Hnone.
  { destruct Hcase as [Hoff|Hother].
    - destruct (C1 Hoff) as [-> _]. constructor.
    - eapply Forall_impl; [exact C3|]. intros l Hl Heq. apply Hother.
      by rewrite Hl, Heq. }
  cbn [Component.step]. rewrite ConnectionFacts.deliver_no_loop by done.
  by destruct w.
Qed.

Lemma chunk_for_a_released_reader_is_dropped_witness :
  let w :=
    Component.run Component.initial
      [Component.ClickConnect true; Component.ClickDisconnect true true true] in
  Component.step w
    (Component.Chunk 0 ("G06 X90 F500" +:+ String JsString.newline "")) = w.
Proof.
  apply (chunk_for_a_released_reader_is_dropped
           [Component.ClickConnect true; Component.ClickDisconnect true true true]
           0%nat).
  left. reflexivity.
Defined.

(** ** The manual controls *)

Module PageFacts.
Import JsNumber Codec Page ComponentFacts MotionFacts.

Lemma jointLimits_inv (jointName : string) (mn mx : Z) :
  jointLimits !! jointName = Some (mn, mx) ->
  jointName ∈ jointNames /\ (mn <= mx)%Z.
Proof.
  unfold jointLimits. cbn [list_to_map foldr].
  intros H. unfold jointNames.
  repeat (apply lookup_insert_Some in H as [[<- [= <- <-]]|[_ H]];
          [split; [listed|lia]|]).
  by rewrite lookup_empty in H.
Qed.

(** Clamping any number but [NaN] gives a finite number between the
    limits, and the number itself when it lies between them. *)
Lemma clamp_within (mn mx : Z) (degrees : number) :
  (mn <= mx)%Z -> isNaN degrees = false ->
  exists c, clamp (mn, mx) degrees = Fin c
            /\ (inject_Z mn <= c <= inject_Z mx)%Q
            /\ forall q, degrees = Fin q ->
                 (inject_Z mn <= q <= inject_Z mx)%Q -> (c == q)%Q.
Proof.
  intros Hle Hnan. unfold clamp. cbn [fst snd]. unfold of_Z.
  assert (inject_Z mn <= inject_Z mx)%Q as Hq by (by rewrite <- Zle_Qle).
  destruct degrees as [q| | |]; try done.
  - rewrite min2_Fin.
    destruct (ltb (Fin q) (Fin (inject_Z mx))) eqn:H1.
    + apply ltb_Fin in H1. rewrite max2_Fin.
      destruct (ltb (Fin (inject_Z mn)) (Fin q)) eqn:H2.
      * apply ltb_Fin in H2. exists q. split; [done|].
        split; [split; by apply Qlt_le_weak|].
        by intros q' [= <-] _.
      * apply ltb_Fin_false in H2. exists (inject_Z mn). split; [done|].
        split; [split; [apply Qle_refl|done]|].
        intros q' [= <-] [Hlo _]. by apply Qle_antisym.
    + apply ltb_Fin_false in H1. rewrite max2_Fin.
      assert (ltb (Fin (inject_Z mn)) (Fin (inject_Z mx)) = true
              \/ inject_Z mn = inject_Z mx) as [H2|H2].
      { destruct (Z.eq_dec mn mx) as [->|Hne]; [by right|left].
        apply ltb_Fin. rewrite <- Zlt_Qlt. lia. }
      * rewrite H2. exists (inject_Z mx). split; [done|].
        split; [split; [done|apply Qle_refl]|].
        intros q' [= <-] [_ Hhi]. by apply Qle_antisym.
      * rewrite H2.
        assert (ltb (Fin (inject_Z mx)) (Fin (inject_Z mx)) = false) as ->.
        { apply ltb_Fin_false, Qle_refl. }
        exists (inject_Z mx). split; [done|].
        split; [split; apply Qle_refl|].
        intros q' [= <-] [_ Hhi]. by apply Qle_antisym.
  - cbn [min2 ltb]. rewrite max2_Fin.
    assert (ltb (Fin (inject_Z mn)) (Fin (inject_Z mx)) = true
            \/ inject_Z mn = inject_Z mx) as [H2|H2].
    { destruct (Z.eq_dec mn mx) as [->|Hne]; [by right|left].
      apply ltb_Fin. rewrite <- Zlt_Qlt. lia. }
    + rewrite H2. exists (inject_Z mx). split; [done|].
      split; [split; [done|apply Qle_refl]|done].
    + rewrite H2.
      assert (ltb (Fin (inject_Z mx)) (Fin (inject_Z mx)) = false) as ->.
      { apply ltb_Fin_false, Qle_refl. }
      exists (inject_Z mx). split; [done|].
      split; [split; apply Qle_refl|done].
  - cbn [min2 max2 ltb]. exists (inject_Z mn). split; [done|].
    split; [split; [apply Qle_refl|done]|done].
Qed.

End PageFacts.

(** X15. The number input of a joint clamps before it converts: for any
    input but [NaN] the angle stored is [degToRad] of a number of
    degrees within the limits of that joint, the input itself when it
    lies within them; a [NaN] input changes nothing. *)
Theorem number_input_stays_within_limits
    (jointName : string) (mn mx : Z) (degrees : JsNumber.number)
    (jointStates : JointState) :
  Page.jointLimits !! jointName = Some (mn, mx) ->
  (Page.isNaN degrees = true ->
   Page.on_number_input jointName degrees jointStates = jointStates)
  /\ (Page.isNaN degrees = false ->
      exists c,
        Page.on_number_input jointName degrees jointStates
        = <[jointName := Codec.degToRad (JsNumber.Fin c)]> jointStates
        /\ (inject_Z mn <= c <= inject_Z mx)%Q
        /\ forall q, degrees = JsNumber.Fin q ->
             (inject_Z mn <= q <= inject_Z mx)%Q -> (c == q)%Q).
Proof.
  intros Hlim. unfold Page.on_number_input. rewrite Hlim. split.
  - by intros ->.
  - intros Hnan. rewrite Hnan. cbn [negb].
    destruct (PageFacts.jointLimits_inv jointName mn mx Hlim) as [_ Hle].
    destruct (PageFacts.clamp_within mn mx degrees Hle Hnan)
      as (c & -> & Hc & Hsame).
    exists c. split; [done|]. split; done.
Qed.

Lemma number_input_stays_within_limits_witness :
  exists c,
    Page.on_number_input "theta3" (JsNumber.Fin 200) Component.initial_jointStates
    = <["theta3" := Codec.degToRad (JsNumber.Fin c)]> Component.initial_jointStates
    /\ (inject_Z (-90) <= c <= inject_Z 75)%Q.
Proof.
  destruct (number_input_stays_within_limits "theta3" (-90) 75
              (JsNumber.Fin 200) Component.initial_jointStates)
    as [_ Hclamp].
  - reflexivity.
  - destruct Hclamp as (c & Heq & Hc & _); [reflexivity|].
    exists c. split; [exact Heq|exact Hc].
Defined.


(** X18. The slider of a joint is always given a finite value within the
    limits of that joint, whatever the joint state holds (an absent,
    zero or [NaN] angle shows as 0 clamped, an infinite one as a
    limit). *)
Theorem slider_value_stays_within_limits
    (jointName : string) (mn mx : Z) (jointStates : JointState) :
  Page.jointLimits !! jointName = Some (mn, mx) ->
  exists c, Page.slider_value jointName jointStates = Some (JsNumber.Fin c)
            /\ (inject_Z mn <= c <= inject_Z mx)%Q.
Proof.
  intros Hlim. unfold Page.slider_value. rewrite Hlim.
  destruct (PageFacts.jointLimits_inv jointName mn mx Hlim) as [_ Hle].
  assert (Page.isNaN (Codec.radToDeg (JsNumber.or_zero (jointStates !! jointName)))
          = false) as Hnan.
  { destruct (jointStates !! jointName) as [[q| | |]|]; try done.
    cbn [JsNumber.or_zero JsNumber.truthy].
    by destruct (negb (JsNumber.is_zero q)). }
  destruct (PageFacts.clamp_within mn mx _ Hle Hnan) as (c & -> & Hc & _).
  by exists c.
Qed.

Lemma slider_value_stays_within_limits_witness :
  exists c,
    Page.slider_value "theta2" (<["theta2" := JsNumber.NaN]> ∅)
    = Some (JsNumber.Fin c)
    /\ (inject_Z (-100) <= c <= inject_Z 130)%Q.
Proof.
  apply (slider_value_stays_within_limits "theta2" (-100) 130).
  reflexivity.
Defined.

(** ** The debounced auto-send *)

Module AutoSendFacts.
Import JsNumber Codec Component ComponentFacts InvariantFacts AutoSend.

Ltac panel :=
  cbn [world autoSend debounce set_world auto_send_effect setJointStates
       cells home_jointStates loops frames timers calls next_handle now
       isMoving isConnected isConnecting port reader writer log
       isWebSerialSupported bound jointStates onDataReceived
       addToLog record_call set_loops set_frames set_timers set_now
       set_cells render] in *.

Lemma sendJointStates_effect (exponential : Q -> string) (sc : Scope)
    (write_ok : bool) (w : World) :
  let w' := sendJointStates exponential sc write_ok w in
  home_jointStates w' = home_jointStates w /\ now w' = now w
  /\ isConnected (cells w') = isConnected (cells w)
  /\ writer (cells w') = writer (cells w)
  /\ frames w' = frames w
  /\ calls w' = calls w ++ send_call exponential sc write_ok.
Proof.
  unfold sendJointStates, send_call.
  destruct (writer (bound sc)), (isConnected (bound sc)), write_ok;
    fields; rewrite ?app_nil_r; done.
Qed.

Lemma commands_home (sc : Scope) (commands : list string) (w : World) :
  home_jointStates (foldl (fun w command => processCommand sc command w) w commands)
  = home_jointStates w.
Proof.
  revert w. induction commands as [|c commands IH]; intros w; [done|].
  cbn [foldl]. rewrite IH.
  by destruct (processCommand_effect sc c w) as (_ & _ & _ & _ & H & _).
Qed.

Lemma deliver_home (h : handle) (value : string) (ls : list ReadLoop)
    (w : World) :
  home_jointStates (deliver h value ls w).2 = home_jointStates w.
Proof.
  induction ls as [|l ls IH]; [done|].
  cbn [deliver]. destruct (decide (loop_reader l = h)) as [_|_].
  - unfold on_read.
    destruct (LineReader.on_chunk (buffer l) value) as [commands buffer'].
    cbn [fst snd]. apply commands_home.
  - destruct (deliver h value ls w) as [ls' w']. exact IH.
Qed.

Lemma connectToSerial_home (sc : Scope) (opened : bool) (w : World) :
  home_jointStates (connectToSerial sc opened w) = home_jointStates w.
Proof.
  unfold connectToSerial.
  by destruct (isWebSerialSupported (bound sc)), opened.
Qed.

Lemma sendOkResponse_home (sc : Scope) (write_ok : bool) (w : World) :
  home_jointStates (sendOkResponse sc write_ok w) = home_jointStates w.
Proof.
  unfold sendOkResponse.
  by destruct (writer (bound sc)), (isConnected (bound sc)), write_ok.
Qed.

(** Only a frame of a running motion replaces the joint state. *)
Lemma step_home (w : World) (e : Component.Event) :
  replaces_jointStates w e = false ->
  home_jointStates (Component.step w e) = home_jointStates w.
Proof.
  destruct e as [opened|c1 c2 c3|h value| |ms|write_ok]; cbn [Component.step].
  - intros _. destruct (isConnected (cells w) || isConnecting (cells w));
      [done|apply connectToSerial_home].
  - intros _. destruct (isConnected (cells w)); [|done].
    by destruct (disconnectSerial_motion (render w) c1 c2 c3 w) as (_ & _ & _ & H).
  - intros _. pose proof (deliver_home h value (loops w) w) as H.
    by destruct (deliver h value (loops w) w) as [ls w'].
  - cbn [replaces_jointStates]. by destruct (frames w).
  - done.
  - intros _. destruct (timers w) as [|[due sc] rest]; [done|].
    destruct (due <=? now w)%Z; [|done]. by rewrite sendOkResponse_home.
Qed.

Lemma armed_effect (p : Panel) : armed_for_present_state (auto_send_effect p).
Proof.
  intros due sc. panel.
  destruct (autoSend p) eqn:Ha, (isConnected (cells (world p))) eqn:Hc;
    cbn [andb]; [|done..].
  by intros [= <- <-].
Qed.

Lemma armed_initial : armed_for_present_state initial.
Proof. by intros due sc. Qed.

Lemma armed_step (exponential : Q -> string) (p : Panel) (e : Event) :
  armed_for_present_state p -> armed_for_present_state (step exponential p e).
Proof.
  intros Harmed.
  destruct e as [jointName value| | |write_ok|write_ok|e]; cbn [step].
  - apply armed_effect.
  - apply armed_effect.
  - destruct (isConnected (cells (world p))); [apply armed_effect|done].
  - destruct (isConnected (cells (world p))) eqn:Hc; [|done].
    intros due sc Hd. panel.
    destruct (Harmed due sc Hd) as (H1 & H2 & H3 & H4).
    destruct (sendJointStates_effect exponential (render (world p)) write_ok
                (world p)) as (E1 & _ & E2 & _).
    rewrite E1, E2. by rewrite Hc.
  - destruct (debounce p) as [[due sc]|]; [|done].
    destruct (due <=? now (world p))%Z; [|done]. by intros due' sc'.
  - destruct (replaces_jointStates (world p) e) eqn:Hr; cbn [orb];
      [apply armed_effect|].
    destruct (eqb (isConnected (cells (Component.step (world p) e)))
                (isConnected (cells (world p)))) eqn:Hc; cbn [negb];
      [|apply armed_effect].
    apply eqb_prop in Hc. intros due sc Hd. panel.
    destruct (Harmed due sc Hd) as (H1 & H2 & H3 & H4).
    rewrite Hc, (step_home _ _ Hr). done.
Qed.

Lemma armed_run (exponential : Q -> string) (p : Panel) (es : list Event) :
  armed_for_present_state p -> armed_for_present_state (run exponential p es).
Proof.
  revert p. induction es as [|e es IH]; intros p Hp; [done|].
  apply IH, armed_step, Hp.
Qed.

Lemma step_edit (exponential : Q -> string) (p : Panel)
    (js : JointState) :
  autoSend p = true -> isConnected (cells (world p)) = true ->
  auto_send_effect (set_world (setJointStates js (world p)) p)
  = {| world := setJointStates js (world p); autoSend := true;
       debounce := Some ((now (world p) + 100)%Z,
                         render (setJointStates js (world p))) |}.
Proof.
  intros Ha Hc. unfold auto_send_effect, set_world.
  cbn [world autoSend debounce]. rewrite Ha.
  change (isConnected (cells (setJointStates js (world p))))
    with (isConnected (cells (world p))).
  change (now (setJointStates js (world p))) with (now (world p)).
  by rewrite Hc.
Qed.

Lemma step_JointChange (exponential : Q -> string) (p : Panel)
    (jointName : string) (value : number) :
  autoSend p = true -> isConnected (cells (world p)) = true ->
  step exponential p (JointChange jointName value)
  = let js := Page.handleJointChange jointName value
                (home_jointStates (world p)) in
    {| world := setJointStates js (world p); autoSend := true;
       debounce := Some ((now (world p) + 100)%Z,
                         render (setJointStates js (world p))) |}.
Proof. intros Ha Hc. cbn [step]. by apply step_edit. Qed.

Lemma step_Serial (exponential : Q -> string) (p : Panel)
    (e : Component.Event) :
  step exponential p (Serial e)
  = if replaces_jointStates (world p) e
       || negb (eqb (isConnected (cells (Component.step (world p) e)))
                  (isConnected (cells (world p))))
    then auto_send_effect (set_world (Component.step (world p) e) p)
    else set_world (Component.step (world p) e) p.
Proof. reflexivity. Qed.

Lemma step_Elapse (exponential : Q -> string) (p : Panel) (ms : Z) :
  step exponential p (Serial (Elapse ms))
  = set_world (set_now (now (world p) + Z.max 0 ms)%Z (world p)) p.
Proof.
  cbn [step replaces_jointStates orb Component.step].
  change (isConnected (cells (set_now _ (world p))))
    with (isConnected (cells (world p))).
  by rewrite eqb_reflx.
Qed.

Lemma step_fire_early (exponential : Q -> string) (p : Panel) (b : bool)
    (due : Z) (sc : Scope) :
  debounce p = Some (due, sc) -> (now (world p) < due)%Z ->
  step exponential p (DebounceFires b) = p.
Proof.
  intros Hd Hnow. cbn [step]. rewrite Hd.
  by destruct (Z.leb_spec due (now (world p))); [lia|].
Qed.

Lemma step_fire_due (exponential : Q -> string) (p : Panel) (b : bool)
    (due : Z) (sc : Scope) :
  debounce p = Some (due, sc) -> (due <= now (world p))%Z ->
  step exponential p (DebounceFires b)
  = {| world := sendJointStates exponential sc b (world p);
       autoSend := autoSend p; debounce := None |}.
Proof.
  intros Hd Hnow. cbn [step]. rewrite Hd.
  by destruct (Z.leb_spec due (now (world p))); [|lia].
Qed.

(** One edit followed by a pause too short for the timeout. *)
Lemma edit_then_pause (exponential : Q -> string) (p : Panel)
    (jointName : string) (value : number) (pause : Z) (b : bool) :
  autoSend p = true -> isConnected (cells (world p)) = true ->
  (pause < 100)%Z ->
  let p' := run exponential p
              [JointChange jointName value; Serial (Elapse pause);
               DebounceFires b] in
  autoSend p' = true /\ cells (world p') = cells (world p)
  /\ calls (world p') = calls (world p)
  /\ home_jointStates (world p')
     = Page.handleJointChange jointName value (home_jointStates (world p)).
Proof.
  intros Ha Hc Hpause. cbn [run foldl].
  rewrite (step_JointChange exponential p _ _ Ha Hc), step_Elapse. cbn zeta.
  erewrite step_fire_early; [done|reflexivity|panel; lia].
Qed.

Lemma burst_effect (exponential : Q -> string)
    (edits : list (string * number * Z)) (p : Panel) :
  autoSend p = true -> isConnected (cells (world p)) = true ->
  Forall (fun e => (e.2 < 100)%Z) edits ->
  let p' := run exponential p (burst edits) in
  autoSend p' = true /\ cells (world p') = cells (world p)
  /\ calls (world p') = calls (world p)
  /\ home_jointStates (world p') = edited (home_jointStates (world p)) edits.
Proof.
  revert p. induction edits as [|[[jointName value] pause] edits IH];
    intros p Ha Hc Hedits; [done|].
  apply Forall_cons in Hedits as [Hpause Hedits]. cbn [snd] in Hpause.
  unfold burst. rewrite bind_cons. fold (burst edits).
  unfold run. rewrite foldl_app.
  destruct (edit_then_pause exponential p jointName value pause true Ha Hc Hpause)
    as (E1 & E2 & E3 & E4).
  unfold run in E1, E2, E3, E4.
  set (p1 := foldl (step exponential) p _) in *.
  destruct (IH p1) as (I1 & I2 & I3 & I4); [done|by rewrite E2|done|].
  unfold run in I1, I2, I3, I4.
  split; [done|]. split; [by rewrite I2|]. split; [by rewrite I3|].
  rewrite I4, E4. done.
Qed.

Lemma animate_all_effect (queue : list Animation) (w : World) :
  let w' := foldl (fun w a => animate a w) w queue in
  calls w' = calls w /\ now w' = now w.
Proof.
  revert w. induction queue as [|a queue IH]; intros w; [done|].
  cbn [foldl]. destruct (IH (animate a w)) as [-> ->].
  by destruct (animate_effect a w) as (_ & -> & -> & _).
Qed.

End AutoSendFacts.

(** X19. Auto-send debounces: while auto-send is on and the component is
    connected, a burst of edits that follow one another within less
    than 100 ms writes nothing, and once 100 ms pass after the last
    edit exactly one line is written: the command of the joint state
    after all the edits. *)
Theorem burst_of_edits_is_sent_once (exponential : Q -> string)
    (p : AutoSend.Panel) (h : Component.handle)
    (edits : list (string * JsNumber.number * Z))
    (jointName : string) (value : JsNumber.number) (quiet : Z)
    (write_ok : bool) :
  AutoSend.autoSend p = true ->
  Component.isConnected (Component.cells (AutoSend.world p)) = true ->
  Component.writer (Component.cells (AutoSend.world p)) = Some h ->
  Forall (fun e => (e.2 < 100)%Z) edits ->
  (100 <= quiet)%Z ->
  let during := AutoSend.run exponential p (AutoSend.burst edits) in
  let after :=
    AutoSend.run exponential during
      [AutoSend.JointChange jointName value;
       AutoSend.Serial (Component.Elapse quiet);
       AutoSend.DebounceFires write_ok] in
  Component.calls (AutoSend.world during) = Component.calls (AutoSend.world p)
  /\ Component.calls (AutoSend.world after)
     = Component.calls (AutoSend.world p)
       ++ [Component.WriterWrite h
             (Codec.encode exponential
                (Page.handleJointChange jointName value
                   (AutoSend.edited
                      (Component.home_jointStates (AutoSend.world p)) edits)))
             write_ok]
  /\ AutoSend.debounce after = None.
Proof.
  intros Ha Hc Hw Hedits Hquiet during after.
  destruct (AutoSendFacts.burst_effect exponential edits p Ha Hc Hedits)
    as (E1 & E2 & E3 & E4).
  fold during in E1, E2, E3, E4. split; [exact E3|].
  subst after. clearbody during.
  assert (Component.isConnected (Component.cells (AutoSend.world during)) = true)
    as Hc' by (by rewrite E2).
  assert (Component.writer (Component.cells (AutoSend.world during)) = Some h)
    as Hw' by (by rewrite E2).
  cbn [AutoSend.run foldl].
  rewrite (AutoSendFacts.step_JointChange exponential during _ _ E1 Hc'),
    AutoSendFacts.step_Elapse. cbn zeta.
  erewrite AutoSendFacts.step_fire_due;
    [|reflexivity|AutoSendFacts.panel; lia].
  cbn [AutoSend.world AutoSend.debounce AutoSend.set_world].
  split; [|done].
  match goal with
  | |- Component.calls (Component.sendJointStates ?e ?sc ?ok ?w) = _ =>
      destruct (AutoSendFacts.sendJointStates_effect e sc ok w)
        as (_ & _ & _ & _ & _ & ->)
  end.
  unfold AutoSend.send_call. AutoSendFacts.panel.
  rewrite Hw', Hc', E3, E4. done.
Qed.

Lemma burst_of_edits_is_sent_once_witness :
  let p := AutoSend.run (fun _ => "") AutoSend.initial
             [AutoSend.Serial (Component.ClickConnect true);
              AutoSend.ToggleAutoSend] in
  let edits := [("theta1", JsNumber.Fin 1, 20%Z);
                ("theta1", JsNumber.Fin 2, 99%Z)] in
  let during := AutoSend.run (fun _ => "") p (AutoSend.burst edits) in
  let after :=
    AutoSend.run (fun _ => "") during
      [AutoSend.JointChange "theta2" (JsNumber.Fin 0);
       AutoSend.Serial (Component.Elapse 100);
       AutoSend.DebounceFires true] in
  Component.calls (AutoSend.world during) = Component.calls (AutoSend.world p)
  /\ AutoSend.debounce after = None.
Proof.
  intros p edits during after.
  assert (AutoSend.autoSend p = true) as Ha by (by vm_compute).
  assert (Component.isConnected (Component.cells (AutoSend.world p)) = true)
    as Hc by (by vm_compute).
  assert (Component.writer (Component.cells (AutoSend.world p)) = Some 0%nat)
    as Hw by (by vm_compute).
  assert (Forall (fun e : string * JsNumber.number * Z => (e.2 < 100)%Z) edits)
    as Hedits by (repeat constructor).
  assert (100 <= 100)%Z as Hquiet by lia.
  destruct (burst_of_edits_is_sent_once (fun _ => "") p 0%nat edits
              "theta2" (JsNumber.Fin 0) 100 true Ha Hc Hw Hedits Hquiet)
    as (H1 & _ & H3).
  split; [exact H1|exact H3].
Defined.

(** X20. A timeout of the auto-send effect that runs always sends the
    joint state the page holds at that moment, never an older one, and
    it runs only while auto-send is on and the component shows
    Connected: switching auto-send off or disconnecting cancels it. *)
Theorem auto_send_writes_the_present_state (exponential : Q -> string)
    (es : list AutoSend.Event) (write_ok : bool) (due : Z)
    (sc : Component.Scope) :
  let p := AutoSend.run exponential AutoSend.initial es in
  AutoSend.debounce p = Some (due, sc) ->
  (due <= Component.now (AutoSend.world p))%Z ->
  let p' := AutoSend.step exponential p (AutoSend.DebounceFires write_ok) in
  AutoSend.autoSend p = true
  /\ Component.isConnected (Component.cells (AutoSend.world p)) = true
  /\ AutoSend.debounce p' = None
  /\ Component.calls (AutoSend.world p')
     = Component.calls (AutoSend.world p)
       ++ match Component.writer (Component.bound sc) with
          | Some h =>
              [Component.WriterWrite h
                 (Codec.encode exponential
                    (Component.home_jointStates (AutoSend.world p)))
                 write_ok]
          | None => []
          end.
Proof.
  intros p Hd Hdue p'.
  destruct (AutoSendFacts.armed_run exponential AutoSend.initial es
              AutoSendFacts.armed_initial due sc Hd) as (H1 & H2 & H3 & H4).
  fold p in H1, H2, H4. split; [exact H1|]. split; [exact H2|].
  subst p'. clearbody p. cbn [AutoSend.step]. rewrite Hd.
  destruct (Z.leb_spec due (Component.now (AutoSend.world p))); [|lia].
  AutoSendFacts.panel. split; [done|].
  destruct (AutoSendFacts.sendJointStates_effect exponential sc write_ok
              (AutoSend.world p)) as (_ & _ & _ & _ & _ & ->).
  unfold AutoSend.send_call. rewrite H3, H4.
  by destruct (Component.writer (Component.bound sc)).
Qed.

Lemma auto_send_writes_the_present_state_witness :
  let es := [AutoSend.Serial (Component.ClickConnect true);
             AutoSend.ToggleAutoSend;
             AutoSend.JointChange "theta1" (JsNumber.Fin 1);
             AutoSend.Serial (Component.Elapse 250)] in
  let p := AutoSend.run (fun _ => "") AutoSend.initial es in
  AutoSend.debounce
    (AutoSend.step (fun _ => "") p (AutoSend.DebounceFires true)) = None.
Proof.
  intros es p.
  refine (proj1 (proj2 (proj2
    (auto_send_writes_the_present_state (fun _ => "") es true 100
       (Component.render
          (AutoSend.world
             (AutoSend.run (fun _ => "") AutoSend.initial
                [AutoSend.Serial (Component.ClickConnect true);
                 AutoSend.ToggleAutoSend;
                 AutoSend.JointChange "theta1" (JsNumber.Fin 1)])))
       _ _)))).
  - vm_compute. reflexivity.
  - by vm_compute.
Defined.

(** X21. With auto-send on, a motion commanded over the serial line is
    sent back: every frame of a running motion sets the timeout anew,
    and if 100 ms pass after a frame the joint state of that frame is
    written as a command. *)
Theorem motion_frame_is_sent_back (exponential : Q -> string)
    (p : AutoSend.Panel) (h : Component.handle) (write_ok : bool) :
  AutoSend.autoSend p = true ->
  Component.isConnected (Component.cells (AutoSend.world p)) = true ->
  Component.writer (Component.cells (AutoSend.world p)) = Some h ->
  Component.frames (AutoSend.world p) <> [] ->
  let drawn := Component.step (AutoSend.world p) Component.AnimationFrame in
  let after :=
    AutoSend.run exponential p
      [AutoSend.Serial Component.AnimationFrame;
       AutoSend.Serial (Component.Elapse 100);
       AutoSend.DebounceFires write_ok] in
  Component.calls (AutoSend.world after)
  = Component.calls (AutoSend.world p)
    ++ [Component.WriterWrite h
          (Codec.encode exponential (Component.home_jointStates drawn))
          write_ok].
Proof.
  intros Ha Hc Hw Hframes drawn after. subst after.
  cbn [AutoSend.run foldl].
  rewrite (AutoSendFacts.step_Serial exponential p Component.AnimationFrame).
  assert (AutoSend.replaces_jointStates (AutoSend.world p)
            Component.AnimationFrame = true) as ->.
  { cbn [AutoSend.replaces_jointStates].
    by destruct (Component.frames (AutoSend.world p)). }
  cbn [orb]. fold drawn.
  assert (Component.calls drawn = Component.calls (AutoSend.world p)
          /\ Component.now drawn = Component.now (AutoSend.world p)
          /\ Component.isConnected (Component.cells drawn) = true
          /\ Component.writer (Component.cells drawn) = Some h)
    as (D1 & D2 & D3 & D4).
  { subst drawn. cbn [Component.step].
    destruct (AutoSendFacts.animate_all_effect
                (Component.frames (AutoSend.world p))
                (Component.set_frames [] (AutoSend.world p))) as [-> ->].
    destruct (InvariantFacts.same_link_animate_all
                (Component.frames (AutoSend.world p))
                (Component.set_frames [] (AutoSend.world p)))
      as (_ & -> & _ & _ & -> & _).
    done. }
  clearbody drawn.
  assert (AutoSend.auto_send_effect (AutoSend.set_world drawn p)
          = {| AutoSend.world := drawn; AutoSend.autoSend := true;
               AutoSend.debounce :=
                 Some ((Component.now drawn + 100)%Z, Component.render drawn) |})
    as ->.
  { unfold AutoSend.auto_send_effect, AutoSend.set_world.
    cbn [AutoSend.world AutoSend.autoSend AutoSend.debounce].
    by rewrite Ha, D3. }
  rewrite AutoSendFacts.step_Elapse.
  erewrite AutoSendFacts.step_fire_due;
    [|reflexivity|AutoSendFacts.panel; lia].
  cbn [AutoSend.world AutoSend.set_world].
  match goal with
  | |- Component.calls (Component.sendJointStates ?e ?sc ?ok ?w) = _ =>
      destruct (AutoSendFacts.sendJointStates_effect e sc ok w)
        as (_ & _ & _ & _ & _ & ->)
  end.
  unfold AutoSend.send_call. AutoSendFacts.panel.
  rewrite D4, D3, D1. done.
Qed.

Lemma motion_frame_is_sent_back_witness :
  let p := AutoSend.run (fun _ => "") AutoSend.initial
             [AutoSend.Serial (Component.ClickConnect true);
              AutoSend.ToggleAutoSend;
              AutoSend.Serial
                (Component.Chunk 0
                   ("G06 X90 F500" +:+ String JsString.newline ""))] in
  let drawn := Component.step (AutoSend.world p) Component.AnimationFrame in
  Component.calls
    (AutoSend.world
       (AutoSend.run (fun _ => "") p
          [AutoSend.Serial Component.AnimationFrame;
           AutoSend.Serial (Component.Elapse 100);
           AutoSend.DebounceFires true]))
  = Component.calls (AutoSend.world p)
    ++ [Component.WriterWrite 0%nat
          (Codec.encode (fun _ => "") (Component.home_jointStates drawn))
          true].
Proof.
  intros p drawn.
  apply (motion_frame_is_sent_back (fun _ => "") p 0%nat true).
  - by vm_compute.
  - by vm_compute.
  - by vm_compute.
  - vm_compute. discriminate.
Defined.

(** ** Chunks at the level of the component *)

Module ChunkFacts.
Import JsString LineReader Component ComponentFacts.

Lemma on_chunk_app (buffer c1 c2 : string) :
  on_chunk buffer (c1 +:+ c2)
  = ((on_chunk buffer c1).1 ++ (on_chunk (on_chunk buffer c1).2 c2).1,
     (on_chunk (on_chunk buffer c1).2 c2).2).
Proof.
  unfold on_chunk. rewrite !LineReaderFacts.drain_split_lines.
  rewrite <- (LineReaderFacts.split_lines_app (buffer +:+ c1) c2).
  by rewrite JsStringFacts.app_assoc.
Qed.

Lemma processCommand_set_loops (sc : Scope) (command : string)
    (ls : list ReadLoop) (w : World) :
  processCommand sc command (set_loops ls w)
  = set_loops ls (processCommand sc command w).
Proof.
  unfold processCommand. destruct (Decimal10.trim command) as [|a t]; [done|].
  destruct (String.prefix "G06" (String a t)); [|done].
  destruct (Codec.parse_G06 (String a t)) as [target feedRate].
  destruct (0 <? size target)%nat; [|done].
  unfold smoothMoveTo.
  destruct (isMoving (bound sc) || negb (onDataReceived sc)); done.
Qed.

Lemma commands_set_loops (sc : Scope) (commands : list string)
    (ls : list ReadLoop) (w : World) :
  foldl (fun w command => processCommand sc command w) (set_loops ls w) commands
  = set_loops ls (foldl (fun w command => processCommand sc command w) w commands).
Proof.
  revert w. induction commands as [|c commands IH]; intros w; [done|].
  cbn [foldl]. by rewrite processCommand_set_loops, IH.
Qed.

Lemma deliver_set_loops (h : handle) (value : string) (ls kept : list ReadLoop)
    (w : World) :
  deliver h value ls (set_loops kept w)
  = ((deliver h value ls w).1, set_loops kept (deliver h value ls w).2).
Proof.
  induction ls as [|l ls IH]; [done|].
  cbn [deliver]. destruct (decide (loop_reader l = h)) as [_|_].
  - unfold on_read.
    destruct (on_chunk (buffer l) value) as [commands buffer'].
    cbn [fst snd]. by rewrite commands_set_loops.
  - rewrite IH. by destruct (deliver h value ls w) as [ls' w'].
Qed.

Lemma deliver_twice (h : handle) (c1 c2 : string) (ls : list ReadLoop)
    (w : World) :
  deliver h c2 (deliver h c1 ls w).1 (deliver h c1 ls w).2
  = deliver h (c1 +:+ c2) ls w.
Proof.
  induction ls as [|l ls IH]; [done|].
  cbn [deliver]. destruct (decide (loop_reader l = h)) as [Hl|Hl].
  - unfold on_read. rewrite (on_chunk_app (buffer l) c1 c2).
    destruct (on_chunk (buffer l) c1) as [commands1 buffer1].
    cbn [fst snd deliver loop_reader].
    destruct (decide (loop_reader l = h)) as [_|]; [|done].
    unfold on_read. cbn [buffer loop_scope loop_reader].
    destruct (on_chunk buffer1 c2) as [commands2 buffer2].
    cbn [fst snd]. by rewrite foldl_app.
  - destruct (deliver h c1 ls w) as [ls1 w1] eqn:E1. cbn [fst snd] in *.
    cbn [deliver]. destruct (decide (loop_reader l = h)) as [|_]; [done|].
    rewrite IH. by destruct (deliver h (c1 +:+ c2) ls w).
Qed.

End ChunkFacts.

(** X22. How the serial stream is cut into chunks makes no difference
    to the component: a text delivered to a reader in two chunks leaves
    the component exactly as the same text delivered in one. *)
Theorem chunking_makes_no_difference (w : Component.World)
    (h : Component.handle) (c1 c2 : string) :
  Component.run w [Component.Chunk h c1; Component.Chunk h c2]
  = Component.step w (Component.Chunk h (c1 +:+ c2)).
Proof.
  cbn [Component.run foldl Component.step].
  rewrite <- (ChunkFacts.deliver_twice h c1 c2 (Component.loops w) w).
  destruct (Component.deliver h c1 (Component.loops w) w) as [ls1 w1].
  cbn [fst snd]. ComponentFacts.fields.
  rewrite ChunkFacts.deliver_set_loops.
  by destruct (Component.deliver h c2 ls1 w1) as [ls2 w2].
Qed.

(** ** What the panel writes *)

Module WriteFacts.
Import JsNumber Codec Component ComponentFacts InvariantFacts AutoSend
  AutoSendFacts.

Lemma encode_is_no_ack (exponential : Q -> string) (js : JointState)
    (h : handle) (ok : bool) :
  is_ok_write (WriterWrite h (encode exponential js) ok) = false.
Proof. by destruct ok. Qed.

Lemma send_call_no_ack (exponential : Q -> string) (sc : Scope) (ok : bool) :
  filter is_ok_write (send_call exponential sc ok) = [].
Proof.
  unfold send_call.
  destruct (writer (bound sc)), (isConnected (bound sc)); try done.
  rewrite filter_cons, encode_is_no_ack. done.
Qed.

Lemma sendJointStates_queues (exponential : Q -> string) (sc : Scope)
    (write_ok : bool) (w : World) :
  let w' := sendJointStates exponential sc write_ok w in
  loops w' = loops w /\ frames w' = frames w /\ timers w' = timers w.
Proof.
  unfold sendJointStates.
  by destruct (writer (bound sc)), (isConnected (bound sc)), write_ok.
Qed.

Lemma sendJointStates_unconnected (exponential : Q -> string) (sc : Scope)
    (write_ok : bool) (w : World) :
  closures_unconnected w ->
  closures_unconnected (sendJointStates exponential sc write_ok w).
Proof.
  intros (H1 & H2 & H3 & H4). unfold closures_unconnected, acks in *.
  destruct (sendJointStates_queues exponential sc write_ok w) as (-> & -> & ->).
  destruct (sendJointStates_effect exponential sc write_ok w)
    as (_ & _ & _ & _ & _ & ->).
  by rewrite filter_app, H4, send_call_no_ack.
Qed.

Lemma connectToSerial_calls (sc : Scope) (opened : bool) (w : World) :
  calls (connectToSerial sc opened w) = calls w.
Proof.
  unfold connectToSerial.
  by destruct (isWebSerialSupported (bound sc)), opened.
Qed.

Lemma disconnectSerial_calls (sc : Scope) (c1 c2 c3 : bool) (w : World) :
  exists extra,
    calls (disconnectSerial sc c1 c2 c3 w) = calls w ++ extra
    /\ Forall is_release extra.
Proof.
  unfold disconnectSerial, release.
  destruct (reader (bound sc)), (writer (bound sc)), (port (bound sc)),
    c1, c2, c3; cbn;
    (eexists; split;
     [rewrite <- ?(assoc_L (++)); first [reflexivity | symmetry; apply app_nil_r]
     |repeat constructor]).
Qed.

Lemma deliver_calls (h : handle) (value : string) (ls : list ReadLoop)
    (w : World) :
  calls (deliver h value ls w).2 = calls w.
Proof.
  induction ls as [|l ls IH]; [done|].
  cbn [deliver]. destruct (decide (loop_reader l = h)) as [_|_].
  - unfold on_read.
    destruct (LineReader.on_chunk (buffer l) value) as [commands buffer'].
    cbn [fst snd].
    by destruct (commands_effect (loop_scope l) commands w) as (_ & _ & H & _).
  - destruct (deliver h value ls w) as [ls' w']. exact IH.
Qed.

(** Without a connected closure, the component itself writes nothing. *)
Lemma step_calls (w : World) (e : Component.Event) :
  closures_unconnected w ->
  exists extra,
    calls (Component.step w e) = calls w ++ extra /\ Forall is_release extra.
Proof.
  intros Hw.
  assert (forall w', calls w' = calls w ->
            exists extra, calls w' = calls w ++ extra /\ Forall is_release extra)
    as Hsame.
  { intros w' ->. exists []. by rewrite app_nil_r. }
  destruct e as [opened|c1 c2 c3|h value| |ms|write_ok]; cbn [Component.step].
  - destruct (isConnected (cells w) || isConnecting (cells w));
      apply Hsame; [done|apply connectToSerial_calls].
  - destruct (isConnected (cells w)); [|by apply Hsame].
    apply disconnectSerial_calls.
  - apply Hsame. pose proof (deliver_calls h value (loops w) w) as H.
    by destruct (deliver h value (loops w) w) as [ls w'].
  - apply Hsame.
    by destruct (animate_all_effect (frames w) (set_frames [] w)) as [-> _].
  - by apply Hsame.
  - apply Hsame. destruct (timers w) as [|[due sc] rest] eqn:Ht; [done|].
    destruct (due <=? now w)%Z; [|done].
    destruct Hw as (_ & _ & Htimers & _). rewrite Ht in Htimers.
    apply Forall_cons in Htimers as [Hsc _]. cbn [snd] in Hsc.
    by rewrite sendOkResponse_unconnected.
Qed.

Lemma release_is_command (exponential : Q -> string) (extra : list SerialCall) :
  Forall is_release extra -> Forall (is_command exponential) extra.
Proof. intros H. eapply Forall_impl; [exact H|]. by intros []. Qed.

Lemma send_call_is_command (exponential : Q -> string) (sc : Scope) (ok : bool) :
  Forall (is_command exponential) (send_call exponential sc ok).
Proof.
  unfold send_call.
  destruct (writer (bound sc)), (isConnected (bound sc)); repeat constructor.
  by eexists.
Qed.

Lemma commands_only_step (exponential : Q -> string) (p : Panel) (e : Event) :
  writes_commands_only exponential p ->
  writes_commands_only exponential (step exponential p e).
Proof.
  intros [Hu Hc].
  assert (forall sc ok,
            writes_commands_only exponential
              {| world := sendJointStates exponential sc ok (world p);
                 autoSend := autoSend p; debounce := None |}) as Hsend.
  { intros sc ok. split; cbn [world].
    - by apply sendJointStates_unconnected.
    - destruct (sendJointStates_effect exponential sc ok (world p))
        as (_ & _ & _ & _ & _ & ->).
      apply Forall_app. split; [done|apply send_call_is_command]. }
  destruct e as [jointName value| | |write_ok|write_ok|e]; cbn [step].
  - split; [exact Hu|exact Hc].
  - split; [exact Hu|exact Hc].
  - destruct (isConnected (cells (world p))); split; done.
  - destruct (isConnected (cells (world p))); [|by split].
    destruct (Hsend (render (world p)) write_ok) as [H1 H2]. by split.
  - destruct (debounce p) as [[due sc]|]; [|by split].
    destruct (due <=? now (world p))%Z; [apply Hsend|by split].
  - assert (writes_commands_only exponential
              (set_world (Component.step (world p) e) p)) as [H1 H2].
    { split; cbn [world set_world]; [by apply step_unconnected|].
      destruct (step_calls (world p) e Hu) as (extra & -> & Hextra).
      apply Forall_app. split; [done|by apply release_is_command]. }
    destruct (replaces_jointStates (world p) e
              || negb (eqb (isConnected (cells (Component.step (world p) e)))
                         (isConnected (cells (world p))))); by split.
Qed.

End WriteFacts.

(** X23. Whatever the user and the serial line do, the panel writes
    nothing but commands of a joint state: every call recorded is the
    release of a reader, writer or port, or the write of the line
    [sendJointStates] builds from some joint state.  In particular no
    acknowledgment is written, with or without auto-send. *)
Theorem panel_writes_commands_only (exponential : Q -> string)
    (es : list AutoSend.Event) :
  Forall (AutoSend.is_command exponential)
    (Component.calls
       (AutoSend.world (AutoSend.run exponential AutoSend.initial es)))
  /\ Component.acks
       (AutoSend.world (AutoSend.run exponential AutoSend.initial es)) = [].
Proof.
  assert (forall p, AutoSend.writes_commands_only exponential p ->
            AutoSend.writes_commands_only exponential
              (AutoSend.run exponential p es)) as Hrun.
  { induction es as [|e es IH]; intros p Hp; [done|].
    apply IH, WriteFacts.commands_only_step, Hp. }
  destruct (Hrun AutoSend.initial) as [(_ & _ & _ & Hacks) Hcalls].
  - split; [apply ComponentFacts.initial_unconnected|constructor].
  - by split.
Qed.

(* ===================================================================== *)
(** * The closures of the read loop *)
(* ===================================================================== *)

(** ** The pose a motion starts from *)

Module StartFacts.
Import JsNumber Codec Component ComponentFacts InvariantFacts.

Lemma smoothMoveTo_start (sc : Scope) (target : JointState) (f : number)
    (w : World) :
  loops (smoothMoveTo sc target f w) = loops w
  /\ (frames (smoothMoveTo sc target f w) = frames w
      \/ exists a, frames (smoothMoveTo sc target f w) = frames w ++ [a]
                   /\ startStates a = jointStates sc).
Proof.
  unfold smoothMoveTo.
  destruct (isMoving (bound sc) || negb (onDataReceived sc));
    [by split; [|left]|].
  split; [done|]. right. eexists. split; reflexivity.
Qed.

Lemma processCommand_start (sc : Scope) (command : string) (w : World) :
  starts_from (jointStates sc) w ->
  loops (processCommand sc command w) = loops w
  /\ Forall (fun a => startStates a = jointStates sc)
       (frames (processCommand sc command w)).
Proof.
  intros [_ Hframes]. unfold processCommand.
  destruct (Decimal10.trim command) as [|c t]; [done|].
  destruct (String.prefix "G06" (String c t)); [|done].
  destruct (parse_G06 (String c t)) as [target feedRate].
  destruct (0 <? size target)%nat; [|done].
  destruct (smoothMoveTo_start sc target feedRate
              (addToLog (LogMovingTo feedRate)
                 (addToLog (LogReceived (String c t)) w)))
    as [-> [->|(a & -> & Ha)]]; split; try done.
  apply Forall_app. split; [done|]. by apply Forall_singleton.
Qed.

Lemma commands_start (sc : Scope) (commands : list string) (w : World) :
  starts_from (jointStates sc) w ->
  let w' := foldl (fun w command => processCommand sc command w) w commands in
  loops w' = loops w
  /\ Forall (fun a => startStates a = jointStates sc) (frames w').
Proof.
  revert w. induction commands as [|c commands IH]; intros w Hw.
  - split; [done|]. apply Hw.
  - cbn [foldl]. destruct (processCommand_start sc c w Hw) as [Hl Hf].
    destruct (IH (processCommand sc c w)) as [-> I2].
    + split; [rewrite Hl; apply Hw|done].
    + by split.
Qed.

Lemma deliver_start (pose : JointState) (h : handle) (value : string)
    (ls : list ReadLoop) (w : World) :
  Forall (fun l => jointStates (loop_scope l) = pose) ls ->
  starts_from pose w ->
  Forall (fun l => jointStates (loop_scope l) = pose) (deliver h value ls w).1
  /\ Forall (fun a => startStates a = pose) (frames (deliver h value ls w).2).
Proof.
  intros Hls Hw. induction Hls as [|l ls Hl Hls IH]; [by split; [|apply Hw]|].
  cbn [deliver]. destruct (decide (loop_reader l = h)) as [_|_].
  - unfold on_read.
    destruct (LineReader.on_chunk (buffer l) value) as [commands buffer'].
    cbn [fst snd]. rewrite <- Hl in Hw.
    destruct (commands_start (loop_scope l) commands w Hw) as [_ Hf].
    rewrite Hl in Hf. split; [|done]. by constructor.
  - destruct (deliver h value ls w) as [ls' w']. cbn [fst snd] in *.
    destruct IH as [I1 I2]. split; [|done]. by constructor.
Qed.

Lemma animate_all_start (pose : JointState) (queue : list Animation)
    (w : World) :
  Forall (fun a => startStates a = pose) queue ->
  Forall (fun a => startStates a = pose) (frames w) ->
  Forall (fun a => startStates a = pose)
    (frames (foldl (fun w a => animate a w) w queue)).
Proof.
  intros Hq. revert w. induction Hq as [|a queue Ha Hq IH]; intros w Hw;
    [done|].
  cbn [foldl]. apply IH.
  destruct (animate_effect a w) as (_ & _ & _ & [[-> _]|[-> _]]); [|done].
  apply Forall_app. split; [done|]. by apply Forall_singleton.
Qed.

Lemma disconnectSerial_loops (P : ReadLoop -> Prop) (sc : Scope)
    (c1 c2 c3 : bool) (w : World) :
  Forall P (loops w) -> Forall P (loops (disconnectSerial sc c1 c2 c3 w)).
Proof.
  intros Hw. unfold disconnectSerial, release.
  destruct (reader (bound sc)), (writer (bound sc)), (port (bound sc)),
    c1, c2, c3; cbn; first [exact Hw | by apply Forall_filter_keeps].
Qed.

(** No event but a click on Connect changes the pose that motions
    start from. *)
Lemma starts_from_step (pose : JointState) (w : World) (e : Event) :
  is_connect e = false -> starts_from pose w -> starts_from pose (step w e).
Proof.
  intros He [Hl Hf].
  destruct e as [opened|c1 c2 c3|h value| |ms|write_ok]; [done|..];
    cbn [step].
  - destruct (isConnected (cells w)); [|by split]. split.
    + by apply disconnectSerial_loops.
    + by destruct (disconnectSerial_motion (render w) c1 c2 c3 w) as (-> & _).
  - pose proof (deliver_start pose h value (loops w) w Hl (conj Hl Hf)) as H.
    destruct (deliver h value (loops w) w) as [ls w']. cbn [fst snd] in H.
    destruct H as [H1 H2]. split; [exact H1|exact H2].
  - split.
    + unfold starts_from. rewrite ConnectionFacts.loops_animate_all. exact Hl.
    + by apply animate_all_start.
  - split; [exact Hl|exact Hf].
  - destruct (timers w) as [|[due sc] rest]; [by split|].
    destruct (due <=? now w)%Z; [|by split].
    unfold sendOkResponse.
    destruct (writer (bound sc)), (isConnected (bound sc)), write_ok;
      (split; [exact Hl|exact Hf]).
Qed.

Lemma starts_from_run (pose : JointState) (es : list Event) (w : World) :
  existsb is_connect es = false ->
  starts_from pose w -> starts_from pose (run w es).
Proof.
  revert w. induction es as [|e es IH]; intros w Hes Hw; [done|].
  cbn [existsb] in Hes. apply orb_false_elim in Hes as [He Hes].
  cbn [run foldl]. apply IH; [done|]. by apply starts_from_step.
Qed.

Lemma starts_from_connect :
  starts_from initial_jointStates (step initial (ClickConnect true)).
Proof. split; cbn; repeat constructor. Qed.

End StartFacts.

(** C3, against the claim.  The displacement that paces a motion is
    measured from the pose the page had when Connect was clicked, not
    from the pose the arm has when the command arrives: [smoothMoveTo]
    reads the [jointStates] of the render in which the read loop was
    started.  As long as the connection lasts every motion starts from
    that pose.  With the arm brought to 90 degrees on theta1 by a
    first command, the same command again gives no displacement and so,
    by the formula, the floor of 100 ms; the code starts from 0 again,
    takes longer than the floor and its first frame puts theta1 back
    to 0. *)
Theorem motion_starts_from_the_pose_at_connect :
  let line (s : string) := s +:+ String JsString.newline "" in
  let arrived :=
    Component.run Component.initial
      [Component.ClickConnect true;
       Component.Chunk 0 (line "G06 X90 F500");
       Component.AnimationFrame; Component.Elapse 20000;
       Component.AnimationFrame] in
  let again := Component.step arrived (Component.Chunk 0 (line "G06 X90 F500")) in
  let back := Component.step again Component.AnimationFrame in
  (forall es,
     existsb Component.is_connect es = false ->
     Forall (fun a => Component.startStates a = Component.initial_jointStates)
       (Component.frames
          (Component.run Component.initial (Component.ClickConnect true :: es))))
  /\ Component.frames arrived = []
  /\ Component.isMoving (Component.cells arrived) = false
  /\ (exists a present target,
        Component.frames again = [a]
        /\ Component.home_jointStates again !! "theta1" = Some present
        /\ Component.targetStates a !! "theta1" = Some target
        /\ JsNumber.same present target
        /\ Component.startStates a !! "theta1" = Some (JsNumber.Fin 0)
        /\ JsNumber.ltb (JsNumber.of_Z 100) (Component.duration a) = true)
  /\ exists theta1,
       Component.home_jointStates back !! "theta1" = Some theta1
       /\ JsNumber.same theta1 (JsNumber.Fin 0).
Proof.
  intros line arrived again back. split.
  { intros es Hes.
    by apply (StartFacts.starts_from_run _ es _ Hes
                StartFacts.starts_from_connect). }
  split; [by vm_compute|]. split; [by vm_compute|]. split.
  - eexists _, _, _. split; [by vm_compute|].
    split; [by vm_compute|]. split; [by vm_compute|].
    split; [by vm_compute|]. split; by vm_compute.
  - eexists. split; by vm_compute.
Qed.

(** ** The acknowledgment *)

Module AckFacts.
Import Component ComponentFacts AutoSend WriteFacts.

(** The component on its own never calls [writer.write]. *)
Lemma run_writes_nothing (es : list Component.Event) (w : World) :
  closures_unconnected w -> Forall is_release (calls w) ->
  Forall is_release (calls (Component.run w es)).
Proof.
  revert w. induction es as [|e es IH]; intros w Hu Hc; [done|].
  cbn [Component.run foldl]. apply IH; [by apply step_unconnected|].
  destruct (step_calls w e Hu) as (extra & -> & Hextra).
  apply Forall_app. by split.
Qed.

End AckFacts.

(** C4, against the claim.  A motion that runs to its end signals
    completion once and arms the 50 ms timeout, but the acknowledgment
    is never written: [sendOkResponse] reads the [writer] and the
    [isConnected] of the render in which Connect was clicked, where the
    writer is still [null] and the flag still [false], and returns.
    After a completed motion, with the port open and the writer held by
    the component, the timeout has run and nothing was written; and
    whatever happens, the component calls [writer.write] never. *)
Theorem completed_motion_is_never_acknowledged :
  let line (s : string) := s +:+ String JsString.newline "" in
  let completed :=
    Component.run Component.initial
      [Component.ClickConnect true;
       Component.Chunk 0 (line "G06 X90 F500");
       Component.AnimationFrame; Component.Elapse 20000;
       Component.AnimationFrame] in
  let settled :=
    Component.run completed [Component.Elapse 50; Component.TimerFires true] in
  (Component.completions completed = 1%nat
   /\ Component.isMoving (Component.cells completed) = false
   /\ Component.frames completed = []
   /\ (exists sc, Component.timers completed
                  = [((Component.now completed + 50)%Z, sc)]))
  /\ (Component.isConnected (Component.cells settled) = true
      /\ Component.writer (Component.cells settled) = Some 0%nat
      /\ Component.timers settled = []
      /\ Component.calls settled = [])
  /\ forall es,
       Forall AutoSend.is_release
         (Component.calls (Component.run Component.initial es)).
Proof.
  intros line completed settled. split; [|split].
  - split; [by vm_compute|]. split; [by vm_compute|].
    split; [by vm_compute|]. eexists. by vm_compute.
  - by vm_compute.
  - intros es. apply AckFacts.run_writes_nothing;
      [apply ComponentFacts.initial_unconnected|constructor].
Qed.
